(** * The npm install/ci command of jfrog-cli-core

    A shallow embedding of [artifactory/commands/npm/installorci.go]:
    the dependency-tree parser, the configuration translator, the
    checksum-enrichment pass, the manifest assembler and the command
    driver [run], followed by the properties proved about them. *)

From stdpp Require Import gmap strings list fin_maps sorting.
From Stdlib Require Import ZArith NArith Ascii Lia.

Local Open Scope string_scope.
Local Open Scope list_scope.
Set Warnings "-register-all".

(** ** Go errors and fallible results

    A Go [error] is represented by its message ([err.Error()]); a function
    returning [(T, error)] returns a [result T], and a function returning
    only [error] returns an [option error] in which [None] is [nil]. *)

Definition error := string.

Inductive result (A : Type) : Type :=
| Ok (a : A)
| Err (e : error).
Arguments Ok {A} a.
Arguments Err {A} e.

(** [errorutils.CheckError] hands back the error it is given. *)
Definition CheckError (e : option error) : option error := e.

(** ** Byte strings, as [github.com/buger/jsonparser] reads them

    The parser works on the bytes that [npm ls --json] printed and hands
    slices of them back to the library. The library is not part of this
    package, and the command relies on nothing but its answers; a byte
    string is therefore kept together with what the library answers when
    it is asked about it, whatever the bytes are (a well-formed document,
    a truncated one, a text that is no object at all):

    - [bytes]: the bytes themselves (for a value that [Get] returns, a
      string comes without its quotes);
    - [entries]: the calls [ObjectEach(data, callback)] makes of its
      callback, in order, as long as the callback returns no error: the
      key and the value of each call and, with them, what
      [Get(data, key, k)] returns for the keys [k] for which it does not
      return [KeyPathNotFoundError], a value or another error;
    - [ending]: what [ObjectEach] returns after the last of these calls:
      [nil] when it reached the closing brace, its error otherwise. *)

Inductive json : Type :=
| Json (bytes : string)
       (entries : list (string * (json * list (string * result json))))
       (ending : option error).

Definition bytesOf (v : json) : string :=
  match v with Json bytes _ _ => bytes end.

Definition entriesOf (v : json) : list (string * (json * list (string * result json))) :=
  match v with Json _ entries _ => entries end.

Definition endingOf (v : json) : option error :=
  match v with Json _ _ ending => ending end.

(** [len(bytes) > 0] *)
Definition hasBytes (v : json) : bool := (0 <? String.length (bytesOf v))%nat.

Fixpoint depth (v : json) : nat :=
  match v with
  | Json _ entries _ =>
      S ((fix deepest (l : list (string * (json * list (string * result json)))) : nat :=
            match l with
            | [] => 0
            | (_, (w, under)) :: r =>
                (depth w `max`
                 (fix below (u : list (string * result json)) : nat :=
                    match u with
                    | [] => 0
                    | (_, Ok t) :: u' => depth t `max` below u'
                    | (_, Err _) :: u' => below u'
                    end) under)
                `max` deepest r
            end) entries)
  end.

Module jsonparser.

Definition KeyPathNotFoundError : error := "Key path not found".

Definition MalformedJsonError : error := "Malformed JSON error".

Definition MalformedObjectError : error :=
  "Value looks like object, but can't find closing '}' symbol".

(** The answer listed for [k], [KeyPathNotFoundError] when none is. *)
Fixpoint answer (k : string) (under : list (string * result json)) : result json :=
  match under with
  | [] => Err KeyPathNotFoundError
  | (k', r) :: rest => if decide (k' = k) then r else answer k rest
  end.

(** [Get(data, k1, k2)], for a key [k1] that [ObjectEach] reports on
    [data]: the answer is a function of the two keys, kept with the first
    entry of that key. *)
Fixpoint lookup (entries : list (string * (json * list (string * result json))))
    (k1 k2 : string) : result json :=
  match entries with
  | [] => Err KeyPathNotFoundError
  | (k, (_, under)) :: rest =>
      if decide (k = k1) then answer k2 under else lookup rest k1 k2
  end.

Definition Get (data : json) (k1 k2 : string) : result json :=
  lookup (entriesOf data) k1 k2.

(** The calls of the callback: it sees every entry in order, its first
    error ends the iteration and is returned; after the last entry the
    iteration returns [ending]. The state the callback mutates is
    threaded through. *)
Fixpoint each {St : Type} (entries : list (string * (json * list (string * result json))))
    (ending : option error)
    (callback : string -> json -> St -> St * option error) (st : St)
  : St * option error :=
  match entries with
  | [] => (st, ending)
  | (k, (v, _)) :: rest =>
      match callback k v st with
      | (st', Some e) => (st', Some e)
      | (st', None) => each rest ending callback st'
      end
  end.

Definition ObjectEach {St : Type} (data : json)
    (callback : string -> json -> St -> St * option error) (st : St)
  : St * option error :=
  each (entriesOf data) (endingOf data) callback st.

End jsonparser.

(** ** The dependency graph *)

Record Checksum : Type := mkChecksum { Sha1 : string; Md5 : string }.

Record dependency : Type := mkDependency {
  name : string;
  version : string;
  scopes : list string;
  fileType : string;
  checksum : option Checksum;
  pathToRoot : list (list string)
}.

Fixpoint scopeAlreadyExists (scope : string) (existingScopes : list string) : bool :=
  match existingScopes with
  | [] => false
  | existingScope :: rest =>
      if decide (existingScope = scope) then true
      else scopeAlreadyExists scope rest
  end.

Definition withScopes (d : dependency) (s : list string) : dependency :=
  mkDependency (name d) (version d) s (fileType d) (checksum d) (pathToRoot d).

Definition withPathToRoot (d : dependency) (p : list (list string)) : dependency :=
  mkDependency (name d) (version d) (scopes d) (fileType d) (checksum d) p.

Definition appendDependency (depKey depName depVersion scope : string)
    (pathToRoot0 : list string) (deps : gmap string dependency)
  : gmap string dependency :=
  let deps1 :=
    match deps !! depKey with
    | None =>
        <[depKey := mkDependency depName depVersion [scope] "" None []]> deps
    | Some d =>
        if negb (scopeAlreadyExists scope (scopes d))
        then <[depKey := withScopes d (scopes d ++ [scope])]> deps
        else deps
    end in
  match deps1 !! depKey with
  | Some d => <[depKey := withPathToRoot d (pathToRoot d ++ [pathToRoot0])]> deps1
  | None => deps1
  end.

(** The callback of [parseDependencies]; [recurse] is the recursive call.
    The graph is mutated in place in the source, so the graph reached is
    returned also when an error stops the walk. *)
Definition parseEntry
    (recurse : json -> list string ->
               gmap string dependency -> gmap string dependency * option error)
    (data : json) (scope : string) (pathToRoot0 : list string)
    (depName : string) (value : json) (deps : gmap string dependency)
  : gmap string dependency * option error :=
  let ver := jsonparser.Get data depName "version" in
  let depVersion := match ver with Ok v => bytesOf v | Err _ => "" end in
  let depKey := depName +:+ ":" +:+ depVersion in
  let checked :=
    match ver with
    | Err err =>
        if decide (err ≠ jsonparser.KeyPathNotFoundError)
        then Err err
        else Ok deps
    | Ok _ => Ok (appendDependency depKey depName depVersion scope pathToRoot0 deps)
    end in
  match checked with
  | Err err => (deps, CheckError (Some err))
  | Ok deps1 =>
      match jsonparser.Get data depName "dependencies" with
      | Err err =>
          if decide (err ≠ "Key path not found")
          then (deps1, CheckError (Some err))
          else (deps1, None)
      | Ok transitive =>
          if hasBytes transitive
          then recurse transitive (depKey :: pathToRoot0) deps1
          else (deps1, None)
      end
  end.

(** [fuel] bounds the nesting depth that is followed. *)
Fixpoint parseDependenciesFuel (fuel : nat) (data : json)
    (scope : string) (pathToRoot0 : list string)
    (deps : gmap string dependency) : gmap string dependency * option error :=
  match fuel with
  | O => (deps, Some "nesting too deep")
  | S fuel' =>
      jsonparser.ObjectEach data
        (parseEntry (fun sub p => parseDependenciesFuel fuel' sub scope p)
           data scope pathToRoot0)
        deps
  end.

(** The recursion of the source follows the nesting of the document. *)
Definition parseDependencies (data : json) (scope : string)
    (pathToRoot0 : list string) (deps : gmap string dependency)
  : gmap string dependency * option error :=
  parseDependenciesFuel (S (depth data)) data scope pathToRoot0 deps.

(** ** Go's [strings], [bufio] and [strconv], on byte strings *)

Module strings.

Definition HasPrefix (s prefix : string) : bool := String.prefix prefix s.

Definition HasSuffix (s suffix : string) : bool :=
  String.prefix (String.rev suffix) (String.rev s).

Fixpoint Contains (s substr : string) : bool :=
  String.prefix substr s ||
  match s with
  | EmptyString => false
  | String _ s' => Contains s' substr
  end.

Definition TrimPrefix (s prefix : string) : string :=
  if HasPrefix s prefix
  then String.substring (String.length prefix)
         (String.length s - String.length prefix) s
  else s.

Definition TrimSuffix (s suffix : string) : string :=
  if HasSuffix s suffix
  then String.substring 0 (String.length s - String.length suffix) s
  else s.

(** The text before and after the first occurrence of the byte [sep]. *)
Fixpoint cut (sep : ascii) (s : string) : option (string * string) :=
  match s with
  | EmptyString => None
  | String c s' =>
      if decide (c = sep) then Some (EmptyString, s')
      else match cut sep s' with
           | Some (before, after) => Some (String c before, after)
           | None => None
           end
  end.

(** [SplitN s sep 2] for a one-byte separator. *)
Definition SplitN2 (s : string) (sep : ascii) : list string :=
  match cut sep s with
  | Some (before, after) => [before; after]
  | None => [s]
  end.

(** [Split s sep] for a one-byte separator. *)
Fixpoint Split (s : string) (sep : ascii) : list string :=
  match s with
  | EmptyString => [EmptyString]
  | String c s' =>
      if decide (c = sep) then EmptyString :: Split s' sep
      else match Split s' sep with
           | seg :: segs => String c seg :: segs
           | [] => [String c EmptyString]
           end
  end.

Definition Join (elems : list string) (sep : string) : string :=
  match elems with
  | [] => EmptyString
  | e :: rest => fold_left (fun acc x => acc +:+ sep +:+ x) rest e
  end.

(** The string of the bytes of given values. *)
Definition bytes (l : list nat) : string :=
  String.string_of_list_ascii (map ascii_of_nat l).

(** The UTF-8 encodings of the code points for which [unicode.IsSpace]
    holds: tab, line feed, vertical tab, form feed, carriage return,
    space, U+0085, U+00A0, U+1680, U+2000 to U+200A, U+2028, U+2029,
    U+202F, U+205F and U+3000. *)
Definition spaces : list string :=
  map bytes
    [ [9]; [10]; [11]; [12]; [13]; [32];
      [194; 133]; [194; 160]; [225; 154; 128];
      [226; 128; 128]; [226; 128; 129]; [226; 128; 130]; [226; 128; 131];
      [226; 128; 132]; [226; 128; 133]; [226; 128; 134]; [226; 128; 135];
      [226; 128; 136]; [226; 128; 137]; [226; 128; 138];
      [226; 128; 168]; [226; 128; 169]; [226; 128; 175];
      [226; 129; 159]; [227; 128; 128] ].

(** The length of the white-space code point [s] starts with, if any. *)
Definition leadingSpace (table : list string) (s : string) : option nat :=
  String.length <$> List.find (fun sp => String.prefix sp s) table.

Fixpoint trimLeft (fuel : nat) (table : list string) (s : string) : string :=
  match fuel with
  | O => s
  | S fuel' =>
      match leadingSpace table s with
      | Some n => trimLeft fuel' table
                    (String.substring n (String.length s - n) s)
      | None => s
      end
  end.

Definition TrimSpace (s : string) : string :=
  let l := trimLeft (String.length s) spaces s in
  String.rev (trimLeft (String.length l) (map String.rev spaces) (String.rev l)).

End strings.

Module strconv.
Definition FormatBool (b : bool) : string := if b then "true" else "false".
End strconv.

Module bufio.

Definition ErrTooLong : error := "bufio.Scanner: token too long".

Definition MaxScanTokenSize : N := 65536.

Definition dropCR (line : string) : string :=
  strings.TrimSuffix line (strings.bytes [13]).

(** The tokens a [Scanner] with the [ScanLines] split function delivers
    before [Scan] returns false, and the error [Err] then reports. A line
    is delivered without its line end; a last line that is not ended is
    delivered unless it is empty; a line that does not fit the buffer
    stops the scan. *)
Fixpoint scan (segments : list string) : list string * option error :=
  match segments with
  | [] => ([], None)
  | seg :: rest =>
      if (MaxScanTokenSize <=? N.of_nat (String.length seg))%N
      then ([], Some ErrTooLong)
      else match rest with
           | [] => (if decide (seg = EmptyString) then [] else [dropCR seg], None)
           | _ => let '(tokens, err) := scan rest in (dropCR seg :: tokens, err)
           end
  end.

Definition ScanLines (data : string) : list string * option error :=
  scan (strings.Split data (ascii_of_nat 10)).

End bufio.

(** ** Versions, as [jfrog-client-go/utils/version] compares them

    The package is not part of this repository; [Compare] follows its
    documented contract. A version is kept as its dot-separated numeric
    components. *)

Module Version.

Definition t : Type := list N.

Definition compareTokens (ver1Token ver2Token : N) : Z :=
  if (ver2Token <? ver1Token)%N then 1%Z
  else if (ver1Token <? ver2Token)%N then (-1)%Z
  else 0%Z.

(** The loop over the component indices; a missing component is 0. *)
Fixpoint compareFrom (steps tokenIndex : nat) (ver1Tokens ver2Tokens : list N) : Z :=
  match steps with
  | O => 0%Z
  | S steps' =>
      let compare := compareTokens (nth tokenIndex ver1Tokens 0%N)
                                   (nth tokenIndex ver2Tokens 0%N) in
      if decide (compare = 0%Z)
      then compareFrom steps' (S tokenIndex) ver1Tokens ver2Tokens
      else compare
  end.

(** [version.Compare(ver1)]: 0 if [ver1] equals [version], 1 if [ver1] is
    greater than [version], -1 if it is smaller. *)
Definition Compare (version ver1 : t) : Z :=
  compareFrom (length ver1 `max` length version) 0 ver1 version.

End Version.

(** ** The command object *)

Definition npmrcFileName : string := ".npmrc".
Definition npmrcBackupFileName : string := "jfrog.npmrc.backup".
(** "5.4.0" *)
Definition minSupportedNpmVersion : Version.t := [5; 4; 0]%N.
Definition minSupportedNpmVersionText : string := "5.4.0".

Inductive typeRestriction : Type :=
| defaultRestriction
| all
| devOnly
| prodOnly.

#[global] Instance typeRestriction_eq_dec : EqDecision typeRestriction.
Proof. solve_decision. Defined.

(** What the command uses of its collaborators' data. *)
Record AuthDetails : Type := mkAuthDetails {
  GetSshAuthHeaders : option (list (string * string))
}.

Record PackageInfo : Type := mkPackageInfo {
  BuildInfoModuleId : string
}.

Record BuildConfiguration : Type := mkBuildConfiguration {
  BuildName : string;
  BuildNumber : string;
  Module_ : string
}.

(** [restoreNpmrcFunc] is the closure [BackupFile] returns; it is kept as
    the error it returns when called. *)
Record NpmCommandArgs : Type := mkNpmCommandArgs {
  command : string;
  threads : Z;
  jsonOutput : bool;
  executablePath : string;
  restoreNpmrcFunc : option error;
  workingDirectory : string;
  registry : string;
  npmAuth : string;
  collectBuildInfo : bool;
  dependencies : gmap string dependency;
  typeRestrictionOf : typeRestriction;
  authArtDetails : AuthDetails;
  packageInfo : PackageInfo;
  npmVersion : option Version.t;
  npmArgs : list string;
  repo : string;
  buildConfiguration : BuildConfiguration
}.

Definition with_jsonOutput (x : bool) (a : NpmCommandArgs) : NpmCommandArgs :=
  mkNpmCommandArgs (command a) (threads a) x (executablePath a) (restoreNpmrcFunc a) (workingDirectory a) (registry a) (npmAuth a) (collectBuildInfo a) (dependencies a) (typeRestrictionOf a) (authArtDetails a) (packageInfo a) (npmVersion a) (npmArgs a) (repo a) (buildConfiguration a).

Definition with_executablePath (x : string) (a : NpmCommandArgs) : NpmCommandArgs :=
  mkNpmCommandArgs (command a) (threads a) (jsonOutput a) x (restoreNpmrcFunc a) (workingDirectory a) (registry a) (npmAuth a) (collectBuildInfo a) (dependencies a) (typeRestrictionOf a) (authArtDetails a) (packageInfo a) (npmVersion a) (npmArgs a) (repo a) (buildConfiguration a).

Definition with_restoreNpmrcFunc (x : option error) (a : NpmCommandArgs) : NpmCommandArgs :=
  mkNpmCommandArgs (command a) (threads a) (jsonOutput a) (executablePath a) x (workingDirectory a) (registry a) (npmAuth a) (collectBuildInfo a) (dependencies a) (typeRestrictionOf a) (authArtDetails a) (packageInfo a) (npmVersion a) (npmArgs a) (repo a) (buildConfiguration a).

Definition with_workingDirectory (x : string) (a : NpmCommandArgs) : NpmCommandArgs :=
  mkNpmCommandArgs (command a) (threads a) (jsonOutput a) (executablePath a) (restoreNpmrcFunc a) x (registry a) (npmAuth a) (collectBuildInfo a) (dependencies a) (typeRestrictionOf a) (authArtDetails a) (packageInfo a) (npmVersion a) (npmArgs a) (repo a) (buildConfiguration a).

Definition with_registry (x : string) (a : NpmCommandArgs) : NpmCommandArgs :=
  mkNpmCommandArgs (command a) (threads a) (jsonOutput a) (executablePath a) (restoreNpmrcFunc a) (workingDirectory a) x (npmAuth a) (collectBuildInfo a) (dependencies a) (typeRestrictionOf a) (authArtDetails a) (packageInfo a) (npmVersion a) (npmArgs a) (repo a) (buildConfiguration a).

Definition with_npmAuth (x : string) (a : NpmCommandArgs) : NpmCommandArgs :=
  mkNpmCommandArgs (command a) (threads a) (jsonOutput a) (executablePath a) (restoreNpmrcFunc a) (workingDirectory a) (registry a) x (collectBuildInfo a) (dependencies a) (typeRestrictionOf a) (authArtDetails a) (packageInfo a) (npmVersion a) (npmArgs a) (repo a) (buildConfiguration a).

Definition with_collectBuildInfo (x : bool) (a : NpmCommandArgs) : NpmCommandArgs :=
  mkNpmCommandArgs (command a) (threads a) (jsonOutput a) (executablePath a) (restoreNpmrcFunc a) (workingDirectory a) (registry a) (npmAuth a) x (dependencies a) (typeRestrictionOf a) (authArtDetails a) (packageInfo a) (npmVersion a) (npmArgs a) (repo a) (buildConfiguration a).

Definition with_dependencies (x : gmap string dependency) (a : NpmCommandArgs) : NpmCommandArgs :=
  mkNpmCommandArgs (command a) (threads a) (jsonOutput a) (executablePath a) (restoreNpmrcFunc a) (workingDirectory a) (registry a) (npmAuth a) (collectBuildInfo a) x (typeRestrictionOf a) (authArtDetails a) (packageInfo a) (npmVersion a) (npmArgs a) (repo a) (buildConfiguration a).

Definition with_typeRestrictionOf (x : typeRestriction) (a : NpmCommandArgs) : NpmCommandArgs :=
  mkNpmCommandArgs (command a) (threads a) (jsonOutput a) (executablePath a) (restoreNpmrcFunc a) (workingDirectory a) (registry a) (npmAuth a) (collectBuildInfo a) (dependencies a) x (authArtDetails a) (packageInfo a) (npmVersion a) (npmArgs a) (repo a) (buildConfiguration a).

Definition with_authArtDetails (x : AuthDetails) (a : NpmCommandArgs) : NpmCommandArgs :=
  mkNpmCommandArgs (command a) (threads a) (jsonOutput a) (executablePath a) (restoreNpmrcFunc a) (workingDirectory a) (registry a) (npmAuth a) (collectBuildInfo a) (dependencies a) (typeRestrictionOf a) x (packageInfo a) (npmVersion a) (npmArgs a) (repo a) (buildConfiguration a).

Definition with_packageInfo (x : PackageInfo) (a : NpmCommandArgs) : NpmCommandArgs :=
  mkNpmCommandArgs (command a) (threads a) (jsonOutput a) (executablePath a) (restoreNpmrcFunc a) (workingDirectory a) (registry a) (npmAuth a) (collectBuildInfo a) (dependencies a) (typeRestrictionOf a) (authArtDetails a) x (npmVersion a) (npmArgs a) (repo a) (buildConfiguration a).

Definition with_npmVersion (x : option Version.t) (a : NpmCommandArgs) : NpmCommandArgs :=
  mkNpmCommandArgs (command a) (threads a) (jsonOutput a) (executablePath a) (restoreNpmrcFunc a) (workingDirectory a) (registry a) (npmAuth a) (collectBuildInfo a) (dependencies a) (typeRestrictionOf a) (authArtDetails a) (packageInfo a) x (npmArgs a) (repo a) (buildConfiguration a).

Definition with_buildConfiguration (x : BuildConfiguration) (a : NpmCommandArgs) : NpmCommandArgs :=
  mkNpmCommandArgs (command a) (threads a) (jsonOutput a) (executablePath a) (restoreNpmrcFunc a) (workingDirectory a) (registry a) (npmAuth a) (collectBuildInfo a) (dependencies a) (typeRestrictionOf a) (authArtDetails a) (packageInfo a) (npmVersion a) (npmArgs a) (repo a) x.

Module buildinfo.
Record Dependency : Type := mkDependency {
  Id : string;
  Type_ : string;
  Scopes : list string;
  Checksum_ : option Checksum;
  RequestedBy : list (list string)
}.
End buildinfo.

(** [npm.NpmConfig], the description of an npm invocation. *)
Record NpmConfig : Type := mkNpmConfig {
  Npm : string;
  Command : list string;
  CommandFlags : list string
}.

(** ** Collaborators

    Everything the command asks of the operating system, of the npm
    executable, of Artifactory and of the other packages is gathered in a
    [World]: the answer each call gets. The calls made are recorded, in
    order, as events. *)

Inductive StatResult : Type :=
| StatFound
| StatNotExist
| StatError (e : error).

Record World : Type := mkWorld {
  LookPath : string -> result string;
  Version_ : string -> result Version.t;
  ConfigGet : list string -> string -> string -> result string;
  GetConfigList : list string -> string -> string;
  GetWorkingDirectory : result string;
  CreateArtAuthConfig : result AuthDetails;
  GetArtifactoryNpmRepoDetails : string -> AuthDetails -> result (string * string);
  PrepareBuildInfo : string -> BuildConfiguration -> option Version.t ->
                     result (bool * PackageInfo);
  BackupFile : string -> string -> result (option error);
  Join : string -> string -> string;
  Stat : string -> StatResult;
  Remove : string -> option error;
  WriteFile : string -> string -> option error;
  RunCmd : NpmConfig -> option error;
  RunList : string -> string -> json * string * option error;
  CreateServiceManager : option error;
  GetDependenciesFromLatestBuild : string -> option error;
  GetDependencyInfo : string -> string -> option Checksum * string * option error;
  SaveDependenciesData : list buildinfo.Dependency -> BuildConfiguration -> option error;
  (** which of the tasks in flight completes next: its index in the list
      of them *)
  nextToComplete : list string -> nat;
  (** the order in which [range] yields the keys of a graph *)
  rangeOrder : gmap string dependency -> list string
}.

Inductive Event : Type :=
| EvLookPath (file : string)
| EvVersion
| EvConfigGet (key : string)
| EvGetConfigList
| EvGetWorkingDirectory
| EvCreateArtAuthConfig
| EvGetArtifactoryNpmRepoDetails
| EvPrepareBuildInfo
| EvBackupFile (path backup : string)
| EvRestoreNpmrc
| EvStat (path : string)
| EvRemove (path : string)
| EvWriteFile (path content : string)
| EvRunCmd (config : NpmConfig)
| EvWarn (message : string)
| EvRunList (args : string)
| EvCreateServiceManager
| EvGetDependenciesFromLatestBuild
| EvGetDependencyInfo (name version : string)
| EvSaveDependenciesData (dependencies : list buildinfo.Dependency)
| EvPrintMissingDependencies (missing : list buildinfo.Dependency).

(** The events that change a file of the project, install packages or
    persist the manifest. *)
Definition isMutation (ev : Event) : bool :=
  match ev with
  | EvBackupFile _ _ | EvRestoreNpmrc | EvRemove _ | EvWriteFile _ _
  | EvRunCmd _ | EvSaveDependenciesData _ => true
  | _ => false
  end.

(** ** The command monad: the command object and the events so far are
    threaded through; an error ends the computation. *)

Record machine : Type := mkMachine {
  nca : NpmCommandArgs;
  trace : list Event
}.

Definition M (A : Type) : Type := machine -> result A * machine.

Definition ret {A} (a : A) : M A := fun st => (Ok a, st).

Definition fail {A} (e : error) : M A := fun st => (Err e, st).

Definition bind {A B} (m : M A) (k : A -> M B) : M B :=
  fun st =>
    match m st with
    | (Ok a, st') => k a st'
    | (Err e, st') => (Err e, st')
    end.

Notation "'do' x <- m ; k" := (bind m (fun x => k))
  (at level 10, x name, m at level 100, k at level 200).

(** [if err := m; err != nil { return handler(err) }], for a handler that
    returns an error. *)
Definition orReturn (m : M unit) (handler : error -> machine -> error * machine)
  : M unit :=
  fun st =>
    match m st with
    | (Ok a, st') => (Ok a, st')
    | (Err e, st') => let '(e', st'') := handler e st' in (Err e', st'')
    end.

Definition emit (ev : Event) : M unit :=
  fun st => (Ok tt, mkMachine (nca st) (trace st ++ [ev])).

Definition get : M NpmCommandArgs := fun st => (Ok (nca st), st).

Definition modify (f : NpmCommandArgs -> NpmCommandArgs) : M unit :=
  fun st => (Ok tt, mkMachine (f (nca st)) (trace st)).

(** A call that returns [(T, error)]. *)
Definition call {A} (ev : Event) (answer : result A) : M A :=
  do _ <- emit ev; fun st => (answer, st).

(** A call that returns only [error]. *)
Definition callErr (ev : Event) (answer : option error) : M unit :=
  do _ <- emit ev;
  match answer with
  | None => ret tt
  | Some e => fail e
  end.

(** ** Prerequisites *)

Definition newline : string := strings.bytes [10].

Definition setNpmExecutable (w : World) : M unit :=
  do npmExecPath <- call (EvLookPath "npm") (LookPath w "npm");
  if decide (npmExecPath = "")
  then fail "could not find 'npm' executable"
  else modify (with_executablePath npmExecPath).

Definition validateNpmVersion (w : World) : M unit :=
  do a <- get;
  do npmVersion <- call EvVersion (Version_ w (executablePath a));
  if decide (Version.Compare npmVersion minSupportedNpmVersion > 0)%Z
  then fail ("JFrog CLI npm " +:+ command a +:+
             " command requires npm client version " +:+
             minSupportedNpmVersionText +:+ " or higher")
  else modify (with_npmVersion (Some npmVersion)).

Definition setJsonOutput (w : World) : M unit :=
  do a <- get;
  do jsonOutput <- call (EvConfigGet "json")
                     (ConfigGet w (npmArgs a) "json" (executablePath a));
  (* In case of --json=<not boolean>, the value of json is set to 'true',
     but the result from the command is not 'true' *)
  modify (with_jsonOutput (bool_decide (jsonOutput ≠ "false"))).

Definition setArtifactoryAuth (w : World) : M unit :=
  do authArtDetails0 <- call EvCreateArtAuthConfig (CreateArtAuthConfig w);
  match GetSshAuthHeaders authArtDetails0 with
  | Some _ => fail "SSH authentication is not supported in this command"
  | None => modify (with_authArtDetails authArtDetails0)
  end.

Definition preparePrerequisites (w : World) (repo0 : string) : M unit :=
  do _ <- setNpmExecutable w;
  do _ <- validateNpmVersion w;
  do _ <- setJsonOutput w;
  do wd <- call EvGetWorkingDirectory (GetWorkingDirectory w);
  do _ <- modify (with_workingDirectory wd);
  do _ <- setArtifactoryAuth w;
  do a <- get;
  do details <- call EvGetArtifactoryNpmRepoDetails
                  (GetArtifactoryNpmRepoDetails w repo0 (authArtDetails a));
  do _ <- modify (fun a => with_registry details.2 (with_npmAuth details.1 a));
  do a <- get;
  do info <- call EvPrepareBuildInfo
               (PrepareBuildInfo w (workingDirectory a) (buildConfiguration a)
                  (npmVersion a));
  do _ <- modify (fun a => with_packageInfo info.2 (with_collectBuildInfo info.1 a));
  do a <- get;
  let path := Join w (workingDirectory a) npmrcFileName in
  let backup := Join w (workingDirectory a) npmrcBackupFileName in
  do restore <- call (EvBackupFile path backup) (BackupFile w path backup);
  modify (with_restoreNpmrcFunc restore).

(** ** The configuration translator *)

(** To avoid writing configurations that are used by us *)
Definition isValidKey (key : string) : bool :=
  negb (strings.HasPrefix key "//") &&
  negb (strings.HasPrefix key ";") &&
  negb (strings.HasPrefix key "@") &&
  bool_decide (key ≠ "registry") &&
  bool_decide (key ≠ "metrics-registry") &&
  bool_decide (key ≠ "json").

(** Gets a config with value which is an array, and adds it to the conf list *)
Definition addArrayConfigs (conf : list string) (key arrayValue : string) : list string :=
  if decide (arrayValue = "[]") then conf
  else
    let values := strings.TrimPrefix (strings.TrimSuffix arrayValue "]") "[" in
    let valuesSlice := strings.Split values "," in
    fold_left (fun conf val => conf ++ [key +:+ "[] = " +:+ val; newline])
      valuesSlice conf.

Definition setTypeRestriction (key value : string) (a : NpmCommandArgs) : NpmCommandArgs :=
  if decide (key = "omit") then
    if strings.Contains value "dev"
    then with_typeRestrictionOf prodOnly a
    else with_typeRestrictionOf all a
  else if decide (typeRestrictionOf a = defaultRestriction) then
    if decide (key = "only") then
      if strings.Contains value "prod" then with_typeRestrictionOf prodOnly a
      else if strings.Contains value "dev" then with_typeRestrictionOf devOnly a
      else a
    else if bool_decide (key = "production") && strings.Contains value "true"
    then with_typeRestrictionOf prodOnly a
    else a
  else a.

(** The body of the scanning loop of [prepareConfigData]. *)
Definition configOption (currOption : string)
    (st : list string * NpmCommandArgs) : list string * NpmCommandArgs :=
  let '(filteredConf, a) := st in
  if decide (currOption ≠ "") then
    let splitOption := strings.SplitN2 currOption "=" in
    let key := strings.TrimSpace (nth 0 splitOption "") in
    if (length splitOption =? 2)%nat && isValidKey key then
      let value := strings.TrimSpace (nth 1 splitOption "") in
      let filteredConf' :=
        if strings.HasPrefix value "[" && strings.HasSuffix value "]"
        then addArrayConfigs filteredConf key value
        else filteredConf ++ [currOption; newline] in
      (filteredConf', setTypeRestriction key value a)
    else if strings.HasPrefix (nth 0 splitOption "") "@" then
      (* Override scoped registries (@scope = xyz) *)
      (filteredConf ++ [nth 0 splitOption ""; " = "; registry a; newline], a)
    else st
  else st.

(** This func transforms "npm config list" result to key=val list of values
    that can be set to .npmrc file. *)
Definition prepareConfigData (data : string) : M string :=
  fun st =>
    let '(tokens, scanErr) := bufio.ScanLines data in
    let '(filteredConf, a) :=
      fold_left (fun acc currOption => configOption currOption acc)
        tokens ([], nca st) in
    let st' := mkMachine a (trace st) in
    match scanErr with
    | Some e => (Err e, st')
    | None =>
        let filteredConf :=
          filteredConf
            ++ ["json = "; strconv.FormatBool (jsonOutput a); newline]
            ++ ["registry = "; registry a; newline]
            ++ [npmAuth a] in
        (Ok (strings.Join filteredConf ""), st')
    end.

Definition removeNpmrcIfExists (w : World) (workingDirectory0 : string) : M unit :=
  let path := Join w workingDirectory0 npmrcFileName in
  do _ <- emit (EvStat path);
  match Stat w path with
  | StatNotExist => ret tt
  | StatError e => fail e
  | StatFound => callErr (EvRemove path) (Remove w path)
  end.

(** In order to make sure the install/ci downloads the artifacts from
    Artifactory we create a .npmrc file in the project dir. *)
Definition createTempNpmrc (w : World) : M unit :=
  do a <- get;
  do _ <- emit EvGetConfigList;
  let data := GetConfigList w (npmArgs a) (executablePath a) in
  do configData <- prepareConfigData data;
  do a <- get;
  do _ <- removeNpmrcIfExists w (workingDirectory a);
  let path := Join w (workingDirectory a) npmrcFileName in
  callErr (EvWriteFile path configData) (WriteFile w path configData).

(** ** Running npm *)

Fixpoint filterFlags (splitArgs : list string) : list string :=
  match splitArgs with
  | [] => []
  | arg :: rest =>
      if negb (strings.HasPrefix arg "-")
      then arg :: filterFlags rest
      else filterFlags rest
  end.

Definition buildInfoSkippedWarning : string :=
  "Build info dependencies collection with npm arguments is not supported. Build info creation will be skipped.".

Definition runInstallOrCi (w : World) : M unit :=
  do a <- get;
  let filteredArgs := filterFlags (npmArgs a) in
  let npmCmdConfig := mkNpmConfig (executablePath a) (command a :: filteredArgs) [] in
  do _ <- (if collectBuildInfo a && (0 <? length filteredArgs)%nat
           then do _ <- emit (EvWarn buildInfoSkippedWarning);
                modify (with_collectBuildInfo false)
           else ret tt);
  callErr (EvRunCmd npmCmdConfig) (RunCmd w npmCmdConfig).

(** ** Listing the installed dependencies *)

(** Run npm list and parse the returned JSON.
    typeRestriction must be one of: 'dev' or 'prod'! *)
Definition prepareDependencies (w : World) (typeRestriction0 : string) : M unit :=
  do a <- get;
  let args := strings.Join (npmArgs a ++ ["--all"; "--" +:+ typeRestriction0]) " " in
  do _ <- emit (EvRunList args);
  let '(data, errData, err) := RunList w args (executablePath a) in
  do _ <- match err with
          | Some e => emit (EvWarn ("npm list command failed with error: " +:+ e))
          | None => ret tt
          end;
  do _ <- (if (0 <? String.length errData)%nat
           then emit (EvWarn ("Some errors occurred while collecting dependencies info:"
                              +:+ newline +:+ errData))
           else ret tt);
  (* Parse the dependencies json object *)
  fun st =>
    let '(deps, parseErr) :=
      jsonparser.ObjectEach data
        (fun key value deps =>
           if decide (key = "dependencies")
           then parseDependencies value typeRestriction0
                  [BuildInfoModuleId (packageInfo (nca st))] deps
           else (deps, None))
        (dependencies (nca st)) in
    let st' := mkMachine (with_dependencies deps (nca st)) (trace st) in
    match parseErr with
    | Some e => (Err e, st')
    | None => (Ok tt, st')
    end.

Definition setDependenciesList (w : World) : M unit :=
  do _ <- modify (with_dependencies ∅);
  do a <- get;
  (* nca.typeRestriction default is 'all' *)
  do _ <- (if decide (typeRestrictionOf a ≠ prodOnly)
           then prepareDependencies w "dev"
           else ret tt);
  if decide (typeRestrictionOf a ≠ devOnly)
  then prepareDependencies w "prod"
  else ret tt.

(** ** Checksum enrichment *)

Module ErrorsQueue.
(** [clientutils.ErrorsQueue]: a buffered channel of errors; an error
    that does not fit is dropped. *)
Definition AddError (size : nat) (queue : list error) (e : error) : list error :=
  if (length queue <? size)%nat then queue ++ [e] else queue.

Definition GetError (queue : list error) : option error := head queue.
End ErrorsQueue.

Definition withChecksumAndType (d : dependency) (t : string) (c : Checksum) : dependency :=
  mkDependency (name d) (version d) (scopes d) t (Some c) (pathToRoot d).

(** The task [createGetDependencyInfoFunc] builds for a key of the graph.
    If a dependency was included in the previous build, the checksums are
    taken from it; otherwise they are fetched from Artifactory: both are
    the work of [GetDependencyInfo]. *)
Definition getDependencyInfoTask (w : World) (dependencyIndex : string) : M unit :=
  do a <- get;
  match dependencies a !! dependencyIndex with
  | None => fail "invalid memory address or nil pointer dereference"
  | Some d =>
      do _ <- emit (EvGetDependencyInfo (name d) (version d));
      (* Get dependency info. *)
      let '(checksum0, fileType0, err) := GetDependencyInfo w (name d) (version d) in
      match err, checksum0 with
      | Some e, _ => fail e
      | None, None => ret tt
      | None, Some c =>
          (* Update dependency. *)
          modify (fun a =>
                    with_dependencies
                      (<[dependencyIndex := withChecksumAndType d fileType0 c]>
                         (dependencies a)) a)
      end
  end.

Module parallel.

(** [jfrog-client-go/utils/parallel]: a runner has at least one consumer,
    and stops at the first error when it is asked to fail fast. *)
Record runner : Type := mkRunner {
  maxParallel : nat;
  failFast : bool
}.

Definition NewBounedRunner (maxParallel0 : Z) (failFast0 : bool) : runner :=
  mkRunner (Z.to_nat (Z.max 1 maxParallel0)) failFast0.

(** The consumers take the tasks in the order in which they were added,
    each consumer one task at a time: the tasks in flight are the first
    [maxParallel] of those that have not completed. *)
Definition inFlight (r : runner) (pending : list string) : list string :=
  take (maxParallel r) pending.

(** [next] says which of the tasks in flight completes next. A task
    touches no node but its own, so that the tasks in flight are run one
    after the other, in the order in which they complete. The error of a
    task is handed to [onError]; it stops a runner that fails fast, and no
    other. [n] is the number of the tasks that have not completed. *)
Fixpoint runFrom (r : runner) (next : list string -> nat)
    (task : string -> machine -> result unit * machine)
    (onError : list error -> error -> list error)
    (n : nat) (pending : list string) (queue : list error) (st : machine)
  : list error * machine :=
  match n, pending with
  | S n', _ :: _ =>
      let i := (next (inFlight r pending) `mod` length (inFlight r pending))%nat in
      match pending !! i with
      | None => (queue, st)
      | Some t =>
          match task t st with
          | (Ok _, st') => runFrom r next task onError n' (delete i pending) queue st'
          | (Err e, st') =>
              if failFast r
              then (onError queue e, st')
              else runFrom r next task onError n' (delete i pending) (onError queue e) st'
          end
      end
  | _, _ => (queue, st)
  end.

(** [Run], once the producer has added [tasks] and is done. *)
Definition Run (r : runner) (next : list string -> nat)
    (task : string -> machine -> result unit * machine)
    (onError : list error -> error -> list error)
    (tasks : list string) (queue : list error) (st : machine)
  : list error * machine :=
  runFrom r next task onError (length tasks) tasks queue st.

End parallel.

Definition collectDependenciesChecksums (w : World) : M unit :=
  do _ <- callErr EvCreateServiceManager (CreateServiceManager w);
  do a <- get;
  do _ <- callErr EvGetDependenciesFromLatestBuild
            (GetDependenciesFromLatestBuild w (BuildName (buildConfiguration a)));
  let producerConsumer := parallel.NewBounedRunner (threads a) false in
  fun st =>
    (* The producer adds a task for every key the range over the graph yields. *)
    let tasks := rangeOrder w (dependencies (nca st)) in
    let '(errorsQueue, st') :=
      parallel.Run producerConsumer (nextToComplete w) (getDependencyInfoTask w)
        (ErrorsQueue.AddError 1) tasks [] st in
    match ErrorsQueue.GetError errorsQueue with
    | Some e => (Err e, st')
    | None => (Ok tt, st')
    end.

(** ** The manifest *)

(** Transforms the list of dependencies to buildinfo.Dependencies list and
    creates a list of dependencies that are missing in Artifactory. [order]
    is the order in which [range] yields the keys of the graph. *)
Fixpoint transformDependenciesIn (deps : gmap string dependency) (order : list string)
    (dependencies0 missingDependencies : list buildinfo.Dependency)
  : list buildinfo.Dependency * list buildinfo.Dependency :=
  match order with
  | [] => (dependencies0, missingDependencies)
  | i :: rest =>
      match deps !! i with
      | None => transformDependenciesIn deps rest dependencies0 missingDependencies
      | Some dependency0 =>
          let biDependency :=
            buildinfo.mkDependency
              (name dependency0 +:+ ":" +:+ version dependency0)
              (fileType dependency0) (scopes dependency0)
              (checksum dependency0) (pathToRoot dependency0) in
          match checksum dependency0 with
          | Some _ =>
              transformDependenciesIn deps rest
                (dependencies0 ++ [biDependency]) missingDependencies
          | None =>
              transformDependenciesIn deps rest
                dependencies0 (missingDependencies ++ [biDependency])
          end
      end
  end.

Definition transformDependencies (w : World) (a : NpmCommandArgs)
  : list buildinfo.Dependency * list buildinfo.Dependency :=
  transformDependenciesIn (dependencies a) (rangeOrder w (dependencies a)) [] [].

Definition with_Module (m : string) (b : BuildConfiguration) : BuildConfiguration :=
  mkBuildConfiguration (BuildName b) (BuildNumber b) m.

Definition saveDependenciesData (w : World) : M unit :=
  do _ <- modify (fun a =>
                    if decide (Module_ (buildConfiguration a) = "")
                    then with_buildConfiguration
                           (with_Module (BuildInfoModuleId (packageInfo a))
                              (buildConfiguration a)) a
                    else a);
  do a <- get;
  let '(dependencies0, missingDependencies) := transformDependencies w a in
  do _ <- callErr (EvSaveDependenciesData dependencies0)
            (SaveDependenciesData w dependencies0 (buildConfiguration a));
  emit (EvPrintMissingDependencies missingDependencies).

(** ** The driver *)

Definition callRestoreNpmrcFunc : M unit :=
  do a <- get;
  callErr EvRestoreNpmrc (restoreNpmrcFunc a).

Definition twoErrors (restoreErr err : error) : error :=
  "Two errors occurred:" +:+ newline +:+ " " +:+ restoreErr +:+ newline +:+ " " +:+ err.

(** The error it returns is the one it is given, or that one together
    with the error of the restoration. *)
Definition restoreNpmrcAndError (err : error) : machine -> error * machine :=
  fun st =>
    match callRestoreNpmrcFunc st with
    | (Err restoreErr, st') => (twoErrors restoreErr err, st')
    | (Ok _, st') => (err, st')
    end.

Definition run (w : World) : M unit :=
  do a <- get;
  do _ <- preparePrerequisites w (repo a);
  do _ <- orReturn (createTempNpmrc w) restoreNpmrcAndError;
  do _ <- orReturn (runInstallOrCi w) restoreNpmrcAndError;
  do _ <- callRestoreNpmrcFunc;
  do a <- get;
  if negb (collectBuildInfo a)
  then ret tt
  else
    do _ <- setDependenciesList w;
    do _ <- collectDependenciesChecksums w;
    saveDependenciesData w.

(** * Specification-side definitions *)

(** ** What a walk of the parser visits

    A [visit] is one call of [appendDependency]. [visitsFuel] lists the
    calls a walk makes, in order, without touching a graph. *)

Record visit : Type := mkVisit {
  vKey : string;
  vName : string;
  vVersion : string;
  vScope : string;
  vPath : list string
}.

Definition applyVisit (deps : gmap string dependency) (v : visit) : gmap string dependency :=
  appendDependency (vKey v) (vName v) (vVersion v) (vScope v) (vPath v) deps.

(** The version [Get] finds for the entry [depName] of [data], empty when
    it finds none, and the identity under which the entry is filed. *)
Definition entryVersion (data : json) (depName : string) : string :=
  match jsonparser.Get data depName "version" with
  | Ok v => bytesOf v
  | Err _ => ""
  end.

Definition entryKey (data : json) (depName : string) : string :=
  depName +:+ ":" +:+ entryVersion data depName.

Definition visitsOfEntry (recurse : json -> list string -> list visit * option error)
    (data : json) (scope : string) (path : list string)
    (depName : string) : list visit * option error :=
  match jsonparser.Get data depName "version" with
  | Err err =>
      if decide (err ≠ jsonparser.KeyPathNotFoundError)
      then ([], Some err)
      else
        match jsonparser.Get data depName "dependencies" with
        | Err err' =>
            if decide (err' ≠ jsonparser.KeyPathNotFoundError)
            then ([], Some err')
            else ([], None)
        | Ok transitive =>
            if hasBytes transitive
            then recurse transitive (entryKey data depName :: path)
            else ([], None)
        end
  | Ok v =>
      let here := [mkVisit (entryKey data depName) depName (bytesOf v) scope path] in
      match jsonparser.Get data depName "dependencies" with
      | Err err' =>
          if decide (err' ≠ jsonparser.KeyPathNotFoundError)
          then (here, Some err')
          else (here, None)
      | Ok transitive =>
          if hasBytes transitive
          then let '(vs, e) := recurse transitive (entryKey data depName :: path) in
               (here ++ vs, e)
          else (here, None)
      end
  end.

Fixpoint eachVisits (step : string -> list visit * option error)
    (entries : list (string * (json * list (string * result json))))
    (ending : option error) : list visit * option error :=
  match entries with
  | [] => ([], ending)
  | (k, _) :: rest =>
      match step k with
      | (vs, Some e) => (vs, Some e)
      | (vs, None) => let '(ws, e) := eachVisits step rest ending in (vs ++ ws, e)
      end
  end.

Fixpoint visitsFuel (fuel : nat) (data : json) (scope : string) (path : list string)
  : list visit * option error :=
  match fuel with
  | O => ([], Some "nesting too deep")
  | S fuel' =>
      eachVisits
        (visitsOfEntry (fun sub p => visitsFuel fuel' sub scope p) data scope path)
        (entriesOf data) (endingOf data)
  end.

Definition visits (data : json) (scope : string) (path : list string) : list visit :=
  (visitsFuel (S (depth data)) data scope path).1.

(** The depth of the values listed with the entries of a document. *)
Fixpoint below (under : list (string * result json)) : nat :=
  match under with
  | [] => 0
  | (_, Ok t) :: rest => depth t `max` below rest
  | (_, Err _) :: rest => below rest
  end.

Fixpoint deepest (entries : list (string * (json * list (string * result json)))) : nat :=
  match entries with
  | [] => 0
  | (_, (w, under)) :: rest => (depth w `max` below under) `max` deepest rest
  end.

(** The keys [ObjectEach] reports on [data]. *)
Definition keysOf (data : json) : list string := (entriesOf data).*1.

(** ** Where an entry sits in a document

    [level top root data path]: [data] is the document [top] itself, with
    [path = root], or the [dependencies], found by [Get] and not empty, of
    an entry of a document at some level, with the identity of that entry
    put in front of the path of that level. *)

Inductive level (top : json) (root : list string) : json -> list string -> Prop :=
| level_top :
    level top root top root
| level_sub data path depName transitive :
    level top root data path ->
    depName ∈ keysOf data ->
    jsonparser.Get data depName "dependencies" = Ok transitive ->
    hasBytes transitive = true ->
    level top root transitive (entryKey data depName :: path).

(** A node filed under [k] with the path [p] stems from an entry that has
    a version, at a level whose path is [p]. *)
Definition stemsFrom (top : json) (root : list string) (k : string) (p : list string) : Prop :=
  ∃ data depName ver,
    level top root data p ∧ depName ∈ keysOf data ∧
    jsonparser.Get data depName "version" = Ok ver ∧
    k = depName +:+ ":" +:+ bytesOf ver.

(** ** Documents the library reads without an error

    At every level [ObjectEach] reaches the closing brace, and [Get]
    returns no error but [KeyPathNotFoundError] for the version and the
    dependencies of an entry. *)

Definition found (r : result json) : bool :=
  match r with
  | Ok _ => true
  | Err e => bool_decide (e = jsonparser.KeyPathNotFoundError)
  end.

Fixpoint wellFormedFuel (fuel : nat) (data : json) : bool :=
  match fuel with
  | O => false
  | S fuel' =>
      bool_decide (endingOf data = None) &&
      forallb (fun k =>
                 found (jsonparser.Get data k "version") &&
                 match jsonparser.Get data k "dependencies" with
                 | Err e => bool_decide (e = jsonparser.KeyPathNotFoundError)
                 | Ok t => if hasBytes t then wellFormedFuel fuel' t else true
                 end) (keysOf data)
  end.

Definition wellFormed (data : json) : bool := wellFormedFuel (S (depth data)) data.

Definition scopesAt (g : gmap string dependency) (k : string) : list string :=
  from_option scopes [] (g !! k).

Definition pathsAt (g : gmap string dependency) (k : string) : list (list string) :=
  from_option pathToRoot [] (g !! k).

Definition occurrences (s : string) (l : list string) : nat :=
  length (filter (fun x => x = s) l).

(** ** Well-formed documents, for the examples

    A well-formed document is written as the tree it denotes, and [read]
    gives the answers of the library on its compact text. [TString] holds
    the text between the quotes, which holds no quote that is not
    escaped; [TScalar] holds the text of a number, a boolean, [null] or an
    array; the fields of a [TObject] are in document order. *)

Inductive tree : Type :=
| TString (s : string)
| TScalar (raw : string)
| TObject (fields : list (string * tree)).

Definition quote : string := strings.bytes [34].

Fixpoint textOf (t : tree) : string :=
  match t with
  | TString s => quote +:+ s +:+ quote
  | TScalar raw => raw
  | TObject fields =>
      "{" +:+
      strings.Join (map (fun kv : string * tree =>
                           quote +:+ kv.1 +:+ quote +:+ ":" +:+ textOf kv.2) fields) ","
      +:+ "}"
  end.

(** What the scanner of [ObjectEach] skips before a token. *)
Fixpoint nextToken (s : string) : string :=
  match s with
  | String c rest =>
      if bool_decide (c = " "%char ∨ c = ascii_of_nat 10 ∨ c = ascii_of_nat 13
                      ∨ c = ascii_of_nat 9)
      then nextToken rest
      else s
  | EmptyString => s
  end.

(** What [ObjectEach] returns on a text without a quote: it wants an
    opening brace, and after it a closing brace or a key. *)
Definition eachOfText (s : string) : option error :=
  match nextToken s with
  | String "{" rest =>
      match nextToken rest with
      | EmptyString => Some jsonparser.MalformedJsonError
      | String "}" _ => None
      | _ => Some jsonparser.MalformedObjectError
      end
  | _ => Some jsonparser.MalformedObjectError
  end.

(** [Get] strips the quotes of a string. The key-path search of [Get]
    stops at the first field named [k1] that is an object with a field
    named [k2]: the answers for [k1] are the fields of the objects named
    [k1], in document order. *)
Fixpoint read (t : tree) : json :=
  match t with
  | TString s => Json s [] (eachOfText s)
  | TScalar raw => Json raw [] (eachOfText raw)
  | TObject fields =>
      Json (textOf t)
        (map (fun kv : string * tree =>
                (kv.1,
                 (read kv.2,
                  flat_map (fun kv' : string * tree =>
                              if decide (kv'.1 = kv.1)
                              then match kv'.2 with
                                   | TObject under =>
                                       map (fun kv2 : string * tree =>
                                              (kv2.1, Ok (read kv2.2))) under
                                   | _ => []
                                   end
                              else []) fields)))
           fields)
        None
  end.

(** The scenario of the specification: the document with the one entry
    [a], of version 1.0.0, whose dependencies are the one entry [b], of
    version 2.0.0. *)
Definition scenarioDocument : tree :=
  TObject [("a", TObject [("version", TString "1.0.0");
                          ("dependencies",
                           TObject [("b", TObject [("version", TString "2.0.0")])])])].

Definition scenarioTree : json := read scenarioDocument.

(** The node filed under the key after the call. *)
Definition appended (depName depVersion scope : string) (p : list string)
    (before : option dependency) : dependency :=
  match before with
  | None => mkDependency depName depVersion [scope] "" None [p]
  | Some d =>
      mkDependency (name d) (version d)
        (if scopeAlreadyExists scope (scopes d) then scopes d else scopes d ++ [scope])
        (fileType d) (checksum d) (pathToRoot d ++ [p])
  end.

Definition visitStems (top : json) (root : list string) (scope : string) (v : visit) : Prop :=
  stemsFrom top root (vKey v) (vPath v) ∧ vScope v = scope ∧
  vKey v = vName v +:+ ":" +:+ vVersion v.

Definition sharedListing : json :=
  read (TObject [("x", TObject [("version", TString "1.0.0")])]).

(** A listing in which [peer] and [inner] have no version: [a] comes
    after [peer], and [c] is below [inner]. *)
Definition belowInner : tree :=
  TObject [("c", TObject [("version", TString "3.0.0")])].

Definition belowA : tree :=
  TObject [("inner", TObject [("dependencies", belowInner)])].

Definition peerListing : json :=
  read (TObject
    [("peer", TObject []);
     ("a", TObject [("version", TString "1.0.0"); ("dependencies", belowA)])]).

(** A listing in which the entry [a] is nested in an entry of its own
    name and version. *)
Definition selfNestedListing : json :=
  read (TObject
    [("a", TObject [("version", TString "1.0.0");
                    ("dependencies",
                     TObject [("a", TObject [("version", TString "1.0.0")])])])]).


(** ** The priority of the type restriction, in the words of the specification *)

(** The command object [NewNpmCommandArgs] builds: every field but the
    command has its zero value. *)
Definition NewNpmCommandArgs (npmCommand : string) : NpmCommandArgs :=
  mkNpmCommandArgs npmCommand 0 false "" None "" "" "" false ∅ defaultRestriction
    (mkAuthDetails None) (mkPackageInfo "") None [] ""
    (mkBuildConfiguration "" "" "").

(** The key and the value of a line that has the form [key = value]. *)
Definition directiveOf (line : string) : option (string * string) :=
  match strings.cut "=" line with
  | Some (before, after) => Some (strings.TrimSpace before, strings.TrimSpace after)
  | None => None
  end.

(** The directives of a dump, in the order of its lines. *)
Definition directives (data : string) : list (string * string) :=
  omap directiveOf (bufio.ScanLines data).1.

Definition omitChoice (value : string) : typeRestriction :=
  if strings.Contains value "dev" then prodOnly else all.

Definition deprecatedChoice (key value : string) : option typeRestriction :=
  if decide (key = "only") then
    if strings.Contains value "prod" then Some prodOnly
    else if strings.Contains value "dev" then Some devOnly
    else None
  else if decide (key = "production") then
    if strings.Contains value "true" then Some prodOnly else None
  else None.

(** The value of the last [omit] directive. *)
Fixpoint lastOmit (ds : list (string * string)) : option string :=
  match ds with
  | [] => None
  | (k, v) :: rest =>
      match lastOmit rest with
      | Some v' => Some v'
      | None => if decide (k = "omit") then Some v else None
      end
  end.

(** The restriction of the first [only] or [production] directive that
    gives one. *)
Fixpoint firstDeprecated (ds : list (string * string)) : option typeRestriction :=
  match ds with
  | [] => None
  | (k, v) :: rest =>
      match deprecatedChoice k v with
      | Some r => Some r
      | None => firstDeprecated rest
      end
  end.

Definition priorityRestriction (ds : list (string * string)) : typeRestriction :=
  match lastOmit ds with
  | Some v => omitChoice v
  | None => default defaultRestriction (firstDeprecated ds)
  end.

(** What one directive makes of the restriction [r]. *)
Definition stepRestriction (r : typeRestriction) (d : string * string) : typeRestriction :=
  if decide (d.1 = "omit") then omitChoice d.2
  else if decide (r = defaultRestriction)
       then default r (deprecatedChoice d.1 d.2)
       else r.

Definition omitAndOnlyDump : string :=
  "omit = dev" +:+ newline +:+ "only = prod" +:+ newline.

Definition productionDump : string :=
  "; cli configs" +:+ newline +:+ "production = true" +:+ newline.

(** ** The manifest and the enrichment, in the words of the specification *)

(** The keys of a graph; [range] yields each of them once, in an order
    that is not specified. *)
Definition keys (g : gmap string dependency) : list string := (map_to_list g).*1.

(** A graph files every node under its identity, name:version. *)
Definition keyed (g : gmap string dependency) : Prop :=
  map_Forall (fun k d => k = name d +:+ ":" +:+ version d) g.

Definition recordOf (d : dependency) : buildinfo.Dependency :=
  buildinfo.mkDependency (name d +:+ ":" +:+ version d) (fileType d) (scopes d)
    (checksum d) (pathToRoot d).

Definition ids (l : list buildinfo.Dependency) : list string := buildinfo.Id <$> l.

(** What a task makes of its node. *)
Definition enrichNode (w : World) (d : dependency) : dependency :=
  match GetDependencyInfo w (name d) (version d) with
  | (Some c, t, None) => withChecksumAndType d t c
  | _ => d
  end.

Definition enrichAt (w : World) (g : gmap string dependency) (k : string)
  : gmap string dependency :=
  match g !! k with
  | Some d => <[k := enrichNode w d]> g
  | None => g
  end.

(** The error of the task of a key, if it has one. *)
Definition taskError (w : World) (g : gmap string dependency) (k : string) : option error :=
  match g !! k with
  | Some d => (GetDependencyInfo w (name d) (version d)).2
  | None => Some "invalid memory address or nil pointer dereference"
  end.

Definition taskEvents (g : gmap string dependency) (k : string) : list Event :=
  match g !! k with
  | Some d => [EvGetDependencyInfo (name d) (version d)]
  | None => []
  end.

(** The tasks of [order], run one after the other; the queue keeps the
    first error. *)
Fixpoint runTasks (w : World) (order : list string) (queue : list error)
    (st : machine) : list error * machine :=
  match order with
  | [] => (queue, st)
  | i :: rest =>
      match getDependencyInfoTask w i st with
      | (Ok _, st') => runTasks w rest queue st'
      | (Err e, st') => runTasks w rest (ErrorsQueue.AddError 1 queue e) st'
      end
  end.

(** The order in which the tasks complete in a runner that nothing stops. *)
Fixpoint completionFrom (r : parallel.runner) (next : list string -> nat)
    (n : nat) (pending : list string) : list string :=
  match n, pending with
  | S n', _ :: _ =>
      let i := (next (parallel.inFlight r pending)
                `mod` length (parallel.inFlight r pending))%nat in
      match pending !! i with
      | None => []
      | Some t => t :: completionFrom r next n' (delete i pending)
      end
  | _, _ => []
  end.

(** The order in which the tasks of the enrichment of a command complete. *)
Definition completionOrder (w : World) (a : NpmCommandArgs) : list string :=
  completionFrom (parallel.NewBounedRunner (threads a) false) (nextToComplete w)
    (length (rangeOrder w (dependencies a))) (rangeOrder w (dependencies a)).

(** ** A world for the examples

    npm is found, the project is in /project, the registry is that of
    Artifactory, no .npmrc exists and every file operation succeeds; the
    rest is given. *)
Definition exampleWorld (npmVersion0 : Version.t) (jsonValue : string)
    (collect : bool) (runCmd restore : option error)
    (lookup : string -> string -> option Checksum * string * option error)
    (listing : json) : World :=
  mkWorld
    (fun _ => Ok "/usr/bin/npm")
    (fun _ => Ok npmVersion0)
    (fun _ _ _ => Ok jsonValue)
    (fun _ _ => "omit = " +:+ newline +:+ "loglevel = notice" +:+ newline)
    (Ok "/project")
    (Ok (mkAuthDetails None))
    (fun _ _ => Ok ("_auth = secret", "https://artifactory/api/npm/npm-virtual/"))
    (fun _ _ _ => Ok (collect, mkPackageInfo "app:1.0.0"))
    (fun _ _ => Ok restore)
    (fun dir file => dir +:+ "/" +:+ file)
    (fun _ => StatNotExist)
    (fun _ => None)
    (fun _ _ => None)
    (fun _ => runCmd)
    (fun _ _ => (listing, "", None))
    None
    (fun _ => None)
    lookup
    (fun _ _ => None)
    (fun _ => 0%nat)
    keys.

Definition notFound : string -> string -> option Checksum * string * option error :=
  fun _ _ => (None, "", None).

(** The enriched graph of the scenario of the specification: no checksum
    was found for c:3.0.0, one was found for d:4.0.0. *)
Definition enrichedScenario : gmap string dependency :=
  {[ "c:3.0.0" := mkDependency "c" "3.0.0" ["prod"] "" None [["app:1.0.0"]];
     "d:4.0.0" := mkDependency "d" "4.0.0" ["prod"] "tgz"
                    (Some (mkChecksum "3da5" "9e10")) [["app:1.0.0"]] ]}.

(** A world in which npm 6.14.8 installs without an error and no
    checksum is found. *)
Definition quietWorld : World :=
  exampleWorld [6; 14; 8]%N "false" true None None notFound (read (TObject [])).

Definition enrichedArgs : NpmCommandArgs :=
  with_dependencies enrichedScenario (NewNpmCommandArgs "install").

(** The errors the tasks record and the lookups they make, in the order
    in which the tasks complete. *)
Definition errorsOf (w : World) (g : gmap string dependency) (order : list string)
  : list error :=
  omap (taskError w g) order.

Definition eventsOf (g : gmap string dependency) (order : list string) : list Event :=
  order ≫= taskEvents g.

(** A graph before enrichment and a lookup that finds nothing for [c],
    fails for [d] and finds a checksum for [e]. *)
Definition parsedGraph : gmap string dependency :=
  {[ "c:3.0.0" := mkDependency "c" "3.0.0" ["prod"] "" None [["app:1.0.0"]];
     "d:4.0.0" := mkDependency "d" "4.0.0" ["prod"] "" None [["app:1.0.0"]];
     "e:5.0.0" := mkDependency "e" "5.0.0" ["dev"] "" None [["app:1.0.0"]] ]}.

Definition flakyLookup (depName depVersion : string)
  : option Checksum * string * option error :=
  if decide (depName = "c") then (None, "", None)
  else if decide (depName = "d") then (None, "", Some "503 Service Unavailable")
  else (Some (mkChecksum "3da5" "9e10"), "tgz", None).

Definition withNextToComplete (next : list string -> nat) (w : World) : World :=
  mkWorld (LookPath w) (Version_ w) (ConfigGet w) (GetConfigList w)
    (GetWorkingDirectory w) (CreateArtAuthConfig w) (GetArtifactoryNpmRepoDetails w)
    (PrepareBuildInfo w) (BackupFile w) (Join w) (Stat w) (Remove w) (WriteFile w)
    (RunCmd w) (RunList w) (CreateServiceManager w) (GetDependenciesFromLatestBuild w)
    (GetDependencyInfo w) (SaveDependenciesData w) next (rangeOrder w).

(** The task added last completes first: with three consumers, that of [d]. *)
Definition flakyWorld : World :=
  withNextToComplete (fun tasks => (length tasks - 1)%nat)
    (exampleWorld [6; 14; 8]%N "false" true None None flakyLookup (read (TObject []))).

Definition SetThreads (threads0 : Z) (a : NpmCommandArgs) : NpmCommandArgs :=
  mkNpmCommandArgs (command a) threads0 (jsonOutput a) (executablePath a) (restoreNpmrcFunc a) (workingDirectory a) (registry a) (npmAuth a) (collectBuildInfo a) (dependencies a) (typeRestrictionOf a) (authArtDetails a) (packageInfo a) (npmVersion a) (npmArgs a) (repo a) (buildConfiguration a).

Definition parsedMachine : machine :=
  mkMachine (with_dependencies parsedGraph (SetThreads 3 (NewNpmCommandArgs "install"))) [].

Definition isLookup (ev : Event) : bool :=
  match ev with
  | EvGetDependencyInfo _ _ => true
  | _ => false
  end.

(** ** The minimum npm version, in the words of the specification *)

Definition major (v : Version.t) : N := nth 0 v 0%N.
Definition minor (v : Version.t) : N := nth 1 v 0%N.

(** Lower than 5.4.0: the patch component cannot make a version lower
    than one whose patch component is 0. *)
Definition lowerThanMinimum (v : Version.t) : Prop :=
  (major v < 5)%N ∨ (major v = 5%N ∧ (minor v < 4)%N).

Definition unsupportedVersionError (npmCommand : string) : error :=
  "JFrog CLI npm " +:+ npmCommand +:+
  " command requires npm client version 5.4.0 or higher".

(** The machine once npm was found at [npmExecPath]. *)
Definition afterSetNpmExecutable (npmExecPath : string) (st : machine) : machine :=
  mkMachine (with_executablePath npmExecPath (nca st)) (trace st ++ [EvLookPath "npm"]).

Definition freshMachine (npmCommand : string) : machine :=
  mkMachine (NewNpmCommandArgs npmCommand) [].

(** ** Worlds and machines of the examples of the driver *)

(** npm reports [maybe] for its [json] setting; no build info is asked for. *)
Definition maybeWorld : World :=
  exampleWorld [6; 14; 8]%N "maybe" false None None notFound (read (TObject [])).

(** The installation fails, and so does the restoration of .npmrc. *)
Definition doubleFailureWorld : World :=
  exampleWorld [6; 14; 8]%N "false" true
    (Some "exit status 1") (Some "rename .npmrc: permission denied")
    notFound (read (TObject [])).

(** [jfrog rt npm-install lodash --save-dev] with build info asked for. *)
Definition argsMachine : machine :=
  mkMachine
    (mkNpmCommandArgs "install" 3 false "" None "" "" "" false ∅ defaultRestriction
       (mkAuthDetails None) (mkPackageInfo "") None ["lodash"; "--save-dev"]
       "npm-virtual" (mkBuildConfiguration "build" "1" ""))
    [].

Definition argsPrepared : machine :=
  (preparePrerequisites quietWorld "npm-virtual" argsMachine).2.

Definition argsConfigured : machine :=
  (createTempNpmrc quietWorld argsPrepared).2.

Definition runCmdConfig (a : NpmCommandArgs) : NpmConfig :=
  mkNpmConfig (executablePath a) (command a :: filterFlags (npmArgs a)) [].

(** * The rest of the command

    ** What a computation adds to the events *)

(** [emits P m]: whatever the machine it starts from, [m] only adds events
    to those recorded so far, and every event it adds satisfies [P]. *)
Definition emits {A : Type} (P : Event -> Prop) (m : M A) : Prop :=
  ∀ st, ∃ evs, trace (m st).2 = trace st ++ evs ∧ Forall P evs.


(** The events that touch the project directory: the backup and the
    restoration of .npmrc, its removal, its writing and the run of npm. *)
Definition touchesProject (ev : Event) : bool :=
  match ev with
  | EvBackupFile _ _ | EvRestoreNpmrc | EvRemove _ | EvWriteFile _ _ | EvRunCmd _ => true
  | _ => false
  end.


(** [backupLast m]: the events [m] adds do not touch the project
    directory, but for the backup of .npmrc, which can only be the last
    of them; it is there whenever [m] succeeds. *)
Definition backupLast {A : Type} (m : M A) : Prop :=
  ∀ st, ∃ evs, trace (m st).2 = trace st ++ evs ∧
    ((∃ e, (m st).1 = Err e) ∧ Forall (fun ev => touchesProject ev = false) evs
     ∨ ∃ evs' path backup,
         evs = evs' ++ [EvBackupFile path backup] ∧
         Forall (fun ev => touchesProject ev = false) evs').

(** ** The graph under a walk *)

(** [grows d d']: the node [d'] is the node [d] with scopes and paths
    added at the end, and nothing else changed. *)
Definition grows (d d' : dependency) : Prop :=
  name d' = name d ∧ version d' = version d ∧
  fileType d' = fileType d ∧ checksum d' = checksum d ∧
  scopes d `prefix_of` scopes d' ∧ pathToRoot d `prefix_of` pathToRoot d'.

(** A graph with a checksum for d:4.0.0, and a listing in which d:4.0.0 is
    reached twice more. *)
Definition revisitListing : json :=
  read (TObject
    [("d", TObject [("version", TString "4.0.0")]);
     ("x", TObject [("version", TString "1.0.0");
                    ("dependencies",
                     TObject [("d", TObject [("version", TString "4.0.0")])])])]).

(** A listing whose entry [a] has a text where its dependencies should be. *)
Definition brokenListing : json :=
  read (TObject
    [("a", TObject [("version", TString "1.0.0"); ("dependencies", TString "none")]);
     ("b", TObject [("version", TString "2.0.0")])]).

(** A listing whose entry [a] has the text of an empty object, in quotes,
    where its dependencies should be: [Get] strips the quotes. *)
Definition quotedListing : json :=
  read (TObject
    [("a", TObject [("version", TString "1.0.0"); ("dependencies", TString "{}")]);
     ("b", TObject [("version", TString "2.0.0")])]).

(** A listing whose dependencies hold the entry [a] and then the key [b]
    without a value: the library reports the entry [a] and gives up at
    [b]. *)
Definition firstEntry : tree := TObject [("version", TString "1.0.0")].

Definition malformedDependencies : json :=
  Json ("{" +:+ quote +:+ "a" +:+ quote +:+ ":" +:+ textOf firstEntry +:+ ","
        +:+ quote +:+ "b" +:+ quote +:+ "}")
    [("a", (read firstEntry, [("version", Ok (read (TString "1.0.0")))]))]
    (Some jsonparser.MalformedJsonError).

Definition malformedListing : json :=
  Json ("{" +:+ quote +:+ "dependencies" +:+ quote +:+ ":"
        +:+ bytesOf malformedDependencies +:+ "}")
    [("dependencies", (malformedDependencies, [("a", Ok (read firstEntry))]))]
    None.

(** The errors the library returns to a walk, in the order in which the
    walk asks: for every entry, the error of the look-up of its version,
    that of the look-up of its dependencies or those of the walk of its
    dependencies; after the last entry, the error [ObjectEach] ends with.
    [KeyPathNotFoundError] is the answer of a look-up that finds nothing. *)
Definition failure (r : result json) : list error :=
  match r with
  | Err e => if decide (e ≠ jsonparser.KeyPathNotFoundError) then [e] else []
  | Ok _ => []
  end.

Fixpoint errorsFuel (fuel : nat) (data : json) : list error :=
  match fuel with
  | O => []
  | S fuel' =>
      (keysOf data ≫= fun k =>
         failure (jsonparser.Get data k "version") ++
         failure (jsonparser.Get data k "dependencies") ++
         match jsonparser.Get data k "dependencies" with
         | Ok t => if hasBytes t then errorsFuel fuel' t else []
         | Err _ => []
         end)
      ++ from_option (fun e => [e]) [] (endingOf data)
  end.

Definition errorsIn (data : json) : list error := errorsFuel (S (depth data)) data.

(** npm ls fails and prints no JSON. *)
Definition silentListWorld : World :=
  mkWorld (LookPath quietWorld) (Version_ quietWorld) (ConfigGet quietWorld)
    (GetConfigList quietWorld) (GetWorkingDirectory quietWorld)
    (CreateArtAuthConfig quietWorld) (GetArtifactoryNpmRepoDetails quietWorld)
    (PrepareBuildInfo quietWorld) (BackupFile quietWorld) (Join quietWorld)
    (Stat quietWorld) (Remove quietWorld) (WriteFile quietWorld) (RunCmd quietWorld)
    (fun _ _ => (read (TScalar ""), "npm ERR! missing: lodash", Some "exit status 1"))
    (CreateServiceManager quietWorld) (GetDependenciesFromLatestBuild quietWorld)
    (GetDependencyInfo quietWorld) (SaveDependenciesData quietWorld) (fun _ => 0%nat) keys.

(** The arguments of npm ls for a scope. *)
Definition listArgs (a : NpmCommandArgs) (scope : string) : string :=
  strings.Join (npmArgs a ++ ["--all"; "--" +:+ scope]) " ".

(** The warnings [prepareDependencies] logs for an answer of npm ls. *)
Definition listWarnings (errData : string) (err : option error) : list Event :=
  match err with
  | Some e => [EvWarn ("npm list command failed with error: " +:+ e)]
  | None => []
  end ++
  (if (0 <? String.length errData)%nat
   then [EvWarn ("Some errors occurred while collecting dependencies info:"
                 +:+ newline +:+ errData)]
   else []).

(** The callback [prepareDependencies] hands to [ObjectEach]. *)
Definition listingCallback (scope moduleId : string) (key : string) (value : json)
    (deps : gmap string dependency) : gmap string dependency * option error :=
  if decide (key = "dependencies")
  then parseDependencies value scope [moduleId] deps
  else (deps, None).

(** What is known of every visit of a walk for [scope]. *)
Definition visitOf (scope : string) (v : visit) : Prop :=
  vScope v = scope ∧ vKey v = vName v +:+ ":" +:+ vVersion v.

(** The scopes [setDependenciesList] lists under a restriction. *)
Definition listed (r : typeRestriction) (scope : string) : Prop :=
  (scope = "dev" ∧ r ≠ prodOnly) ∨ (scope = "prod" ∧ r ≠ devOnly).

(** npm ls answers with a listing in which [a] depends on [b]. *)
Definition listingWorld : World :=
  mkWorld (LookPath quietWorld) (Version_ quietWorld) (ConfigGet quietWorld)
    (GetConfigList quietWorld) (GetWorkingDirectory quietWorld)
    (CreateArtAuthConfig quietWorld) (GetArtifactoryNpmRepoDetails quietWorld)
    (PrepareBuildInfo quietWorld) (BackupFile quietWorld) (Join quietWorld)
    (Stat quietWorld) (Remove quietWorld) (WriteFile quietWorld) (RunCmd quietWorld)
    (fun _ _ => (read (TObject [("name", TString "app"); ("dependencies", scenarioDocument)]),
                 "", None))
    (CreateServiceManager quietWorld) (GetDependenciesFromLatestBuild quietWorld)
    (GetDependencyInfo quietWorld) (SaveDependenciesData quietWorld) (fun _ => 0%nat) keys.

Definition prodOnlyMachine : machine :=
  mkMachine
    (with_packageInfo (mkPackageInfo "app:1.0.0")
       (with_typeRestrictionOf prodOnly (NewNpmCommandArgs "install")))
    [].

(** ** The text of .npmrc *)

(** The directives [prepareConfigData] puts at the end of the file. *)
Definition injectedDirectives (a : NpmCommandArgs) : string :=
  "json = " +:+ strconv.FormatBool (jsonOutput a) +:+ newline +:+
  "registry = " +:+ registry a +:+ newline +:+ npmAuth a.

(** The strings of a list, one after the other. *)
Definition flatten (l : list string) : string := foldr String.append "" l.

(** The result of a call that returns only [error]. *)
Definition ofError (answer : option error) : result unit :=
  match answer with
  | Some e => Err e
  | None => Ok tt
  end.

(** The dump [createTempNpmrc] translates, and the path it writes to. *)
Definition configDump (w : World) (a : NpmCommandArgs) : string :=
  GetConfigList w (npmArgs a) (executablePath a).

Definition npmrcPath (w : World) (a : NpmCommandArgs) : string :=
  Join w (workingDirectory a) npmrcFileName.

(** A .npmrc exists and cannot be removed. *)
Definition lockedNpmrcWorld : World :=
  mkWorld (LookPath quietWorld) (Version_ quietWorld) (ConfigGet quietWorld)
    (GetConfigList quietWorld) (GetWorkingDirectory quietWorld)
    (CreateArtAuthConfig quietWorld) (GetArtifactoryNpmRepoDetails quietWorld)
    (PrepareBuildInfo quietWorld) (BackupFile quietWorld) (Join quietWorld)
    (fun _ => StatFound) (fun _ => Some "remove .npmrc: permission denied")
    (WriteFile quietWorld) (RunCmd quietWorld)
    (RunList quietWorld) (CreateServiceManager quietWorld)
    (GetDependenciesFromLatestBuild quietWorld) (GetDependencyInfo quietWorld)
    (SaveDependenciesData quietWorld) (fun _ => 0%nat) keys.

(** ** The arguments of npm *)

Definition isFlag (arg : string) : bool := strings.HasPrefix arg "-".

(** [jfrog rt npm-install --production] with build info asked for. *)
Definition flagsMachine : machine :=
  mkMachine
    (mkNpmCommandArgs "install" 3 false "" None "" "" "" false ∅ defaultRestriction
       (mkAuthDetails None) (mkPackageInfo "") None ["--production"]
       "npm-virtual" (mkBuildConfiguration "build" "1" ""))
    [].

Definition flagsPrepared : machine :=
  (preparePrerequisites listingWorld "npm-virtual" flagsMachine).2.

Definition flagsConfigured : machine :=
  (createTempNpmrc listingWorld flagsPrepared).2.

(** * The download of the build-info extractors

    A shallow embedding of [artifactory/utils/dependenciesutils.go]. *)

Module strings_more.

(** [strings.LastIndex s sep] for a one-byte separator: the index of its
    last occurrence, or -1. *)
Fixpoint lastIndexFrom (i : nat) (s : string) (sep : ascii) (found : Z) : Z :=
  match s with
  | EmptyString => found
  | String c s' =>
      lastIndexFrom (S i) s' sep (if decide (c = sep) then Z.of_nat i else found)
  end.

Definition LastIndex (s : string) (sep : ascii) : Z := lastIndexFrom 0 s sep (-1).

(** [s[:i]] and [s[i:]] *)
Definition upto (i : nat) (s : string) : string := String.substring 0 i s.
Definition from (i : nat) (s : string) : string :=
  String.substring i (String.length s - i) s.

End strings_more.

Definition JCenterRemoteServerEnv : string := "JFROG_CLI_JCENTER_REMOTE_SERVER".
Definition JCenterRemoteRepoEnv : string := "JFROG_CLI_JCENTER_REMOTE_REPO".
Definition ExtractorsRemoteEnv : string := "JFROG_CLI_EXTRACTORS_REMOTE".

(** What the download uses of [config.ServerDetails]. *)
Record ServerDetails : Type := mkServerDetails {
  ArtifactoryUrl : string;
  InsecureTls : bool
}.

Record DownloadFileDetails : Type := mkDownloadFileDetails {
  FileName : string;
  DownloadPath : string;
  LocalPath : string;
  LocalFileName : string
}.

Record Response : Type := mkResponse {
  StatusCode : Z;
  Status : string
}.

(** The environment, the configuration, the file system and the HTTP
    client the download relies on: the answer each call gets. *)
Record Host : Type := mkHost {
  Getenv : string -> string;
  GetSpecificConfig : string -> result ServerDetails;
  pathJoin : string -> string -> string;
  IsFileExists : string -> result bool;
  GetFileAndDirFromPath : string -> string * string;
  CreateArtAuthConfigOf : ServerDetails -> option error;
  GetJfrogCertsDir : result string;
  BuildClient : ServerDetails -> string -> option error;
  DownloadFile : DownloadFileDetails -> result Response
}.

(** The calls made, in order. *)
Inductive Call : Type :=
| CallIsFileExists (path : string)
| CallWarnDeprecated
| CallGetSpecificConfig (serverId : string)
| CallCreateArtAuthConfig
| CallGetJfrogCertsDir
| CallBuildClient
| CallDownloadFile (details : DownloadFileDetails).

Definition StatusOK : Z := 200.

(** Deprecated. Return the version of the build-info extractor to download. *)
Definition GetExtractorVersion (h : Host) (ojoVersion jCenterVersion : string) : string :=
  if decide (Getenv h JCenterRemoteServerEnv ≠ "") then jCenterVersion else ojoVersion.

(** Deprecated. Get Artifactory server details and a repository proxying
    JCenter/oss.jfrog.org. *)
Definition getJcenterRemoteDetails (h : Host) (serverId downloadPath : string)
  : result (ServerDetails * string) * list Call :=
  let repoName := Getenv h JCenterRemoteRepoEnv in
  let repoName := if decide (repoName = "") then "jcenter" else repoName in
  (match GetSpecificConfig h serverId with
   | Ok serverDetails => Ok (serverDetails, pathJoin h repoName downloadPath)
   | Err e => Err e
   end,
   [CallWarnDeprecated; CallGetSpecificConfig serverId]).

Definition badExtractorsRemote (extractorsRemote : string) : error :=
  "'" +:+ ExtractorsRemoteEnv +:+ "' environment variable is '" +:+ extractorsRemote
  +:+ "' but should be '<server ID>/<repo name>'.".

(** Get Artifactory server details and a repository proxying oss.jfrog.org
    according to JFROG_CLI_EXTRACTORS_REMOTE env var. *)
Definition getExtractorsRemoteDetails (h : Host) (extractorsRemote downloadPath : string)
  : result (ServerDetails * string) * list Call :=
  let lastSlashIndex := strings_more.LastIndex extractorsRemote "/" in
  if decide (lastSlashIndex = (-1)%Z) then
    (Err (badExtractorsRemote extractorsRemote), [])
  else
    let serverId := strings_more.upto (Z.to_nat lastSlashIndex) extractorsRemote in
    let repoName := strings_more.from (Z.to_nat lastSlashIndex + 1) extractorsRemote in
    (match GetSpecificConfig h serverId with
     | Ok serverDetails => Ok (serverDetails, pathJoin h repoName downloadPath)
     | Err e => Err e
     end,
     [CallGetSpecificConfig serverId]).

Definition GetExtractorsRemoteDetails (h : Host) (downloadPath : string)
  : result (ServerDetails * string) * list Call :=
  (* Download through a remote repository in Artifactory, if configured to do so. *)
  let jCenterRemoteServer := Getenv h JCenterRemoteServerEnv in
  if decide (jCenterRemoteServer ≠ "") then
    getJcenterRemoteDetails h jCenterRemoteServer downloadPath
  else
    let extractorsRemote := Getenv h ExtractorsRemoteEnv in
    if decide (extractorsRemote ≠ "") then
      getExtractorsRemoteDetails h extractorsRemote downloadPath
    else
      (* If not configured to download through a remote repository in
         Artifactory, download from ojo. *)
      (Ok (mkServerDetails "https://oss.jfrog.org/artifactory/" false,
           pathJoin h "oss-release-local" downloadPath),
       []).

Definition downloadExtractor (h : Host) (artDetails : ServerDetails)
    (downloadPath targetPath : string) : option error * list Call :=
  let downloadUrl := ArtifactoryUrl artDetails +:+ downloadPath in
  let '(filename, localDir) := GetFileAndDirFromPath h targetPath in
  let downloadFileDetails := mkDownloadFileDetails filename downloadUrl localDir filename in
  match CreateArtAuthConfigOf h artDetails with
  | Some e => (Some e, [CallCreateArtAuthConfig])
  | None =>
      match GetJfrogCertsDir h with
      | Err e => (Some e, [CallCreateArtAuthConfig; CallGetJfrogCertsDir])
      | Ok certsPath =>
          match BuildClient h artDetails certsPath with
          | Some e =>
              (Some e, [CallCreateArtAuthConfig; CallGetJfrogCertsDir; CallBuildClient])
          | None =>
              (match DownloadFile h downloadFileDetails with
               | Err e => Some e
               | Ok resp =>
                   if decide (StatusCode resp ≠ StatusOK)
                   then Some (Status resp +:+ " received when attempting to download "
                              +:+ downloadUrl)
                   else None
               end,
               [CallCreateArtAuthConfig; CallGetJfrogCertsDir; CallBuildClient;
                CallDownloadFile downloadFileDetails])
          end
      end
  end.

(** Download the relevant build-info-extractor jar, if it does not already
    exist locally. *)
Definition DownloadExtractorIfNeeded (h : Host) (downloadPath targetPath : string)
  : option error * list Call :=
  (* If the file exists locally, we're done. *)
  match IsFileExists h targetPath with
  | Err e => (Some e, [CallIsFileExists targetPath])
  | Ok true => (None, [CallIsFileExists targetPath])
  | Ok false =>
      match GetExtractorsRemoteDetails h downloadPath with
      | (Err e, calls) => (Some e, CallIsFileExists targetPath :: calls)
      | (Ok (artDetails, remotePath), calls) =>
          let '(err, calls') := downloadExtractor h artDetails remotePath targetPath in
          (err, CallIsFileExists targetPath :: calls ++ calls')
      end
  end.

(** A host on which nothing is cached and every call succeeds; the
    environment is given. *)
Definition exampleHost (env : string -> string) (status : Z) : Host :=
  mkHost env
    (fun serverId => Ok (mkServerDetails ("https://" +:+ serverId +:+ "/artifactory/") false))
    (fun a b => a +:+ "/" +:+ b)
    (fun _ => Ok false)
    (fun _ => ("extractor.jar", "/home/.jfrog/dependencies"))
    (fun _ => None)
    (Ok "/home/.jfrog/security/certs")
    (fun _ _ => None)
    (fun _ => Ok (mkResponse status "status")).

Definition extractorsRemoteOnly (value : string) : string -> string :=
  fun var => if decide (var = ExtractorsRemoteEnv) then value else "".

Definition isDownload (c : Call) : bool :=
  match c with
  | CallDownloadFile _ => true
  | _ => false
  end.
(** * Properties *)

(** ** One call of [appendDependency] *)

Lemma scopeAlreadyExists_elem (s : string) (l : list string) :
  scopeAlreadyExists s l = true ↔ s ∈ l.
Proof.
  induction l as [|x l IH]; simpl.
  - split; [discriminate | intros H; inversion H].
  - destruct (decide (x = s)) as [->|Hne].
    + split; [intros _; left | reflexivity].
    + rewrite IH. split; [intros H; by right |].
      intros H. apply elem_of_cons in H as [->|H]; [congruence | done].
Qed.


Lemma appendDependency_lookup key n v s p (g : gmap string dependency) :
  appendDependency key n v s p g !! key = Some (appended n v s p (g !! key)).
Proof.
  unfold appendDependency, appended.
  destruct (g !! key) as [d|] eqn:Hg.
  - destruct (scopeAlreadyExists s (scopes d)); simpl.
    + rewrite Hg. rewrite lookup_insert_eq. by destruct d.
    + rewrite lookup_insert_eq. rewrite lookup_insert_eq. by destruct d.
  - rewrite lookup_insert_eq. by rewrite lookup_insert_eq.
Qed.

Lemma appendDependency_lookup_ne key k n v s p (g : gmap string dependency) :
  k ≠ key -> appendDependency key n v s p g !! k = g !! k.
Proof.
  intros Hne. unfold appendDependency.
  destruct (g !! key) as [d|] eqn:Hg.
  - destruct (scopeAlreadyExists s (scopes d)); simpl.
    + rewrite Hg. by rewrite lookup_insert_ne.
    + rewrite lookup_insert_eq. by rewrite !lookup_insert_ne.
  - rewrite lookup_insert_eq. by rewrite !lookup_insert_ne.
Qed.

Lemma scopesAt_append key k n v s p g :
  scopesAt (appendDependency key n v s p g) k =
  if decide (k = key)
  then (if scopeAlreadyExists s (scopesAt g k) then scopesAt g k else scopesAt g k ++ [s])
  else scopesAt g k.
Proof.
  unfold scopesAt. destruct (decide (k = key)) as [->|Hne].
  - rewrite appendDependency_lookup. destruct (g !! key); simpl; done.
  - by rewrite appendDependency_lookup_ne.
Qed.

Lemma pathsAt_append key k n v s p g :
  pathsAt (appendDependency key n v s p g) k =
  if decide (k = key) then pathsAt g k ++ [p] else pathsAt g k.
Proof.
  unfold pathsAt. destruct (decide (k = key)) as [->|Hne].
  - rewrite appendDependency_lookup. destruct (g !! key); simpl; done.
  - by rewrite appendDependency_lookup_ne.
Qed.

Lemma dom_append key n v s p (g : gmap string dependency) :
  dom (appendDependency key n v s p g) = {[key]} ∪ dom g.
Proof.
  apply set_eq. intros k. rewrite elem_of_union, elem_of_singleton, !elem_of_dom.
  destruct (decide (k = key)) as [->|Hne].
  - rewrite appendDependency_lookup. split; [by left | eauto].
  - rewrite appendDependency_lookup_ne by done.
    split; [by right | by intros [?|?]].
Qed.

(** ** A walk is the sequence of its visits *)

Lemma each_visits entries ending
    (callback : string -> json -> gmap string dependency ->
                gmap string dependency * option error)
    (step : string -> list visit * option error) :
  (∀ k v g, callback k v g = (foldl applyVisit g (step k).1, (step k).2)) ->
  ∀ g, jsonparser.each entries ending callback g =
       (foldl applyVisit g (eachVisits step entries ending).1,
        (eachVisits step entries ending).2).
Proof.
  intros Hcb. induction entries as [|[k [v under]] rest IH]; intros g; simpl; [done|].
  rewrite Hcb. destruct (step k) as [vs [e|]]; simpl; [done|].
  rewrite IH. destruct (eachVisits step rest ending) as [ws e]; simpl.
  by rewrite foldl_app.
Qed.

Lemma parseEntry_visits recurse recurseV data scope path depName value g :
  (∀ sub p g', recurse sub p g' =
               (foldl applyVisit g' (recurseV sub p).1, (recurseV sub p).2)) ->
  parseEntry recurse data scope path depName value g =
  (foldl applyVisit g (visitsOfEntry recurseV data scope path depName).1,
   (visitsOfEntry recurseV data scope path depName).2).
Proof.
  intros Hrec. unfold parseEntry, visitsOfEntry, entryKey, entryVersion, CheckError.
  destruct (jsonparser.Get data depName "version") as [ver|err].
  - destruct (jsonparser.Get data depName "dependencies") as [t|err'].
    + destruct (hasBytes t); [|done].
      rewrite Hrec. by destruct (recurseV t _) as [vs e].
    + change "Key path not found" with jsonparser.KeyPathNotFoundError.
      by destruct (decide (err' ≠ jsonparser.KeyPathNotFoundError)).
  - destruct (decide (err ≠ jsonparser.KeyPathNotFoundError)); [done|].
    destruct (jsonparser.Get data depName "dependencies") as [t|err'].
    + destruct (hasBytes t); [|done]. by rewrite Hrec.
    + change "Key path not found" with jsonparser.KeyPathNotFoundError.
      by destruct (decide (err' ≠ jsonparser.KeyPathNotFoundError)).
Qed.

Lemma parseDependenciesFuel_visits fuel :
  ∀ data scope path g,
    parseDependenciesFuel fuel data scope path g =
    (foldl applyVisit g (visitsFuel fuel data scope path).1,
     (visitsFuel fuel data scope path).2).
Proof.
  induction fuel as [|fuel IH]; intros data scope path g; simpl; [done|].
  unfold jsonparser.ObjectEach. apply each_visits. intros k v g'.
  apply parseEntry_visits. intros sub p g''. apply IH.
Qed.

Lemma parseDependencies_visits data scope path g :
  (parseDependencies data scope path g).1 = foldl applyVisit g (visits data scope path).
Proof. unfold parseDependencies, visits. by rewrite parseDependenciesFuel_visits. Qed.

(** ** Every visit stems from an entry that has a version *)

Lemma eachVisits_Forall (P : visit -> Prop) step entries ending :
  (∀ k, k ∈ entries.*1 -> Forall P (step k).1) ->
  Forall P (eachVisits step entries ending).1.
Proof.
  induction entries as [|[k v] rest IH]; intros Hstep; simpl; [constructor|].
  assert (Hk : Forall P (step k).1) by (apply Hstep; simpl; left).
  destruct (step k) as [vs [e|]]; simpl in *; [done|].
  assert (Hrest : Forall P (eachVisits step rest ending).1).
  { apply IH. intros k' Hk'. apply Hstep. simpl. by right. }
  destruct (eachVisits step rest ending) as [ws e]; simpl in *.
  by apply Forall_app.
Qed.

Lemma visitsFuel_stem top root scope fuel :
  ∀ data path,
    level top root data path ->
    Forall (visitStems top root scope) (visitsFuel fuel data scope path).1.
Proof.
  induction fuel as [|fuel IH]; intros data path Hlevel; simpl; [constructor|].
  apply eachVisits_Forall. intros k Hk. unfold visitsOfEntry.
  assert (Hsub : ∀ t, jsonparser.Get data k "dependencies" = Ok t ->
                      hasBytes t = true ->
                      Forall (visitStems top root scope)
                        (visitsFuel fuel t scope (entryKey data k :: path)).1).
  { intros t Ht Hbytes. apply IH. by apply (level_sub top root data path k t). }
  destruct (jsonparser.Get data k "version") as [ver|err] eqn:Hver.
  - assert (Hhere : visitStems top root scope
                      (mkVisit (entryKey data k) k (bytesOf ver) scope path)).
    { split; [|split]; simpl; [| done | unfold entryKey, entryVersion; by rewrite Hver].
      exists data, k, ver. unfold entryKey, entryVersion. by rewrite Hver. }
    destruct (jsonparser.Get data k "dependencies") as [t|err'] eqn:Ht.
    + destruct (hasBytes t) eqn:Hbytes; simpl; [|by apply Forall_singleton].
      specialize (Hsub t eq_refl Hbytes).
      destruct (visitsFuel fuel t scope (entryKey data k :: path)) as [vs e]; simpl in *.
      by constructor.
    + destruct (decide (err' ≠ jsonparser.KeyPathNotFoundError)); simpl;
        by apply Forall_singleton.
  - destruct (decide (err ≠ jsonparser.KeyPathNotFoundError)); simpl; [constructor|].
    destruct (jsonparser.Get data k "dependencies") as [t|err'] eqn:Ht.
    + destruct (hasBytes t) eqn:Hbytes; simpl; [|constructor]. by apply Hsub.
    + destruct (decide (err' ≠ jsonparser.KeyPathNotFoundError)); simpl; constructor.
Qed.

Lemma visits_stem top root scope :
  Forall (visitStems top root scope) (visits top scope root).
Proof. unfold visits. apply visitsFuel_stem. constructor. Qed.

Lemma level_suffix top root data path :
  level top root data path -> ∃ ancestors, path = ancestors ++ root.
Proof.
  induction 1 as [|data path k t _ [anc ->] _ _ _].
  - by exists [].
  - by exists (entryKey data k :: anc).
Qed.

(** ** A sequence of visits, folded into a graph *)

Lemma fold_pathsAt vs : ∀ g k,
  pathsAt (foldl applyVisit g vs) k =
  pathsAt g k ++ map vPath (filter (fun v => vKey v = k) vs).
Proof.
  induction vs as [|v vs IH]; intros g k; simpl; [by rewrite app_nil_r|].
  rewrite IH. unfold applyVisit. rewrite pathsAt_append.
  rewrite filter_cons. destruct (decide (vKey v = k)) as [<-|Hne].
  - rewrite decide_True by done. simpl. by rewrite <- app_assoc.
  - rewrite decide_False by done. done.
Qed.

Lemma fold_dom vs : ∀ g k,
  k ∈ dom (foldl applyVisit g vs) ↔ k ∈ dom g ∨ ∃ v, v ∈ vs ∧ vKey v = k.
Proof.
  induction vs as [|v vs IH]; intros g k; simpl.
  - split; [by left | intros [H|(v & Hv & _)]; [done | inversion Hv]].
  - rewrite IH. unfold applyVisit. rewrite dom_append.
    rewrite elem_of_union, elem_of_singleton. split.
    + intros [[->|H]|(v' & Hv' & Hk)].
      * right. exists v. split; [left | done].
      * by left.
      * right. exists v'. split; [by right | done].
    + intros [H|(v' & Hv' & Hk)]; [left; by right|].
      apply elem_of_cons in Hv' as [->|Hv']; [left; left; done|].
      right. by exists v'.
Qed.

Lemma fold_scopes_elem vs : ∀ g k s,
  s ∈ scopesAt (foldl applyVisit g vs) k ↔
  s ∈ scopesAt g k ∨ ∃ v, v ∈ vs ∧ vKey v = k ∧ vScope v = s.
Proof.
  induction vs as [|v vs IH]; intros g k s; simpl.
  - split; [by left | intros [H|(v & Hv & _)]; [done | inversion Hv]].
  - rewrite IH. unfold applyVisit. rewrite scopesAt_append.
    assert (Hstep : s ∈ (if decide (k = vKey v)
                         then if scopeAlreadyExists (vScope v) (scopesAt g k)
                              then scopesAt g k else scopesAt g k ++ [vScope v]
                         else scopesAt g k)
                    ↔ s ∈ scopesAt g k ∨ (vKey v = k ∧ vScope v = s)).
    { destruct (decide (k = vKey v)) as [->|Hne].
      - destruct (scopeAlreadyExists (vScope v) (scopesAt g (vKey v))) eqn:Hex.
        + apply scopeAlreadyExists_elem in Hex.
          split; [by left | intros [H|[_ <-]]; done].
        + rewrite elem_of_app, list_elem_of_singleton.
          split; [intros [H| ->]; [by left | by right] | intros [H|[_ <-]]; [by left | by right]].
      - split; [by left | intros [H|[Hk _]]; [done | congruence]]. }
    rewrite Hstep. split.
    + intros [[H|[Hk Hs]]|(v' & Hv' & Hk & Hs)].
      * by left.
      * right. exists v. split; [left | done].
      * right. exists v'. split; [by right | done].
    + intros [H|(v' & Hv' & Hk & Hs)]; [left; by left|].
      apply elem_of_cons in Hv' as [->|Hv']; [left; right; done|].
      right. by exists v'.
Qed.

Lemma fold_scopes_NoDup vs : ∀ g,
  (∀ k, NoDup (scopesAt g k)) ->
  ∀ k, NoDup (scopesAt (foldl applyVisit g vs) k).
Proof.
  induction vs as [|v vs IH]; intros g Hg k; simpl; [done|].
  apply IH. intros k'. unfold applyVisit. rewrite scopesAt_append.
  destruct (decide (k' = vKey v)) as [->|Hne]; [|done].
  destruct (scopeAlreadyExists (vScope v) (scopesAt g (vKey v))) eqn:Hex; [done|].
  apply NoDup_app. split; [done|]. split; [|apply NoDup_singleton].
  intros x Hx Hx'. apply list_elem_of_singleton in Hx' as ->.
  apply scopeAlreadyExists_elem in Hx. congruence.
Qed.

Lemma occurrences_once (s : string) (l : list string) :
  NoDup l -> s ∈ l -> occurrences s l = 1.
Proof.
  unfold occurrences. induction 1 as [|x l Hx Hnd IH]; intros Hs; [inversion Hs|].
  rewrite filter_cons. destruct (decide (x = s)) as [->|Hne].
  - simpl. f_equal.
    destruct (filter (fun x => x = s) l) as [|y ys] eqn:Hf; [done|].
    assert (Hy : y ∈ filter (fun x => x = s) l) by (rewrite Hf; left).
    apply list_elem_of_filter in Hy as [-> Hy]. done.
  - apply IH. apply elem_of_cons in Hs as [->|Hs]; [congruence | done].
Qed.

(** ** The parser: paths to the root *)

Lemma recorded_path_stems top scope root k d p :
  (parseDependencies top scope root ∅).1 !! k = Some d ->
  p ∈ pathToRoot d ->
  stemsFrom top root k p.
Proof.
  intros Hk Hp. rewrite parseDependencies_visits in Hk.
  assert (Hpaths : pathsAt (foldl applyVisit ∅ (visits top scope root)) k = pathToRoot d)
    by (unfold pathsAt; by rewrite Hk).
  rewrite fold_pathsAt in Hpaths. unfold pathsAt in Hpaths.
  rewrite lookup_empty in Hpaths. simpl in Hpaths. rewrite <- Hpaths in Hp.
  apply list_elem_of_fmap in Hp as (v & -> & Hv).
  apply list_elem_of_filter in Hv as [<- Hv].
  pose proof (visits_stem top root scope) as Hall.
  rewrite Forall_forall in Hall. by destruct (Hall v Hv) as [Hstem _].
Qed.

(** C1, as amended: in the scenario of the specification the graph has
    exactly the nodes a:1.0.0 and b:2.0.0, each with the scopes [prod];
    a:1.0.0 has the single path [app@1.0.0] and b:2.0.0 the single path
    [a:1.0.0, app@1.0.0]. In general a recorded path ends with the
    identity of the build module and is the path of the level of an entry
    the node was read from: the identity of the build module alone when
    that entry is an entry of the document itself, and otherwise the
    identity of the entry that encloses it, put in front of the path of
    the level of the enclosing entry: the enclosing entries, the nearest
    first. *)
Theorem parseDependencies_paths :
  parseDependencies scenarioTree "prod" ["app@1.0.0"] ∅ =
    ({[ "a:1.0.0" := mkDependency "a" "1.0.0" ["prod"] "" None [["app@1.0.0"]];
        "b:2.0.0" := mkDependency "b" "2.0.0" ["prod"] "" None
                       [["a:1.0.0"; "app@1.0.0"]] ]},
     None)
  ∧ ∀ top scope moduleId k d p,
      (parseDependencies top scope [moduleId] ∅).1 !! k = Some d ->
      p ∈ pathToRoot d ->
      last p = Some moduleId
      ∧ stemsFrom top [moduleId] k p
      ∧ ∃ data depName ver,
          level top [moduleId] data p ∧ depName ∈ keysOf data ∧
          jsonparser.Get data depName "version" = Ok ver ∧
          k = depName +:+ ":" +:+ bytesOf ver ∧
          (data = top ∧ p = [moduleId]
           ∨ ∃ parent path parentName,
               level top [moduleId] parent path ∧ parentName ∈ keysOf parent ∧
               jsonparser.Get parent parentName "dependencies" = Ok data ∧
               p = entryKey parent parentName :: path).
Proof.
  split; [by vm_compute|].
  intros top scope moduleId k d p Hk Hp.
  pose proof (recorded_path_stems _ _ _ _ _ _ Hk Hp) as Hstem.
  split; [|split; [done|]].
  - destruct Hstem as (data & depName & ver & Hlevel & _).
    apply level_suffix in Hlevel as [anc ->]. by rewrite last_snoc.
  - destruct Hstem as (data & depName & ver & Hlevel & Hin & Hver & Hkey).
    exists data, depName, ver. do 4 (split; [done|]).
    inversion Hlevel as [|parent path parentName t Hlevel' Hin' Ht Hbytes]; subst.
    + by left.
    + right. by exists parent, path, parentName.
Qed.

Lemma parseDependencies_paths_witness :
  last ["a:1.0.0"; "app@1.0.0"] = Some "app@1.0.0" ∧
  stemsFrom scenarioTree ["app@1.0.0"] "b:2.0.0" ["a:1.0.0"; "app@1.0.0"].
Proof.
  pose proof (proj2 parseDependencies_paths scenarioTree "prod" "app@1.0.0" "b:2.0.0"
                (mkDependency "b" "2.0.0" ["prod"] "" None [["a:1.0.0"; "app@1.0.0"]]))
    as H.
  destruct (H ["a:1.0.0"; "app@1.0.0"]) as (Hlast & Hstem & _).
  - vm_compute. reflexivity.
  - simpl. left.
  - by split.
Defined.

(** The path recorded for a:1.0.0 in the scenario is not [a:1.0.0, app@1.0.0]. *)
Lemma scenario_path_leaves_node_out :
  ¬ (pathToRoot <$> (parseDependencies scenarioTree "prod" ["app@1.0.0"] ∅).1 !! "a:1.0.0"
     = Some [["a:1.0.0"; "app@1.0.0"]]).
Proof. vm_compute. intros H. discriminate H. Qed.

(** An entry nested in an entry of its own name and version: the second
    path of the node starts with the identity of the enclosing entry,
    which is that of the node. *)
Example self_nested_paths :
  pathsAt (parseDependencies selfNestedListing "prod" ["app@1.0.0"] ∅).1 "a:1.0.0"
  = [["app@1.0.0"]; ["a:1.0.0"; "app@1.0.0"]].
Proof. by vm_compute. Qed.

(** ** The parser: scopes *)

(** C3: whatever the order in which the visits of the dev walk and of the
    prod walk reach the graph, a dependency of both listings ends with the
    scope dev exactly once and the scope prod exactly once, and no sequence
    of visits ever leaves a node with a scope recorded twice. The two walks
    of the source, one after the other, are one such order. *)
Theorem scopes_recorded_once (dev prod : json) (root : list string) :
  (parseDependencies prod "prod" root (parseDependencies dev "dev" root ∅).1).1 =
    foldl applyVisit ∅ (visits dev "dev" root ++ visits prod "prod" root)
  ∧ (∀ (vs : list visit) k d, foldl applyVisit ∅ vs !! k = Some d -> NoDup (scopes d))
  ∧ (∀ (vs : list visit) k,
       vs ≡ₚ visits dev "dev" root ++ visits prod "prod" root ->
       k ∈ dom (parseDependencies dev "dev" root ∅).1 ->
       k ∈ dom (parseDependencies prod "prod" root ∅).1 ->
       ∃ d, foldl applyVisit ∅ vs !! k = Some d ∧
            occurrences "dev" (scopes d) = 1 ∧ occurrences "prod" (scopes d) = 1).
Proof.
  assert (Hnodup : ∀ (vs : list visit) k d,
             foldl applyVisit ∅ vs !! k = Some d -> NoDup (scopes d)).
  { intros vs k d Hk.
    pose proof (fold_scopes_NoDup vs ∅) as Hnd.
    assert (H0 : ∀ k', NoDup (scopesAt (∅ : gmap string dependency) k')).
    { intros k'. unfold scopesAt. rewrite lookup_empty. constructor. }
    specialize (Hnd H0 k). unfold scopesAt in Hnd. by rewrite Hk in Hnd. }
  split; [|split; [exact Hnodup|]].
  - rewrite !parseDependencies_visits. by rewrite foldl_app.
  - intros vs k Hperm Hdev Hprod.
    assert (Hin : ∀ data scope,
               k ∈ dom (parseDependencies data scope root ∅).1 ->
               ∃ v, v ∈ visits data scope root ∧ vKey v = k ∧ vScope v = scope).
    { intros data scope Hk. rewrite parseDependencies_visits in Hk.
      apply fold_dom in Hk as [Hk|(v & Hv & Hkey)].
      - rewrite dom_empty in Hk. by apply not_elem_of_empty in Hk.
      - exists v. split; [done|]. split; [done|].
        pose proof (visits_stem data root scope) as Hall. rewrite Forall_forall in Hall.
        by destruct (Hall v Hv) as (_ & Hs & _). }
    destruct (Hin dev "dev" Hdev) as (vd & Hvd & Hkd & Hsd).
    destruct (Hin prod "prod" Hprod) as (vp & Hvp & Hkp & Hsp).
    assert (Hd : "dev" ∈ scopesAt (foldl applyVisit ∅ vs) k).
    { apply fold_scopes_elem. right. exists vd. split; [|done].
      rewrite Hperm. apply elem_of_app. by left. }
    assert (Hp : "prod" ∈ scopesAt (foldl applyVisit ∅ vs) k).
    { apply fold_scopes_elem. right. exists vp. split; [|done].
      rewrite Hperm. apply elem_of_app. by right. }
    unfold scopesAt in Hd, Hp.
    destruct (foldl applyVisit ∅ vs !! k) as [d|] eqn:Hk; simpl in *; [|inversion Hd].
    exists d. split; [done|].
    split; apply occurrences_once; eauto.
Qed.


Lemma scopes_recorded_once_witness :
  ∃ d, foldl applyVisit ∅
         (visits sharedListing "prod" ["app"] ++ visits sharedListing "dev" ["app"])
       !! "x:1.0.0" = Some d ∧
       occurrences "dev" (scopes d) = 1 ∧ occurrences "prod" (scopes d) = 1.
Proof.
  apply (proj2 (proj2 (scopes_recorded_once sharedListing sharedListing ["app"]))).
  - vm_compute. apply perm_swap.
  - vm_compute. reflexivity.
  - vm_compute. reflexivity.
Defined.

(** ** The fuel of the parser never runs out *)

Lemma depth_Json bytes entries ending :
  depth (Json bytes entries ending) = S (deepest entries).
Proof. reflexivity. Qed.

Lemma answer_depth k under t :
  jsonparser.answer k under = Ok t -> (depth t ≤ below under)%nat.
Proof.
  induction under as [|[k' r] rest IH]; intros H; [discriminate|].
  cbn [jsonparser.answer] in H. cbn [below].
  destruct (decide (k' = k)) as [_|_].
  - subst r. lia.
  - specialize (IH H). destruct r; lia.
Qed.

Lemma lookup_depth entries k1 k2 t :
  jsonparser.lookup entries k1 k2 = Ok t -> (depth t ≤ deepest entries)%nat.
Proof.
  induction entries as [|[k [v under]] rest IH]; intros H; [discriminate|].
  cbn [jsonparser.lookup] in H. cbn [deepest].
  destruct (decide (k = k1)) as [_|_].
  - apply answer_depth in H. lia.
  - specialize (IH H). lia.
Qed.

Lemma Get_depth data k1 k2 t :
  jsonparser.Get data k1 k2 = Ok t -> (depth t < depth data)%nat.
Proof.
  destruct data as [bytes entries ending]. unfold jsonparser.Get. cbn [entriesOf].
  intros H. apply lookup_depth in H. rewrite depth_Json. lia.
Qed.

Lemma eachVisits_ext step1 step2 entries ending :
  (∀ k, k ∈ entries.*1 -> step1 k = step2 k) ->
  eachVisits step1 entries ending = eachVisits step2 entries ending.
Proof.
  induction entries as [|[k v] rest IH]; intros Hstep; simpl; [done|].
  rewrite (Hstep k) by (simpl; left).
  rewrite IH; [done|]. intros k' Hk'. apply Hstep. simpl. by right.
Qed.

Lemma visitsOfEntry_ext recurse1 recurse2 data scope path depName :
  (∀ t, jsonparser.Get data depName "dependencies" = Ok t ->
        recurse1 t (entryKey data depName :: path)
        = recurse2 t (entryKey data depName :: path)) ->
  visitsOfEntry recurse1 data scope path depName
  = visitsOfEntry recurse2 data scope path depName.
Proof.
  intros Hrec. unfold visitsOfEntry.
  destruct (jsonparser.Get data depName "dependencies") as [t|err'];
    [rewrite (Hrec t eq_refl)|]; done.
Qed.

Lemma visitsFuel_stable fuel1 :
  ∀ fuel2 data scope path,
    (depth data < fuel1)%nat -> (depth data < fuel2)%nat ->
    visitsFuel fuel1 data scope path = visitsFuel fuel2 data scope path.
Proof.
  induction fuel1 as [|fuel1 IH]; intros fuel2 data scope path H1 H2; [lia|].
  destruct fuel2 as [|fuel2]; [lia|]. simpl.
  apply eachVisits_ext. intros k _. apply visitsOfEntry_ext. intros t Ht.
  pose proof (Get_depth _ _ _ _ Ht) as Hd. apply IH; lia.
Qed.

Lemma parseDependenciesFuel_enough fuel data scope path g :
  (depth data < fuel)%nat ->
  parseDependenciesFuel fuel data scope path g = parseDependencies data scope path g.
Proof.
  intros H. unfold parseDependencies. rewrite !parseDependenciesFuel_visits.
  rewrite (visitsFuel_stable fuel (S (depth data))) by lia. done.
Qed.

(** ** The parser: entries without a version *)

Lemma eachVisits_no_error step entries :
  (∀ k, k ∈ entries.*1 -> (step k).2 = None) ->
  (eachVisits step entries None).2 = None.
Proof.
  induction entries as [|[k v] rest IH]; intros Hstep; simpl; [done|].
  assert (Hk : (step k).2 = None) by (apply Hstep; simpl; left).
  destruct (step k) as [vs [e|]]; simpl in *; [done|].
  assert (Hrest : (eachVisits step rest None).2 = None).
  { apply IH. intros k' Hk'. apply Hstep. simpl. by right. }
  by destruct (eachVisits step rest None) as [ws e].
Qed.

Lemma wellFormedFuel_no_error fuel :
  ∀ data scope path,
    wellFormedFuel fuel data = true ->
    (visitsFuel fuel data scope path).2 = None.
Proof.
  induction fuel as [|fuel IH]; intros data scope path Hwf; simpl in *; [done|].
  apply andb_true_iff in Hwf as [Hend Hwf]. apply bool_decide_eq_true in Hend.
  rewrite Hend. apply eachVisits_no_error. intros k Hk.
  rewrite forallb_forall in Hwf.
  specialize (Hwf k (proj1 (list_elem_of_In _ _) Hk)).
  apply andb_true_iff in Hwf as [Hver Hdeps].
  unfold visitsOfEntry, found in *.
  assert (Hbelow : match jsonparser.Get data k "dependencies" with
                   | Ok t =>
                       if hasBytes t
                       then (visitsFuel fuel t scope (entryKey data k :: path)).2 = None
                       else True
                   | Err e => e = jsonparser.KeyPathNotFoundError
                   end).
  { destruct (jsonparser.Get data k "dependencies") as [t|e].
    - destruct (hasBytes t); [by apply IH | done].
    - by apply bool_decide_eq_true in Hdeps. }
  destruct (jsonparser.Get data k "version") as [ver|err].
  - destruct (jsonparser.Get data k "dependencies") as [t|err'].
    + destruct (hasBytes t); [|done].
      by destruct (visitsFuel fuel t scope (entryKey data k :: path)) as [vs e].
    + by rewrite decide_False by (by intros H).
  - apply bool_decide_eq_true in Hver.
    rewrite decide_False by (by intros H).
    destruct (jsonparser.Get data k "dependencies") as [t|err'].
    + by destruct (hasBytes t).
    + by rewrite decide_False by (by intros H).
Qed.

Lemma eachVisits_part step entries ending k :
  (eachVisits step entries ending).2 = None ->
  k ∈ entries.*1 ->
  (step k).2 = None ∧ ∀ v, v ∈ (step k).1 -> v ∈ (eachVisits step entries ending).1.
Proof.
  induction entries as [|[k' w] rest IH]; simpl; intros Hnone Hk; [inversion Hk|].
  destruct (step k') as [vs [e|]] eqn:Hk'; simpl in *; [done|].
  destruct (eachVisits step rest ending) as [ws e'] eqn:Hrest; simpl in *.
  apply elem_of_cons in Hk as [->|Hk].
  - rewrite Hk'. split; [done|]. intros v Hv. apply elem_of_app. by left.
  - destruct (IH Hnone Hk) as [Hstep Hin]. split; [done|].
    intros v Hv. apply elem_of_app. right. by apply Hin.
Qed.

(** An entry and what is below it are part of a walk that succeeds. *)
Lemma visitsOfEntry_part recurse data scope path depName :
  (visitsOfEntry recurse data scope path depName).2 = None ->
  (∀ ver, jsonparser.Get data depName "version" = Ok ver ->
          mkVisit (entryKey data depName) depName (bytesOf ver) scope path
          ∈ (visitsOfEntry recurse data scope path depName).1)
  ∧ (∀ t, jsonparser.Get data depName "dependencies" = Ok t ->
          hasBytes t = true ->
          (recurse t (entryKey data depName :: path)).2 = None
          ∧ ∀ v, v ∈ (recurse t (entryKey data depName :: path)).1 ->
                 v ∈ (visitsOfEntry recurse data scope path depName).1).
Proof.
  unfold visitsOfEntry.
  destruct (jsonparser.Get data depName "version") as [ver|err].
  - destruct (jsonparser.Get data depName "dependencies") as [t|err'].
    + destruct (hasBytes t) eqn:Hbytes.
      * destruct (recurse t (entryKey data depName :: path)) as [vs e] eqn:Hrec. simpl.
        intros ->. split.
        -- intros ? [= <-]. left.
        -- intros ? [= <-] _. rewrite Hrec. split; [done|]. intros v Hv. by right.
      * intros _. split; [intros ? [= <-]; left | intros ? [= <-] ?; congruence].
    + destruct (decide (err' ≠ jsonparser.KeyPathNotFoundError)); [done|].
      intros _. split; [intros ? [= <-]; left | done].
  - destruct (decide (err ≠ jsonparser.KeyPathNotFoundError)); [done|].
    destruct (jsonparser.Get data depName "dependencies") as [t|err'].
    + destruct (hasBytes t) eqn:Hbytes.
      * intros Hnone. split; [done|]. by intros ? [= <-] _.
      * intros _. split; [done | intros ? [= <-] ?; congruence].
    + destruct (decide (err' ≠ jsonparser.KeyPathNotFoundError)); done.
Qed.

Lemma level_part top root scope data path :
  level top root data path ->
  (visitsFuel (S (depth top)) top scope root).2 = None ->
  (visitsFuel (S (depth data)) data scope path).2 = None
  ∧ ∀ v, v ∈ (visitsFuel (S (depth data)) data scope path).1 -> v ∈ visits top scope root.
Proof.
  intros Hlevel Hnone.
  induction Hlevel as [|data path depName t Hlevel [IHnone IHin] Hk Ht Hbytes]; [done|].
  cbn [visitsFuel] in IHnone, IHin.
  destruct (eachVisits_part _ _ _ depName IHnone Hk) as [Hstep Hin].
  destruct (visitsOfEntry_part _ _ _ _ _ Hstep) as [_ Hbelow].
  destruct (Hbelow t Ht Hbytes) as [Hrec Hsub].
  pose proof (Get_depth _ _ _ _ Ht) as Hd.
  rewrite (visitsFuel_stable (S (depth t)) (depth data)) by lia.
  split; [done|]. intros v Hv. by apply IHin, Hin, Hsub.
Qed.

Lemma stem_visited top root scope k p :
  (visitsFuel (S (depth top)) top scope root).2 = None ->
  stemsFrom top root k p ->
  ∃ v, v ∈ visits top scope root ∧ vKey v = k ∧ vPath v = p.
Proof.
  intros Hnone (data & depName & ver & Hlevel & Hk & Hver & ->).
  destruct (level_part top root scope data p Hlevel Hnone) as [Hdata Hin].
  cbn [visitsFuel] in Hdata, Hin.
  destruct (eachVisits_part _ _ _ depName Hdata Hk) as [Hstep Hpart].
  destruct (visitsOfEntry_part _ _ _ _ _ Hstep) as [Hhere _].
  exists (mkVisit (entryKey data depName) depName (bytesOf ver) scope p).
  split; [by apply Hin, Hpart, Hhere|]. split; [|done].
  simpl. unfold entryKey, entryVersion. by rewrite Hver.
Qed.

(** C4: a node of the resulting graph that was not there before stems from
    an entry for which a version was found; for an entry without a
    version the callback leaves the graph as it was, returns no error of
    its own and goes on to the dependencies of the entry; the walk of a
    document that the library reads without an error succeeds, whether
    its entries have a version or not; and a walk that succeeds has
    recorded every entry that has a version, with the path of its level,
    at every level of the document: also the entries that come after an
    entry without a version and those below one. *)
Theorem versionless_entries_skipped (top : json) (scope : string) (root : list string)
    (deps : gmap string dependency) :
  (∀ k, k ∈ dom (parseDependencies top scope root deps).1 ->
        k ∈ dom deps ∨ ∃ p, stemsFrom top root k p)
  ∧ (∀ recurse data path depName value,
       jsonparser.Get data depName "version" = Err jsonparser.KeyPathNotFoundError ->
       parseEntry recurse data scope path depName value deps =
       match jsonparser.Get data depName "dependencies" with
       | Ok transitive =>
           if hasBytes transitive
           then recurse transitive (entryKey data depName :: path) deps
           else (deps, None)
       | Err err =>
           if decide (err ≠ jsonparser.KeyPathNotFoundError)
           then (deps, Some err)
           else (deps, None)
       end)
  ∧ (wellFormed top = true -> (parseDependencies top scope root deps).2 = None)
  ∧ ((parseDependencies top scope root deps).2 = None ->
     ∀ k p, stemsFrom top root k p ->
            k ∈ dom (parseDependencies top scope root deps).1
            ∧ p ∈ pathsAt (parseDependencies top scope root deps).1 k).
Proof.
  split; [|split; [|split]].
  - intros k Hk. rewrite parseDependencies_visits in Hk.
    apply fold_dom in Hk as [Hk|(v & Hv & <-)]; [by left|].
    right. exists (vPath v).
    pose proof (visits_stem top root scope) as Hall. rewrite Forall_forall in Hall.
    by destruct (Hall v Hv) as [Hstem _].
  - intros recurse data path depName value Hver.
    unfold parseEntry, entryKey, entryVersion, CheckError. rewrite Hver.
    by rewrite decide_False by (by intros H).
  - intros Hwf. unfold parseDependencies. rewrite parseDependenciesFuel_visits.
    exact (wellFormedFuel_no_error _ _ _ _ Hwf).
  - intros Hnone k p Hstem.
    unfold parseDependencies in Hnone. rewrite parseDependenciesFuel_visits in Hnone.
    destruct (stem_visited top root scope k p Hnone Hstem) as (v & Hv & Hk & Hp).
    rewrite parseDependencies_visits. split.
    + apply fold_dom. right. by exists v.
    + rewrite fold_pathsAt. apply elem_of_app. right.
      apply list_elem_of_fmap. exists v. split; [done|].
      by apply list_elem_of_filter.
Qed.

Lemma peerListing_stem :
  stemsFrom peerListing ["app"] "c:3.0.0" ["inner:"; "a:1.0.0"; "app"].
Proof.
  exists (read belowInner), "c", (read (TString "3.0.0")).
  split; [|split; [by vm_compute; left | split; reflexivity]].
  apply (level_sub peerListing ["app"] (read belowA) ["a:1.0.0"; "app"] "inner"
           (read belowInner)); [| by vm_compute; left | reflexivity | reflexivity].
  apply (level_sub peerListing ["app"] peerListing ["app"] "a" (read belowA));
    [constructor | by vm_compute; right; left | reflexivity | reflexivity].
Qed.

Lemma versionless_entries_skipped_witness :
  (parseDependencies peerListing "prod" ["app"] ∅).2 = None
  ∧ ["inner:"; "a:1.0.0"; "app"]
    ∈ pathsAt (parseDependencies peerListing "prod" ["app"] ∅).1 "c:3.0.0".
Proof.
  pose proof (versionless_entries_skipped peerListing "prod" ["app"] ∅)
    as (_ & _ & Hsucceeds & Hrecorded).
  assert (Hnone : (parseDependencies peerListing "prod" ["app"] ∅).2 = None).
  { apply Hsucceeds. vm_compute. reflexivity. }
  split; [exact Hnone|].
  exact (proj2 (Hrecorded Hnone "c:3.0.0" ["inner:"; "a:1.0.0"; "app"] peerListing_stem)).
Defined.

Example peerListing_graph :
  dom (parseDependencies peerListing "prod" ["app"] ∅).1 = {[ "a:1.0.0"; "c:3.0.0" ]}
  ∧ pathsAt (parseDependencies peerListing "prod" ["app"] ∅).1 "c:3.0.0"
    = [["inner:"; "a:1.0.0"; "app"]].
Proof. split; by vm_compute. Qed.

(** ** The configuration translator: the type restriction *)

Lemma setTypeRestriction_step key value a :
  typeRestrictionOf (setTypeRestriction key value a) =
  stepRestriction (typeRestrictionOf a) (key, value).
Proof.
  unfold setTypeRestriction, stepRestriction, omitChoice, deprecatedChoice. simpl.
  destruct (decide (key = "omit")).
  - by destruct (strings.Contains value "dev").
  - destruct (decide (typeRestrictionOf a = defaultRestriction)) as [Hr|Hr]; [|done].
    destruct (decide (key = "only")).
    + destruct (strings.Contains value "prod"); [done|].
      by destruct (strings.Contains value "dev").
    + destruct (decide (key = "production")) as [Hp|Hp].
      * rewrite bool_decide_eq_true_2 by done. simpl.
        by destruct (strings.Contains value "true").
      * rewrite bool_decide_eq_false_2 by done. done.
Qed.

(** A key the translator drops is none of the keys that restrict. *)
Lemma stepRestriction_invalid_key r key value :
  isValidKey key = false -> stepRestriction r (key, value) = r.
Proof.
  intros Hinv. unfold stepRestriction, deprecatedChoice. simpl.
  destruct (decide (key = "omit")) as [->|_]; [by vm_compute in Hinv|].
  destruct (decide (r = defaultRestriction)); [|done].
  destruct (decide (key = "only")) as [->|_]; [by vm_compute in Hinv|].
  destruct (decide (key = "production")) as [->|_]; [by vm_compute in Hinv|].
  done.
Qed.

Lemma configOption_restriction line conf a :
  typeRestrictionOf (configOption line (conf, a)).2 =
  match directiveOf line with
  | Some d => stepRestriction (typeRestrictionOf a) d
  | None => typeRestrictionOf a
  end.
Proof.
  unfold configOption, directiveOf, strings.SplitN2.
  destruct (decide (line ≠ "")) as [Hne|He].
  - destruct (strings.cut "=" line) as [[before after]|]; simpl.
    + destruct (isValidKey (strings.TrimSpace before)) eqn:Hvalid; simpl.
      * apply setTypeRestriction_step.
      * rewrite stepRestriction_invalid_key by done.
        by destruct (strings.HasPrefix before "@").
    + by destruct (strings.HasPrefix line "@").
  - assert (line = "") as -> by (by destruct (decide (line = "")); [|exfalso; auto]).
    done.
Qed.

Lemma fold_configOption_restriction tokens : ∀ conf a,
  typeRestrictionOf
    (fold_left (fun acc currOption => configOption currOption acc) tokens (conf, a)).2 =
  foldl stepRestriction (typeRestrictionOf a) (omap directiveOf tokens).
Proof.
  induction tokens as [|line tokens IH]; intros conf a; [done|].
  cbn [fold_left].
  pose proof (configOption_restriction line conf a) as Hr.
  destruct (configOption line (conf, a)) as [conf' a'].
  rewrite IH. cbn [snd] in Hr. rewrite Hr.
  change (omap directiveOf (line :: tokens))
    with (match directiveOf line with
          | Some d => d :: omap directiveOf tokens
          | None => omap directiveOf tokens
          end).
  by destruct (directiveOf line).
Qed.

Lemma omitChoice_set v : omitChoice v ≠ defaultRestriction.
Proof. unfold omitChoice. by destruct (strings.Contains v "dev"). Qed.

Lemma deprecatedChoice_set k v r : deprecatedChoice k v = Some r -> r ≠ defaultRestriction.
Proof.
  unfold deprecatedChoice. intros H.
  repeat (case_match; try discriminate); by injection H as <-.
Qed.

Lemma fold_stepRestriction ds : ∀ r,
  foldl stepRestriction r ds =
  match lastOmit ds with
  | Some v => omitChoice v
  | None => if decide (r = defaultRestriction)
            then default defaultRestriction (firstDeprecated ds)
            else r
  end.
Proof.
  induction ds as [|[k v] rest IH]; intros r; simpl.
  - by destruct (decide (r = defaultRestriction)) as [->|].
  - rewrite IH. destruct (lastOmit rest) as [v'|]; [done|].
    destruct (decide (k = "omit")) as [->|Hk].
    + assert (Hs : stepRestriction r ("omit", v) = omitChoice v) by done.
      rewrite Hs. rewrite decide_False by apply omitChoice_set. done.
    + assert (Hs : stepRestriction r (k, v) =
                   if decide (r = defaultRestriction)
                   then default r (deprecatedChoice k v) else r).
      { unfold stepRestriction. simpl. by rewrite decide_False. }
      rewrite Hs. clear Hs.
      destruct (decide (r = defaultRestriction)) as [->|Hr].
      * destruct (deprecatedChoice k v) as [x|] eqn:Hx; simpl.
        -- rewrite decide_False by (by eapply deprecatedChoice_set). done.
        -- done.
      * rewrite decide_False by done. done.
Qed.

(** C2: from the default restriction, the restriction derived from a dump
    is the one its last [omit] directive gives (prod-only when the value
    contains "dev", all otherwise), whatever the other directives; without
    an [omit] directive it is the one the first [only] or [production]
    directive that gives a restriction gives, and the default one when
    there is none. A dump with [omit = dev] and [only = prod] gives
    prod-only, and so does a dump with only [production = true]. *)
Theorem typeRestriction_priority (data : string) (st : machine) :
  typeRestrictionOf (nca st) = defaultRestriction ->
  typeRestrictionOf (nca (prepareConfigData data st).2) =
    priorityRestriction (directives data)
  ∧ typeRestrictionOf
      (nca (prepareConfigData omitAndOnlyDump
              (mkMachine (NewNpmCommandArgs "install") [])).2) = prodOnly
  ∧ typeRestrictionOf
      (nca (prepareConfigData productionDump
              (mkMachine (NewNpmCommandArgs "install") [])).2) = prodOnly.
Proof.
  intros Hdefault. split; [|split; by vm_compute].
  unfold prepareConfigData, directives, priorityRestriction.
  destruct (bufio.ScanLines data) as [tokens scanErr]. simpl.
  pose proof (fold_configOption_restriction tokens [] (nca st)) as Hfold.
  destruct (fold_left _ tokens ([], nca st)) as [conf a] eqn:Hf. simpl in Hfold.
  assert (Hres : typeRestrictionOf a = priorityRestriction (omap directiveOf tokens)).
  { rewrite Hfold, Hdefault, fold_stepRestriction. unfold priorityRestriction.
    destruct (lastOmit (omap directiveOf tokens)); [done|].
    by rewrite decide_True. }
  destruct scanErr; simpl; exact Hres.
Qed.

Lemma typeRestriction_priority_witness :
  typeRestrictionOf
    (nca (prepareConfigData ("only = dev" +:+ newline +:+ "production = true")
            (mkMachine (NewNpmCommandArgs "ci") [])).2) =
  priorityRestriction (directives ("only = dev" +:+ newline +:+ "production = true")).
Proof.
  apply (typeRestriction_priority ("only = dev" +:+ newline +:+ "production = true")
           (mkMachine (NewNpmCommandArgs "ci") [])).
  reflexivity.
Defined.

Example only_before_production :
  priorityRestriction (directives ("only = dev" +:+ newline +:+ "production = true"))
  = devOnly.
Proof. by vm_compute. Qed.

(** ** The graphs of the pipeline file their nodes under name:version *)

Lemma applyVisit_keyed g v :
  keyed g -> vKey v = vName v +:+ ":" +:+ vVersion v -> keyed (applyVisit g v).
Proof.
  intros Hg Hv k d Hk. unfold applyVisit in Hk.
  destruct (decide (k = vKey v)) as [->|Hne].
  - rewrite appendDependency_lookup in Hk. injection Hk as <-.
    destruct (g !! vKey v) as [d0|] eqn:Hd0; simpl; [|done].
    exact (Hg _ _ Hd0).
  - rewrite appendDependency_lookup_ne in Hk by done. exact (Hg _ _ Hk).
Qed.

Lemma parseDependencies_keyed data scope root g :
  keyed g -> keyed (parseDependencies data scope root g).1.
Proof.
  intros Hg. rewrite parseDependencies_visits.
  pose proof (visits_stem data root scope) as Hall.
  revert g Hg. induction Hall as [|v vs (_ & _ & Hv) _ IH]; intros g Hg; [done|].
  simpl. apply IH. by apply applyVisit_keyed.
Qed.

(** ** The manifest *)

Lemma transformDependenciesIn_filter (g : gmap string dependency) order : ∀ r m,
  transformDependenciesIn g order r m =
  (r ++ (recordOf <$> filter (fun d => is_Some (checksum d)) (omap (g !!.) order)),
   m ++ (recordOf <$> filter (fun d => ¬ is_Some (checksum d)) (omap (g !!.) order))).
Proof.
  induction order as [|k order IH]; intros r m.
  - simpl. by rewrite !app_nil_r.
  - cbn [transformDependenciesIn].
    change (omap (g !!.) (k :: order))
      with (match g !! k with
            | Some d => d :: omap (g !!.) order
            | None => omap (g !!.) order
            end).
    destruct (g !! k) as [d|]; [|apply IH].
    rewrite !filter_cons. fold (recordOf d).
    destruct (checksum d) as [c|] eqn:Hc.
    + rewrite IH. rewrite decide_True by eauto.
      rewrite decide_False by (intros H; apply H; eauto).
      by rewrite fmap_cons, <- app_assoc.
    + rewrite IH. rewrite decide_False by (intros [? ?]; done).
      rewrite decide_True by (intros [? ?]; done).
      by rewrite fmap_cons, <- app_assoc.
Qed.

Lemma ids_of_keyed (g : gmap string dependency) order :
  keyed g ->
  (∀ k, k ∈ order -> is_Some (g !! k)) ->
  ids (recordOf <$> omap (g !!.) order) = order.
Proof.
  intros Hkeyed. induction order as [|k order IH]; intros Hdom; [done|].
  change (omap (g !!.) (k :: order))
    with (match g !! k with
          | Some d => d :: omap (g !!.) order
          | None => omap (g !!.) order
          end).
  destruct (Hdom k) as [d Hd]; [left|]. rewrite Hd.
  unfold ids in *. rewrite !fmap_cons. simpl.
  rewrite <- (Hkeyed k d Hd). f_equal.
  apply IH. intros k' Hk'. apply Hdom. by right.
Qed.

Lemma keys_dom (g : gmap string dependency) k : k ∈ keys g ↔ is_Some (g !! k).
Proof.
  unfold keys. rewrite list_elem_of_fmap. split.
  - intros ([k' d] & -> & H). apply elem_of_map_to_list in H. eauto.
  - intros [d H]. exists (k, d). split; [done|]. by apply elem_of_map_to_list.
Qed.

(** C6: for a graph whose nodes are filed under their identities, and
    whatever the order in which the graph is ranged over, a record is
    resolved exactly when it has a checksum and missing exactly when it has
    none; the identities of the two sequences together are the keys of the
    graph, each exactly once, so that as sets their union is the set of
    the nodes and their intersection is empty. *)
Theorem manifest_partition (w : World) (a : NpmCommandArgs) :
  keyed (dependencies a) ->
  rangeOrder w (dependencies a) ≡ₚ keys (dependencies a) ->
  (∀ r, r ∈ (transformDependencies w a).1 -> is_Some (buildinfo.Checksum_ r))
  ∧ (∀ m, m ∈ (transformDependencies w a).2 -> buildinfo.Checksum_ m = None)
  ∧ (∀ k d, dependencies a !! k = Some d ->
            match checksum d with
            | Some _ => recordOf d ∈ (transformDependencies w a).1
            | None => recordOf d ∈ (transformDependencies w a).2
            end)
  ∧ ids (transformDependencies w a).1 ++ ids (transformDependencies w a).2
      ≡ₚ keys (dependencies a)
  ∧ list_to_set (ids (transformDependencies w a).1)
      ∪ list_to_set (ids (transformDependencies w a).2) = dom (dependencies a)
  ∧ list_to_set (ids (transformDependencies w a).1)
      ∩ list_to_set (ids (transformDependencies w a).2) = (∅ : gset string).
Proof.
  intros Hkeyed Horder. unfold transformDependencies.
  rewrite transformDependenciesIn_filter. simpl.
  set (g := dependencies a) in *. set (order := rangeOrder w g) in *.
  set (ds := omap (g !!.) order).
  assert (Hdom : ∀ k, k ∈ order -> is_Some (g !! k)).
  { intros k Hk. apply keys_dom. by rewrite <- Horder. }
  assert (Hperm : ids (recordOf <$> filter (fun d => is_Some (checksum d)) ds)
                  ++ ids (recordOf <$> filter (fun d => ¬ is_Some (checksum d)) ds)
                  ≡ₚ keys g).
  { unfold ids. rewrite <- !fmap_app. rewrite filter_app_complement.
    fold (ids (recordOf <$> ds)). unfold ds. by rewrite ids_of_keyed. }
  assert (Hnodup : NoDup (ids (recordOf <$> filter (fun d => is_Some (checksum d)) ds)
                  ++ ids (recordOf <$> filter (fun d => ¬ is_Some (checksum d)) ds))).
  { rewrite Hperm. apply NoDup_fst_map_to_list. }
  split; [|split; [|split; [|split; [|split]]]].
  - intros r Hr. apply list_elem_of_fmap in Hr as (d & -> & Hd).
    by apply list_elem_of_filter in Hd as [Hc _].
  - intros m Hm. apply list_elem_of_fmap in Hm as (d & -> & Hd).
    apply list_elem_of_filter in Hd as [Hc _]. simpl.
    destruct (checksum d); [exfalso; apply Hc; eauto | done].
  - intros k d Hd.
    assert (Hin : d ∈ ds).
    { apply list_elem_of_omap. exists k. split; [|done].
      rewrite Horder. apply keys_dom. eauto. }
    destruct (checksum d) as [c|] eqn:Hc.
    + apply list_elem_of_fmap_2. apply list_elem_of_filter. split; [|done].
      rewrite Hc. eauto.
    + apply list_elem_of_fmap_2. apply list_elem_of_filter. split; [|done].
      rewrite Hc. by intros [? ?].
  - exact Hperm.
  - rewrite <- list_to_set_app_L. apply set_eq. intros k.
    rewrite elem_of_list_to_set, Hperm, keys_dom. by rewrite elem_of_dom.
  - apply NoDup_app in Hnodup as (_ & Hdisj & _).
    apply set_eq. intros k. rewrite elem_of_intersection, !elem_of_list_to_set.
    split; [intros [H1 H2]; by destruct (Hdisj k H1) | intros H; by apply not_elem_of_empty in H].
Qed.

Lemma manifest_partition_witness :
  ids (transformDependencies quietWorld enrichedArgs).1 = ["d:4.0.0"] ∧
  ids (transformDependencies quietWorld enrichedArgs).2 = ["c:3.0.0"] ∧
  list_to_set (ids (transformDependencies quietWorld enrichedArgs).1)
    ∩ list_to_set (ids (transformDependencies quietWorld enrichedArgs).2)
  = (∅ : gset string).
Proof.
  split; [by vm_compute|]. split; [by vm_compute|].
  apply (manifest_partition quietWorld enrichedArgs).
  - unfold keyed. refine (bool_decide_unpack _ _). by vm_compute.
  - reflexivity.
Defined.

(** ** Checksum enrichment *)

Lemma with_dependencies_same a : with_dependencies (dependencies a) a = a.
Proof. by destruct a. Qed.

Lemma with_dependencies_twice g g' a :
  with_dependencies g (with_dependencies g' a) = with_dependencies g a.
Proof. by destruct a. Qed.

Lemma dependencies_with g a : dependencies (with_dependencies g a) = g.
Proof. by destruct a. Qed.

Lemma enrichNode_identity w d :
  name (enrichNode w d) = name d ∧ version (enrichNode w d) = version d.
Proof.
  unfold enrichNode.
  destruct (GetDependencyInfo w (name d) (version d)) as [[[c|] t] [e|]]; done.
Qed.

Lemma enrichNode_keyed w g : keyed g -> keyed (enrichNode w <$> g).
Proof.
  intros Hg k d Hk. rewrite lookup_fmap in Hk.
  destruct (g !! k) as [d0|] eqn:Hd0; [|discriminate]. injection Hk as <-.
  destruct (enrichNode_identity w d0) as [-> ->]. exact (Hg _ _ Hd0).
Qed.

Lemma enrichNode_idempotent w d : enrichNode w (enrichNode w d) = enrichNode w d.
Proof.
  unfold enrichNode at 1.
  destruct (enrichNode_identity w d) as [-> ->].
  unfold enrichNode.
  destruct (GetDependencyInfo w (name d) (version d)) as [[[c|] t] [e|]]; done.
Qed.

Lemma enrichAt_lookup w (g : gmap string dependency) k' k :
  enrichAt w g k' !! k = if decide (k = k') then enrichNode w <$> g !! k else g !! k.
Proof.
  unfold enrichAt. destruct (decide (k = k')) as [->|Hne].
  - destruct (g !! k') as [d|] eqn:Hd; [by rewrite lookup_insert_eq | by rewrite Hd].
  - destruct (g !! k') as [d|]; [by rewrite lookup_insert_ne | done].
Qed.

Lemma taskError_enrichAt w g k' k : taskError w (enrichAt w g k') k = taskError w g k.
Proof.
  unfold taskError. rewrite enrichAt_lookup.
  destruct (decide (k = k')); [|done].
  destruct (g !! k) as [d|]; simpl; [|done].
  by destruct (enrichNode_identity w d) as [-> ->].
Qed.

Lemma taskEvents_enrichAt w g k' k : taskEvents (enrichAt w g k') k = taskEvents g k.
Proof.
  unfold taskEvents. rewrite enrichAt_lookup.
  destruct (decide (k = k')); [|done].
  destruct (g !! k) as [d|]; simpl; [|done].
  by destruct (enrichNode_identity w d) as [-> ->].
Qed.

Lemma getDependencyInfoTask_run w k st :
  getDependencyInfoTask w k st =
  (match taskError w (dependencies (nca st)) k with
   | Some e => Err e
   | None => Ok tt
   end,
   mkMachine (with_dependencies (enrichAt w (dependencies (nca st)) k) (nca st))
     (trace st ++ taskEvents (dependencies (nca st)) k)).
Proof.
  destruct st as [a tr]. unfold getDependencyInfoTask, taskError, enrichAt, taskEvents.
  unfold bind, get, emit, modify, fail, ret. simpl.
  destruct (dependencies a !! k) as [d|] eqn:Hd; simpl.
  - unfold enrichNode.
    destruct (GetDependencyInfo w (name d) (version d)) as [[[c|] t] [e|]]; simpl;
      rewrite ?(insert_id _ _ _ Hd), ?with_dependencies_same; done.
  - by rewrite with_dependencies_same, app_nil_r.
Qed.

Lemma errorsOf_enrichAt w g k order :
  errorsOf w (enrichAt w g k) order = errorsOf w g order.
Proof.
  unfold errorsOf. induction order as [|k' order IH]; [done|].
  change (omap (taskError w (enrichAt w g k)) (k' :: order))
    with (match taskError w (enrichAt w g k) k' with
          | Some e => e :: omap (taskError w (enrichAt w g k)) order
          | None => omap (taskError w (enrichAt w g k)) order
          end).
  by rewrite taskError_enrichAt, IH.
Qed.

Lemma eventsOf_enrichAt w g k order :
  eventsOf (enrichAt w g k) order = eventsOf g order.
Proof.
  unfold eventsOf. induction order as [|k' order IH]; [done|].
  rewrite !bind_cons. by rewrite taskEvents_enrichAt, IH.
Qed.

Lemma runTasks_run w order : ∀ queue st,
  runTasks w order queue st =
  (foldl (ErrorsQueue.AddError 1) queue (errorsOf w (dependencies (nca st)) order),
   mkMachine
     (with_dependencies (foldl (enrichAt w) (dependencies (nca st)) order) (nca st))
     (trace st ++ eventsOf (dependencies (nca st)) order)).
Proof.
  induction order as [|k order IH]; intros queue st.
  - destruct st as [a tr]. simpl. by rewrite with_dependencies_same, app_nil_r.
  - cbn [runTasks]. rewrite getDependencyInfoTask_run.
    set (g := dependencies (nca st)).
    assert (Hstep : ∀ q,
      runTasks w order q
        (mkMachine (with_dependencies (enrichAt w g k) (nca st))
           (trace st ++ taskEvents g k)) =
      (foldl (ErrorsQueue.AddError 1) q (errorsOf w g order),
       mkMachine (with_dependencies (foldl (enrichAt w) g (k :: order)) (nca st))
         (trace st ++ eventsOf g (k :: order)))).
    { intros q. rewrite IH. cbn [nca trace foldl].
      rewrite dependencies_with, with_dependencies_twice.
      rewrite errorsOf_enrichAt, eventsOf_enrichAt.
      unfold eventsOf at 2. rewrite bind_cons. by rewrite <- app_assoc. }
    unfold errorsOf at 1.
    change (omap (taskError w g) (k :: order))
      with (match taskError w g k with
            | Some e => e :: errorsOf w g order
            | None => errorsOf w g order
            end).
    destruct (taskError w g k) as [e|]; by rewrite Hstep.
Qed.

Lemma fold_enrichAt_lookup w order : ∀ (g : gmap string dependency) k,
  foldl (enrichAt w) g order !! k =
  if decide (k ∈ order) then enrichNode w <$> g !! k else g !! k.
Proof.
  induction order as [|k' order IH]; intros g k.
  - cbn [foldl]. destruct (decide (k ∈ [])) as [H|_]; [inversion H | done].
  - cbn [foldl]. rewrite IH, enrichAt_lookup.
    destruct (decide (k = k')) as [->|Hne].
    + rewrite (decide_True (P := k' ∈ k' :: order)) by left.
      destruct (decide (k' ∈ order)); [|done].
      destruct (g !! k') as [d|]; simpl; [|done].
      by rewrite enrichNode_idempotent.
    + destruct (decide (k ∈ order)) as [Hin|Hnin].
      * rewrite decide_True by (by right). done.
      * rewrite decide_False; [done|].
        intros H. apply elem_of_cons in H as [?|?]; done.
Qed.

Lemma fold_AddError_head errs :
  head (foldl (ErrorsQueue.AddError 1) [] errs) = head errs.
Proof.
  destruct errs as [|e errs]; [done|]. simpl.
  assert (H : ∀ l, foldl (ErrorsQueue.AddError 1) [e] l = [e]).
  { induction l as [|x l IHl]; [done|]. simpl. exact IHl. }
  change (ErrorsQueue.AddError 1 [] e) with [e]. by rewrite H.
Qed.

Lemma callErr_run ev answer st :
  callErr ev answer st =
  (match answer with Some e => Err e | None => Ok tt end,
   mkMachine (nca st) (trace st ++ [ev])).
Proof. by destruct answer. Qed.

Lemma call_run {A} ev (answer : result A) st :
  call ev answer st = (answer, mkMachine (nca st) (trace st ++ [ev])).
Proof. done. Qed.

(** ** The runner *)

Lemma inFlight_length r (pending : list string) :
  pending ≠ [] -> (0 < parallel.maxParallel r)%nat ->
  (0 < length (parallel.inFlight r pending) ≤ length pending)%nat.
Proof.
  intros Hne Hpos. unfold parallel.inFlight. rewrite length_take.
  destruct pending; [done|]. simpl. lia.
Qed.

Lemma NewBounedRunner_consumers threads0 failFast0 :
  (0 < parallel.maxParallel (parallel.NewBounedRunner threads0 failFast0))%nat.
Proof. unfold parallel.NewBounedRunner. simpl. lia. Qed.

(** Every task that was added completes, once. *)
Lemma completionFrom_Permutation r next n : ∀ pending,
  (0 < parallel.maxParallel r)%nat ->
  length pending = n ->
  completionFrom r next n pending ≡ₚ pending.
Proof.
  induction n as [|n IH]; intros pending Hpos Hlen.
  - by destruct pending.
  - destruct pending as [|t0 rest] eqn:Hp; [done|]. rewrite <- Hp in *.
    assert (Hne : pending ≠ []) by (by rewrite Hp).
    pose proof (inFlight_length r pending Hne Hpos) as Hwin.
    set (i := (next (parallel.inFlight r pending)
               `mod` length (parallel.inFlight r pending))%nat).
    assert (Hi : (i < length pending)%nat).
    { pose proof (Nat.mod_upper_bound (next (parallel.inFlight r pending))
                    (length (parallel.inFlight r pending))). lia. }
    destruct (lookup_lt_is_Some_2 pending i Hi) as [t Ht].
    assert (Hstep : completionFrom r next (S n) pending
                    = t :: completionFrom r next n (delete i pending)).
    { rewrite Hp at 1. cbn [completionFrom]. rewrite <- Hp. fold i. by rewrite Ht. }
    rewrite Hstep, IH; [by rewrite <- delete_Permutation | done |].
    rewrite length_delete by eauto. lia.
Qed.

(** A runner that does not fail fast runs the tasks one after the other,
    in the order in which they complete. *)
Lemma runFrom_runTasks w r next n : ∀ pending queue st,
  parallel.failFast r = false ->
  parallel.runFrom r next (getDependencyInfoTask w) (ErrorsQueue.AddError 1)
    n pending queue st
  = runTasks w (completionFrom r next n pending) queue st.
Proof.
  induction n as [|n IH]; intros pending queue st Hff; [by destruct pending|].
  destruct pending as [|t0 rest] eqn:Hp; [done|]. rewrite <- Hp.
  assert (Hstep : ∀ i,
    (i = next (parallel.inFlight r pending) `mod` length (parallel.inFlight r pending))%nat ->
    parallel.runFrom r next (getDependencyInfoTask w) (ErrorsQueue.AddError 1)
      (S n) pending queue st
    = match pending !! i with
      | None => (queue, st)
      | Some t =>
          match getDependencyInfoTask w t st with
          | (Ok _, st') =>
              parallel.runFrom r next (getDependencyInfoTask w) (ErrorsQueue.AddError 1)
                n (delete i pending) queue st'
          | (Err e, st') =>
              parallel.runFrom r next (getDependencyInfoTask w) (ErrorsQueue.AddError 1)
                n (delete i pending) (ErrorsQueue.AddError 1 queue e) st'
          end
      end
    ∧ completionFrom r next (S n) pending
      = match pending !! i with
        | None => []
        | Some t => t :: completionFrom r next n (delete i pending)
        end).
  { intros i ->. rewrite Hp. cbn [parallel.runFrom completionFrom]. rewrite Hff.
    split; [|done].
    destruct ((t0 :: rest) !! _) as [t|]; [|done].
    by destruct (getDependencyInfoTask w t st) as [[[]|e] st']. }
  destruct (Hstep _ eq_refl) as [-> ->].
  destruct (pending !! _) as [t|]; [|done]. cbn [runTasks].
  destruct (getDependencyInfoTask w t st) as [[[]|e] st']; by rewrite IH.
Qed.

Lemma completionOrder_Permutation w a :
  completionOrder w a ≡ₚ rangeOrder w (dependencies a).
Proof.
  unfold completionOrder. apply completionFrom_Permutation; [|done].
  apply NewBounedRunner_consumers.
Qed.

Lemma collectDependenciesChecksums_run w st :
  CreateServiceManager w = None ->
  GetDependenciesFromLatestBuild w (BuildName (buildConfiguration (nca st))) = None ->
  collectDependenciesChecksums w st =
  (match head (errorsOf w (dependencies (nca st)) (completionOrder w (nca st))) with
   | Some e => Err e
   | None => Ok tt
   end,
   mkMachine
     (with_dependencies
        (foldl (enrichAt w) (dependencies (nca st)) (completionOrder w (nca st))) (nca st))
     (trace st ++ [EvCreateServiceManager; EvGetDependenciesFromLatestBuild]
        ++ eventsOf (dependencies (nca st)) (completionOrder w (nca st)))).
Proof.
  intros Hsm Hprev. unfold collectDependenciesChecksums, bind, get.
  rewrite callErr_run, Hsm. cbn [nca trace].
  rewrite callErr_run, Hprev. cbn [nca trace]. cbv zeta.
  unfold parallel.Run. rewrite runFrom_runTasks by done.
  fold (completionOrder w (nca st)).
  rewrite runTasks_run. cbn [nca trace].
  unfold ErrorsQueue.GetError. rewrite fold_AddError_head.
  rewrite <- !app_assoc. simpl.
  by destruct (head _).
Qed.

(** C5: once the service manager and the dependencies of the previous
    build are there, the producer adds a task for every key the range over
    the graph yields and the runner, which does not fail fast, runs every
    task that was added, whatever the number of its consumers and whatever
    the other tasks return: the tasks that complete are the keys of the
    graph, each once, and the lookups made are those of the nodes, one for
    each. The pass succeeds exactly when no task recorded an error and
    otherwise returns the first error recorded, in the order in which the
    tasks complete; a node whose lookup finds nothing is left as it was
    and records no error. *)
Theorem enrichment_attempts_every_node (w : World) (st : machine) :
  CreateServiceManager w = None ->
  GetDependenciesFromLatestBuild w (BuildName (buildConfiguration (nca st))) = None ->
  rangeOrder w (dependencies (nca st)) ≡ₚ keys (dependencies (nca st)) ->
  completionOrder w (nca st) ≡ₚ keys (dependencies (nca st))
  ∧ (∃ lookups,
       trace (collectDependenciesChecksums w st).2
       = trace st ++ [EvCreateServiceManager; EvGetDependenciesFromLatestBuild] ++ lookups
       ∧ lookups ≡ₚ eventsOf (dependencies (nca st)) (keys (dependencies (nca st))))
  ∧ (∀ k d, dependencies (nca st) !! k = Some d ->
          EvGetDependencyInfo (name d) (version d)
          ∈ trace (collectDependenciesChecksums w st).2)
  ∧ (collectDependenciesChecksums w st).1 =
      match head (errorsOf w (dependencies (nca st)) (completionOrder w (nca st))) with
      | Some e => Err e
      | None => Ok tt
      end
  ∧ ((collectDependenciesChecksums w st).1 = Ok tt ↔
     ∀ k d, dependencies (nca st) !! k = Some d ->
            (GetDependencyInfo w (name d) (version d)).2 = None)
  ∧ (∀ k d t, dependencies (nca st) !! k = Some d ->
              GetDependencyInfo w (name d) (version d) = (None, t, None) ->
              dependencies (nca (collectDependenciesChecksums w st).2) !! k = Some d
              ∧ taskError w (dependencies (nca st)) k = None)
  ∧ dependencies (nca (collectDependenciesChecksums w st).2)
    = enrichNode w <$> dependencies (nca st).
Proof.
  intros Hsm Hprev Hrange.
  assert (Horder : completionOrder w (nca st) ≡ₚ keys (dependencies (nca st)))
    by (by rewrite completionOrder_Permutation).
  rewrite (collectDependenciesChecksums_run w st Hsm Hprev). cbn [fst snd nca trace].
  set (g := dependencies (nca st)) in *. set (order := completionOrder w (nca st)) in *.
  rewrite dependencies_with.
  assert (Hall : ∀ k, is_Some (g !! k) -> k ∈ order).
  { intros k Hk. rewrite Horder. by apply keys_dom. }
  assert (Hgraph : foldl (enrichAt w) g order = enrichNode w <$> g).
  { apply map_eq. intros k. rewrite fold_enrichAt_lookup, lookup_fmap.
    destruct (decide (k ∈ order)) as [_|Hnin]; [done|].
    destruct (g !! k) as [d|] eqn:Hd; [|done].
    exfalso. apply Hnin, Hall. eauto. }
  split; [done|]. split.
  { exists (eventsOf g order). split; [done|]. unfold eventsOf. by rewrite Horder. }
  split; [|split; [done|split; [|split]]].
  - intros k d Hd. apply elem_of_app. right. apply elem_of_app. right.
    unfold eventsOf. apply list_elem_of_bind. exists k. split; [|apply Hall; eauto].
    unfold taskEvents. rewrite Hd. left.
  - assert (Hhead : head (errorsOf w g order) = None ↔
                    ∀ k d, g !! k = Some d ->
                           (GetDependencyInfo w (name d) (version d)).2 = None).
    { split.
      - intros Hnone k d Hd.
        destruct (GetDependencyInfo w (name d) (version d)).2 as [e|] eqn:He; [|done].
        assert (Hin : e ∈ errorsOf w g order).
        { apply list_elem_of_omap. exists k. split; [apply Hall; eauto|].
          unfold taskError. by rewrite Hd. }
        destruct (errorsOf w g order); [inversion Hin | discriminate].
      - intros Hnone. destruct (errorsOf w g order) as [|e errs] eqn:Herrs; [done|].
        assert (Hin : e ∈ errorsOf w g order) by (rewrite Herrs; left).
        apply list_elem_of_omap in Hin as (k & Hk & He).
        unfold taskError in He. rewrite Horder in Hk. apply keys_dom in Hk as [d Hd].
        rewrite Hd in He. rewrite (Hnone k d Hd) in He. discriminate. }
    rewrite <- Hhead. destruct (head (errorsOf w g order)); split; intros; done.
  - intros k d t Hd Hlookup. rewrite Hgraph, lookup_fmap, Hd. simpl.
    unfold enrichNode, taskError. rewrite Hd, Hlookup. done.
  - exact Hgraph.
Qed.

Lemma enrichment_attempts_every_node_witness :
  (collectDependenciesChecksums flakyWorld parsedMachine).1 = Err "503 Service Unavailable"
  ∧ dependencies (nca (collectDependenciesChecksums flakyWorld parsedMachine).2)
    = enrichNode flakyWorld <$> parsedGraph.
Proof.
  split; [by vm_compute|].
  apply (enrichment_attempts_every_node flakyWorld parsedMachine).
  - reflexivity.
  - reflexivity.
  - reflexivity.
Defined.

Example enrichment_after_a_failure :
  checksum <$> dependencies (nca (collectDependenciesChecksums flakyWorld parsedMachine).2)
               !! "e:5.0.0"
  = Some (Some (mkChecksum "3da5" "9e10"))
  ∧ List.filter isLookup
      (trace (collectDependenciesChecksums flakyWorld parsedMachine).2)
    = [EvGetDependencyInfo "d" "4.0.0"; EvGetDependencyInfo "e" "5.0.0";
       EvGetDependencyInfo "c" "3.0.0"].
Proof. split; by vm_compute. Qed.

(** ** Prerequisites: the npm version *)

Lemma compareFrom_beyond v steps : ∀ i,
  (3 ≤ i)%nat ->
  (Version.compareFrom steps i minSupportedNpmVersion v ≤ 0)%Z.
Proof.
  induction steps as [|steps IH]; intros i Hi; cbn [Version.compareFrom]; [lia|].
  assert (Hmin : nth i minSupportedNpmVersion 0%N = 0%N)
    by (apply nth_overflow; simpl; lia).
  rewrite Hmin. unfold Version.compareTokens.
  destruct (nth i v 0 <? 0)%N eqn:H1; [apply N.ltb_lt in H1; lia|].
  destruct (0 <? nth i v 0)%N.
  - rewrite decide_False by lia. lia.
  - rewrite decide_True by done. apply IH. lia.
Qed.

Lemma compareTokens_cases (a b : N) :
  (Version.compareTokens a b = 1%Z ∧ (b < a)%N)
  ∨ (Version.compareTokens a b = (-1)%Z ∧ (a < b)%N)
  ∨ (Version.compareTokens a b = 0%Z ∧ a = b).
Proof.
  unfold Version.compareTokens.
  destruct (b <? a)%N eqn:H1; [apply N.ltb_lt in H1; by left|].
  apply N.ltb_ge in H1.
  destruct (a <? b)%N eqn:H2; [apply N.ltb_lt in H2; right; by left|].
  apply N.ltb_ge in H2. right. right. split; [done | lia].
Qed.

Lemma Compare_minimum (v : Version.t) :
  (Version.Compare v minSupportedNpmVersion > 0)%Z ↔ lowerThanMinimum v.
Proof.
  unfold Version.Compare, lowerThanMinimum, major, minor.
  assert (Hsteps : ∃ k, length minSupportedNpmVersion `max` length v = S (S (S k))).
  { exists (length minSupportedNpmVersion `max` length v - 3)%nat. simpl. lia. }
  destruct Hsteps as [k ->].
  pose proof (compareFrom_beyond v k 3 (le_n 3)) as Hrest.
  cbn [Version.compareFrom].
  change (nth 0 minSupportedNpmVersion 0%N) with 5%N.
  change (nth 1 minSupportedNpmVersion 0%N) with 4%N.
  change (nth 2 minSupportedNpmVersion 0%N) with 0%N.
  destruct (compareTokens_cases 5 (nth 0 v 0%N)) as [[-> Ha]|[[-> Ha]|[-> Ha]]].
  - rewrite decide_False by lia. split; [intros _; by left | lia].
  - rewrite decide_False by lia. split; [lia | intros [?|[? ?]]; lia].
  - rewrite decide_True by done.
    destruct (compareTokens_cases 4 (nth 1 v 0%N)) as [[-> Hb]|[[-> Hb]|[-> Hb]]].
    + rewrite decide_False by lia. split; [intros _; right; by split | lia].
    + rewrite decide_False by lia. split; [lia | intros [?|[? ?]]; lia].
    + rewrite decide_True by done.
      destruct (compareTokens_cases 0 (nth 2 v 0%N)) as [[-> Hc]|[[-> Hc]|[-> Hc]]].
      * lia.
      * rewrite decide_False by lia. split; [lia | intros [?|[? ?]]; lia].
      * rewrite decide_True by done. split; [lia | intros [?|[? ?]]; lia].
Qed.

Lemma setNpmExecutable_run w st npmExecPath :
  LookPath w "npm" = Ok npmExecPath ->
  npmExecPath ≠ "" ->
  setNpmExecutable w st = (Ok tt, afterSetNpmExecutable npmExecPath st).
Proof.
  intros Hlook Hne. unfold setNpmExecutable, bind. rewrite call_run, Hlook.
  by rewrite decide_False.
Qed.

Lemma validateNpmVersion_run w st v :
  Version_ w (executablePath (nca st)) = Ok v ->
  validateNpmVersion w st =
  if decide (Version.Compare v minSupportedNpmVersion > 0)%Z
  then (Err (unsupportedVersionError (command (nca st))),
        mkMachine (nca st) (trace st ++ [EvVersion]))
  else (Ok tt, mkMachine (with_npmVersion (Some v) (nca st)) (trace st ++ [EvVersion])).
Proof.
  intros Hv. unfold validateNpmVersion, bind, get. rewrite call_run, Hv.
  by destruct (decide _).
Qed.

(** C8: once npm is found, a version lower than 5.4.0 makes the version
    check fail and the command return that error, having changed no file,
    installed nothing and persisted nothing; a version equal to or higher
    than 5.4.0 passes the check and is kept. *)
Theorem unsupported_npm_version_aborts (w : World) (st : machine)
    (npmExecPath : string) (v : Version.t) :
  LookPath w "npm" = Ok npmExecPath ->
  npmExecPath ≠ "" ->
  Version_ w npmExecPath = Ok v ->
  (lowerThanMinimum v ->
     validateNpmVersion w (afterSetNpmExecutable npmExecPath st) =
       (Err (unsupportedVersionError (command (nca st))),
        mkMachine (with_executablePath npmExecPath (nca st))
          (trace st ++ [EvLookPath "npm"; EvVersion]))
     ∧ run w st =
       (Err (unsupportedVersionError (command (nca st))),
        mkMachine (with_executablePath npmExecPath (nca st))
          (trace st ++ [EvLookPath "npm"; EvVersion]))
     ∧ List.filter isMutation (trace (run w st).2) = List.filter isMutation (trace st))
  ∧ (¬ lowerThanMinimum v ->
     validateNpmVersion w (afterSetNpmExecutable npmExecPath st) =
       (Ok tt,
        mkMachine (with_npmVersion (Some v) (with_executablePath npmExecPath (nca st)))
          (trace st ++ [EvLookPath "npm"; EvVersion]))).
Proof.
  intros Hlook Hne Hv.
  assert (Hv' : Version_ w (executablePath (nca (afterSetNpmExecutable npmExecPath st)))
                = Ok v) by (by destruct st as [[] ?]).
  pose proof (validateNpmVersion_run w _ v Hv') as Hval.
  assert (Hcmd : command (nca (afterSetNpmExecutable npmExecPath st)) = command (nca st))
    by (by destruct st as [[] ?]).
  rewrite Hcmd in Hval. cbn [afterSetNpmExecutable nca trace] in Hval.
  rewrite <- app_assoc in Hval. cbn [app] in Hval.
  split.
  - intros Hlow. apply Compare_minimum in Hlow.
    rewrite decide_True in Hval by done.
    assert (Hrun : run w st =
              (Err (unsupportedVersionError (command (nca st))),
               mkMachine (with_executablePath npmExecPath (nca st))
                 (trace st ++ [EvLookPath "npm"; EvVersion]))).
    { unfold run, bind at 1, get. unfold bind at 1. unfold preparePrerequisites.
      unfold bind at 1. rewrite (setNpmExecutable_run w st npmExecPath Hlook Hne).
      unfold bind at 1. by rewrite Hval. }
    split; [done|]. split; [done|].
    rewrite Hrun. cbn [snd trace]. rewrite List.filter_app. simpl. by rewrite app_nil_r.
  - intros Hnot. rewrite decide_False in Hval; [done|].
    intros H. by apply Hnot, Compare_minimum.
Qed.

Lemma unsupported_npm_version_aborts_witness :
  run (exampleWorld [5; 3; 9]%N "false" true None None notFound (read (TObject [])))
      (freshMachine "install")
  = (Err "JFrog CLI npm install command requires npm client version 5.4.0 or higher",
     mkMachine (with_executablePath "/usr/bin/npm" (NewNpmCommandArgs "install"))
       [EvLookPath "npm"; EvVersion]).
Proof.
  apply (proj1 (unsupported_npm_version_aborts
                  (exampleWorld [5; 3; 9]%N "false" true None None notFound (read (TObject [])))
                  (freshMachine "install") "/usr/bin/npm" [5; 3; 9]%N
                  eq_refl ltac:(discriminate) eq_refl)).
  right. split; [reflexivity | reflexivity].
Defined.

Example minimum_version_is_supported :
  (validateNpmVersion (exampleWorld [5; 4; 0]%N "false" true None None notFound (read (TObject [])))
     (afterSetNpmExecutable "/usr/bin/npm" (freshMachine "ci"))).1 = Ok tt.
Proof. reflexivity. Qed.

(** ** Prerequisites: the [json] setting *)

(** C9, as amended: a [json] value that is not a boolean is not an error:
    every value other than "false" sets the JSON output to true and the
    preparation goes on. Only a failure to read the value is fatal, and the
    command then returns that error having changed no file. *)
Theorem json_value_is_never_ambiguous (w : World) (st : machine) :
  (∀ value,
     ConfigGet w (npmArgs (nca st)) "json" (executablePath (nca st)) = Ok value ->
     setJsonOutput w st =
       (Ok tt,
        mkMachine (with_jsonOutput (bool_decide (value ≠ "false")) (nca st))
          (trace st ++ [EvConfigGet "json"])))
  ∧ (∀ npmExecPath v e,
       LookPath w "npm" = Ok npmExecPath -> npmExecPath ≠ "" ->
       Version_ w npmExecPath = Ok v -> ¬ lowerThanMinimum v ->
       ConfigGet w (npmArgs (nca st)) "json" npmExecPath = Err e ->
       (run w st).1 = Err e
       ∧ trace (run w st).2 = trace st ++ [EvLookPath "npm"; EvVersion; EvConfigGet "json"]).
Proof.
  split.
  - intros value Hget. unfold setJsonOutput, bind, get. by rewrite call_run, Hget.
  - intros npmExecPath v e Hlook Hne Hv Hnot Hget.
    assert (Hrun : run w st =
              (Err e,
               mkMachine (with_npmVersion (Some v) (with_executablePath npmExecPath (nca st)))
                 (trace st ++ [EvLookPath "npm"; EvVersion; EvConfigGet "json"]))).
    { unfold run, bind at 1, get. unfold bind at 1. unfold preparePrerequisites.
      unfold bind at 1. rewrite (setNpmExecutable_run w st npmExecPath Hlook Hne).
      unfold bind at 1.
      assert (Hv' : Version_ w (executablePath (nca (afterSetNpmExecutable npmExecPath st)))
                    = Ok v) by (by destruct st as [[] ?]).
      rewrite (validateNpmVersion_run w _ v Hv').
      rewrite decide_False by (intros H; by apply Hnot, Compare_minimum).
      unfold bind at 1. unfold setJsonOutput, bind at 1, get. unfold bind at 1.
      rewrite call_run.
      assert (Hget' : ConfigGet w
                (npmArgs (nca (mkMachine
                   (with_npmVersion (Some v) (nca (afterSetNpmExecutable npmExecPath st)))
                   (trace (afterSetNpmExecutable npmExecPath st) ++ [EvVersion]))))
                "json"
                (executablePath (nca (mkMachine
                   (with_npmVersion (Some v) (nca (afterSetNpmExecutable npmExecPath st)))
                   (trace (afterSetNpmExecutable npmExecPath st) ++ [EvVersion]))))
                = Err e) by (by destruct st as [[] ?]).
      rewrite Hget'. cbn [fst snd nca trace afterSetNpmExecutable].
      by rewrite <- !app_assoc. }
    by rewrite Hrun.
Qed.

Lemma json_value_is_never_ambiguous_witness :
  setJsonOutput maybeWorld (freshMachine "install") =
  (Ok tt,
   mkMachine (with_jsonOutput (bool_decide ("maybe" ≠ "false")) (NewNpmCommandArgs "install"))
     [EvConfigGet "json"]).
Proof.
  apply (proj1 (json_value_is_never_ambiguous maybeWorld (freshMachine "install")) "maybe").
  reflexivity.
Defined.

(** With [json = maybe] the preparation does not fail, the JSON output is
    on, and the command goes on to write .npmrc and to run npm. *)
Lemma non_boolean_json_is_not_fatal :
  ConfigGet maybeWorld [] "json" "/usr/bin/npm" = Ok "maybe"
  ∧ ¬ (∃ e, (preparePrerequisites maybeWorld "" (freshMachine "install")).1 = Err e)
  ∧ jsonOutput (nca (preparePrerequisites maybeWorld "" (freshMachine "install")).2) = true
  ∧ (run maybeWorld (freshMachine "install")).1 = Ok tt
  ∧ existsb isMutation (trace (run maybeWorld (freshMachine "install")).2) = true.
Proof.
  split; [reflexivity|]. split; [|split; [|split]]; try (by vm_compute).
  intros [e He]. vm_compute in He. discriminate He.
Qed.

(** ** The driver: errors after .npmrc was replaced *)

Lemma prefix_app (s t : string) : String.prefix s (s +:+ t) = true.
Proof.
  induction s as [|c s IH]; simpl; [by destruct t|].
  destruct (Ascii.ascii_dec c c); [exact IH | done].
Qed.

Lemma prefix_refl (s : string) : String.prefix s s = true.
Proof.
  induction s as [|c s IH]; simpl; [done|].
  destruct (Ascii.ascii_dec c c); [exact IH | done].
Qed.

Lemma Contains_of_prefix (u s : string) :
  String.prefix s u = true -> strings.Contains u s = true.
Proof. intros H. destruct u; cbn [strings.Contains]; by rewrite H. Qed.

Lemma Contains_app_r (x t s : string) :
  strings.Contains t s = true -> strings.Contains (x +:+ t) s = true.
Proof.
  intros H. induction x as [|c x IH]; [done|].
  change (String c x +:+ t) with (String c (x +:+ t)).
  cbn [strings.Contains]. rewrite IH. apply orb_true_r.
Qed.

Lemma twoErrors_contains (restoreErr err : error) :
  strings.Contains (twoErrors restoreErr err) restoreErr = true
  ∧ strings.Contains (twoErrors restoreErr err) err = true.
Proof.
  unfold twoErrors. split.
  - do 3 apply Contains_app_r. apply Contains_of_prefix, prefix_app.
  - do 6 apply Contains_app_r. apply Contains_of_prefix, prefix_refl.
Qed.

Lemma restoreNpmrcAndError_run err st :
  restoreNpmrcAndError err st =
  (match restoreNpmrcFunc (nca st) with
   | Some restoreErr => twoErrors restoreErr err
   | None => err
   end,
   mkMachine (nca st) (trace st ++ [EvRestoreNpmrc])).
Proof.
  unfold restoreNpmrcAndError, callRestoreNpmrcFunc, bind, get.
  rewrite callErr_run. by destruct (restoreNpmrcFunc (nca st)).
Qed.

(** C7: when the creation of the temporary .npmrc or the run of npm fails,
    the restoration is attempted; if it fails too the command returns one
    error whose message holds the message of the restoration failure and
    the message of the first failure, and if it succeeds the command
    returns the first failure as it is. *)
Theorem restoration_failure_is_combined (w : World) (st st1 st2 : machine) (err : error) :
  preparePrerequisites w (repo (nca st)) st = (Ok tt, st1) ->
  (createTempNpmrc w st1 = (Err err, st2)
   ∨ ∃ st1', createTempNpmrc w st1 = (Ok tt, st1')
             ∧ runInstallOrCi w st1' = (Err err, st2)) ->
  run w st =
    (Err match restoreNpmrcFunc (nca st2) with
         | Some restoreErr => twoErrors restoreErr err
         | None => err
         end,
     mkMachine (nca st2) (trace st2 ++ [EvRestoreNpmrc]))
  ∧ ∀ restoreErr,
      strings.Contains (twoErrors restoreErr err) restoreErr = true
      ∧ strings.Contains (twoErrors restoreErr err) err = true.
Proof.
  intros Hprep Hfail. split; [|intros r; apply twoErrors_contains].
  pose proof (restoreNpmrcAndError_run err st2) as Hrestore.
  unfold run, bind at 1, get. unfold bind at 1. rewrite Hprep.
  destruct Hfail as [Hcreate|(st1' & Hcreate & Hinstall)].
  - unfold bind at 1, orReturn at 1. by rewrite Hcreate, Hrestore.
  - unfold bind at 1, orReturn at 1. rewrite Hcreate.
    unfold bind at 1, orReturn at 1. by rewrite Hinstall, Hrestore.
Qed.

Lemma restoration_failure_is_combined_witness :
  (run doubleFailureWorld (freshMachine "install")).1 =
  Err (twoErrors "rename .npmrc: permission denied" "exit status 1").
Proof.
  pose proof (restoration_failure_is_combined doubleFailureWorld
                (freshMachine "install")
                (preparePrerequisites doubleFailureWorld "" (freshMachine "install")).2
                (runInstallOrCi doubleFailureWorld
                   (createTempNpmrc doubleFailureWorld
                      (preparePrerequisites doubleFailureWorld ""
                         (freshMachine "install")).2).2).2
                "exit status 1") as H.
  destruct H as [H _].
  - vm_compute. reflexivity.
  - right. eexists. split; vm_compute; reflexivity.
  - rewrite H. vm_compute. reflexivity.
Defined.

(** ** The driver: npm arguments and the build info *)

Lemma filterFlags_nonempty (args : list string) :
  filterFlags args ≠ [] ↔ ∃ arg, arg ∈ args ∧ strings.HasPrefix arg "-" = false.
Proof.
  induction args as [|a args IH]; simpl.
  - split; [done | intros (arg & H & _); inversion H].
  - destruct (strings.HasPrefix a "-") eqn:Ha; simpl.
    + rewrite IH. split.
      * intros (arg & H & Hp). exists arg. split; [by right | done].
      * intros (arg & H & Hp). apply elem_of_cons in H as [->|H]; [congruence|].
        by exists arg.
    + split; [|done]. intros _. exists a. split; [left | done].
Qed.

(** C10: when the build info is asked for and an argument of npm is not a
    flag, the command warns and gives the build info up: npm is run, .npmrc
    is restored, and the command succeeds without listing the dependencies,
    looking any checksum up or saving a manifest. *)
Theorem build_info_is_skipped_with_arguments (w : World) (st st1 st2 : machine) :
  preparePrerequisites w (repo (nca st)) st = (Ok tt, st1) ->
  createTempNpmrc w st1 = (Ok tt, st2) ->
  collectBuildInfo (nca st2) = true ->
  (∃ arg, arg ∈ npmArgs (nca st2) ∧ strings.HasPrefix arg "-" = false) ->
  RunCmd w (runCmdConfig (nca st2)) = None ->
  restoreNpmrcFunc (nca st2) = None ->
  run w st =
    (Ok tt,
     mkMachine (with_collectBuildInfo false (nca st2))
       (trace st2 ++ [EvWarn buildInfoSkippedWarning;
                      EvRunCmd (runCmdConfig (nca st2));
                      EvRestoreNpmrc])).
Proof.
  intros Hprep Hcreate Hcollect Hargs Hcmd Hrestore.
  apply filterFlags_nonempty in Hargs.
  assert (Hinstall : runInstallOrCi w st2 =
            (Ok tt,
             mkMachine (with_collectBuildInfo false (nca st2))
               (trace st2 ++ [EvWarn buildInfoSkippedWarning;
                              EvRunCmd (runCmdConfig (nca st2))]))).
  { unfold runInstallOrCi, bind at 1, get. unfold bind at 1.
    rewrite Hcollect.
    destruct (filterFlags (npmArgs (nca st2))) as [|arg rest] eqn:Hf; [done|].
    cbn [length Nat.ltb Nat.leb andb]. unfold bind at 1, emit, modify. cbn [nca trace].
    rewrite callErr_run. unfold runCmdConfig in Hcmd. rewrite Hf in Hcmd.
    rewrite Hcmd. cbn [nca trace]. unfold runCmdConfig. rewrite Hf.
    by rewrite <- app_assoc. }
  unfold run, bind at 1, get. unfold bind at 1. rewrite Hprep.
  unfold bind at 1, orReturn at 1. rewrite Hcreate.
  unfold bind at 1, orReturn at 1. rewrite Hinstall.
  unfold bind at 1, callRestoreNpmrcFunc, bind at 1, get.
  rewrite callErr_run. cbn [nca trace].
  assert (Hr : restoreNpmrcFunc (with_collectBuildInfo false (nca st2)) = None)
    by (by destruct st2 as [[] ?]).
  rewrite Hr. unfold bind at 1. cbn [nca].
  assert (Hc : collectBuildInfo (with_collectBuildInfo false (nca st2)) = false)
    by (by destruct st2 as [[] ?]).
  rewrite Hc. cbn [negb]. unfold ret. by rewrite <- app_assoc.
Qed.

Lemma build_info_is_skipped_with_arguments_witness :
  run quietWorld argsMachine =
  (Ok tt,
   mkMachine (with_collectBuildInfo false (nca argsConfigured))
     (trace argsConfigured ++ [EvWarn buildInfoSkippedWarning;
                               EvRunCmd (runCmdConfig (nca argsConfigured));
                               EvRestoreNpmrc])).
Proof.
  apply (build_info_is_skipped_with_arguments quietWorld argsMachine
           argsPrepared argsConfigured).
  - vm_compute. reflexivity.
  - vm_compute. reflexivity.
  - vm_compute. reflexivity.
  - exists "lodash". split; [left | reflexivity].
  - reflexivity.
  - vm_compute. reflexivity.
Defined.

Example build_info_is_skipped_trace :
  trace (run quietWorld argsMachine).2 =
  [EvLookPath "npm"; EvVersion; EvConfigGet "json"; EvGetWorkingDirectory;
   EvCreateArtAuthConfig; EvGetArtifactoryNpmRepoDetails; EvPrepareBuildInfo;
   EvBackupFile "/project/.npmrc" "/project/jfrog.npmrc.backup";
   EvGetConfigList; EvStat "/project/.npmrc";
   EvWriteFile "/project/.npmrc"
     ("omit = " +:+ newline +:+ "loglevel = notice" +:+ newline +:+
      "json = false" +:+ newline +:+
      "registry = https://artifactory/api/npm/npm-virtual/" +:+ newline +:+
      "_auth = secret");
   EvWarn buildInfoSkippedWarning;
   EvRunCmd (mkNpmConfig "/usr/bin/npm" ["install"; "lodash"] []);
   EvRestoreNpmrc].
Proof. by vm_compute. Qed.

(** * Properties of the rest of the command

    ** Events of composed computations *)

Lemma emits_ret {A} P (a : A) : emits P (ret a).
Proof. intros st. exists []. by rewrite app_nil_r. Qed.

Lemma emits_fail {A} P e : emits P (fail (A := A) e).
Proof. intros st. exists []. by rewrite app_nil_r. Qed.

Lemma emits_get P : emits P get.
Proof. intros st. exists []. by rewrite app_nil_r. Qed.

Lemma emits_modify P f : emits P (modify f).
Proof. intros st. exists []. by rewrite app_nil_r. Qed.

Lemma emits_emit (P : Event -> Prop) ev : P ev -> emits P (emit ev).
Proof. intros H st. exists [ev]. split; [done | by constructor]. Qed.

Lemma emits_bind {A B} P (m : M A) (k : A -> M B) :
  emits P m -> (∀ a, emits P (k a)) -> emits P (bind m k).
Proof.
  intros Hm Hk st. unfold bind. destruct (Hm st) as (evs & Htr & Hevs).
  destruct (m st) as [[a|e] st'] eqn:Hmst; simpl in *.
  - destruct (Hk a st') as (evs' & Htr' & Hevs').
    exists (evs ++ evs'). rewrite Htr', Htr, <- app_assoc.
    split; [done | by apply Forall_app].
  - by exists evs.
Qed.

Lemma emits_call {A} (P : Event -> Prop) ev (answer : result A) :
  P ev -> emits P (call ev answer).
Proof. intros H st. exists [ev]. split; [done | by constructor]. Qed.

Lemma emits_callErr (P : Event -> Prop) ev answer : P ev -> emits P (callErr ev answer).
Proof.
  intros H st. exists [ev]. rewrite callErr_run. split; [done | by constructor].
Qed.

Lemma emits_impl {A} (P Q : Event -> Prop) (m : M A) :
  (∀ ev, P ev -> Q ev) -> emits P m -> emits Q m.
Proof.
  intros HPQ Hm st. destruct (Hm st) as (evs & Htr & Hevs).
  exists evs. split; [done|]. eapply Forall_impl; eauto.
Qed.

Ltac emits_step :=
  first
    [ apply emits_ret | apply emits_fail | apply emits_get | apply emits_modify
    | apply emits_emit; done | apply emits_call; done | apply emits_callErr; done
    | apply emits_bind; [|intros ?]
    | match goal with
      | |- emits _ (if ?c then _ else _) => destruct c
      | |- emits _ (match ?x with _ => _ end) => destruct x
      | |- emits _ (let '(_, _) := ?x in _) => destruct x
      end ].

Ltac emits_auto := repeat emits_step.

(** ** The events of the stages of the command *)

Lemma prepareConfigData_trace data st :
  trace (prepareConfigData data st).2 = trace st.
Proof.
  unfold prepareConfigData. destruct (bufio.ScanLines data) as [tokens scanErr].
  destruct (fold_left _ tokens ([], nca st)) as [conf a].
  by destruct scanErr.
Qed.










(** ** The restoration of .npmrc *)

Lemma callRestoreNpmrcFunc_run st :
  callRestoreNpmrcFunc st =
  (match restoreNpmrcFunc (nca st) with Some e => Err e | None => Ok tt end,
   mkMachine (nca st) (trace st ++ [EvRestoreNpmrc])).
Proof. unfold callRestoreNpmrcFunc, bind, get. by rewrite callErr_run. Qed.


(** ** The prerequisites *)

Lemma backupLast_bind {A B} (m : M A) (k : A -> M B) :
  emits (fun ev => touchesProject ev = false) m ->
  (∀ a, backupLast (k a)) ->
  backupLast (bind m k).
Proof.
  intros Hm Hk st. unfold bind. destruct (Hm st) as (evs & Htr & Hevs).
  destruct (m st) as [[a|e] st'] eqn:Hmst; cbn [fst snd] in *.
  - destruct (Hk a st') as (evs2 & Htr2 & Hcases).
    exists (evs ++ evs2). rewrite Htr2, Htr, <- app_assoc. split; [done|].
    destruct Hcases as [[Herr Hevs2]|(evs' & p & b & -> & Hevs')].
    + left. split; [done | by apply Forall_app].
    + right. exists (evs ++ evs'), p, b. rewrite <- app_assoc.
      split; [done | by apply Forall_app].
  - exists evs. split; [done|]. left. split; [by exists e | done].
Qed.

Lemma backupLast_call {A} path backup (answer : result A) (f : A -> NpmCommandArgs -> NpmCommandArgs) :
  backupLast (do restore <- call (EvBackupFile path backup) answer; modify (f restore)).
Proof.
  intros st. exists [EvBackupFile path backup]. unfold bind. rewrite call_run.
  split; [by destruct answer|].
  right. exists [], path, backup. split; [done | constructor].
Qed.

(** X2: the preparation of the prerequisites touches the project
    directory by nothing but the backup of .npmrc, which is the last thing
    it does: when it fails at an earlier step (npm not found, npm too old,
    SSH authentication, ...) nothing in the project was touched, and when
    it succeeds the backup was made. *)
Theorem prerequisites_end_with_the_backup (w : World) (repo0 : string) (st : machine) :
  ∃ evs, trace (preparePrerequisites w repo0 st).2 = trace st ++ evs ∧
    ((∃ e, (preparePrerequisites w repo0 st).1 = Err e)
     ∧ Forall (fun ev => touchesProject ev = false) evs
     ∨ ∃ evs' path backup,
         evs = evs' ++ [EvBackupFile path backup] ∧
         Forall (fun ev => touchesProject ev = false) evs').
Proof.
  revert st. change (backupLast (preparePrerequisites w repo0)).
  unfold preparePrerequisites, setNpmExecutable, validateNpmVersion, setJsonOutput,
    setArtifactoryAuth.
  repeat (cbv zeta;
          lazymatch goal with
          | |- backupLast (bind (call (EvBackupFile _ _) _) _) => fail
          | |- _ => apply backupLast_bind; [emits_auto | intros ?]
          end).
  apply (backupLast_call _ _ _ (fun restore => with_restoreNpmrcFunc restore)).
Qed.

(** A server that authenticates with SSH keys is refused before the
    project is touched. *)
Example ssh_authentication_is_refused :
  let w := mkWorld (LookPath quietWorld) (Version_ quietWorld) (ConfigGet quietWorld)
             (GetConfigList quietWorld) (GetWorkingDirectory quietWorld)
             (Ok (mkAuthDetails (Some [("X-SSH", "key")])))
             (GetArtifactoryNpmRepoDetails quietWorld) (PrepareBuildInfo quietWorld)
             (BackupFile quietWorld) (Join quietWorld) (Stat quietWorld)
             (Remove quietWorld) (WriteFile quietWorld) (RunCmd quietWorld)
             (RunList quietWorld) (CreateServiceManager quietWorld)
             (GetDependenciesFromLatestBuild quietWorld) (GetDependencyInfo quietWorld)
             (SaveDependenciesData quietWorld) (fun _ => 0%nat) keys in
  run w (freshMachine "install")
  = (Err "SSH authentication is not supported in this command",
     mkMachine
       (with_workingDirectory "/project"
          (with_jsonOutput false
             (with_npmVersion (Some [6; 14; 8]%N)
                (with_executablePath "/usr/bin/npm" (NewNpmCommandArgs "install")))))
       [EvLookPath "npm"; EvVersion; EvConfigGet "json"; EvGetWorkingDirectory;
        EvCreateArtAuthConfig]).
Proof. by vm_compute. Qed.

(** ** The graph under a walk *)

Lemma grows_refl d : grows d d.
Proof. by repeat split. Qed.

Lemma grows_trans d1 d2 d3 : grows d1 d2 -> grows d2 d3 -> grows d1 d3.
Proof.
  intros (?&?&?&?&?&?) (?&?&?&?&?&?).
  repeat split; try congruence; by etrans.
Qed.

Lemma appendDependency_grows key n v s p (g : gmap string dependency) k d :
  g !! k = Some d ->
  ∃ d', appendDependency key n v s p g !! k = Some d' ∧ grows d d'.
Proof.
  intros Hd. destruct (decide (k = key)) as [->|Hne].
  - rewrite appendDependency_lookup, Hd. eexists. split; [done|].
    repeat split; simpl.
    + destruct (scopeAlreadyExists s (scopes d)); [done | by apply prefix_app_r].
    + by apply prefix_app_r.
  - rewrite appendDependency_lookup_ne by done. exists d. split; [done | apply grows_refl].
Qed.

Lemma fold_grows vs : ∀ (g : gmap string dependency) k d,
  g !! k = Some d ->
  ∃ d', foldl applyVisit g vs !! k = Some d' ∧ grows d d'.
Proof.
  induction vs as [|v vs IH]; intros g k d Hd; simpl.
  - exists d. split; [done | apply grows_refl].
  - destruct (appendDependency_grows (vKey v) (vName v) (vVersion v) (vScope v) (vPath v)
                g k d Hd) as (d1 & Hd1 & Hg1).
    destruct (IH _ k d1 Hd1) as (d2 & Hd2 & Hg2).
    exists d2. split; [done | by eapply grows_trans].
Qed.

(** X3: a walk never removes a node and never changes the name, the
    version, the file type or the checksum of a node that is there; the
    scopes and the paths of such a node only get entries added at their
    end. This holds also for a walk that stops with an error. *)
Theorem walk_only_adds (data : json) (scope : string) (root : list string)
    (g : gmap string dependency) (k : string) (d : dependency) :
  g !! k = Some d ->
  ∃ d', (parseDependencies data scope root g).1 !! k = Some d' ∧ grows d d'.
Proof. intros Hd. rewrite parseDependencies_visits. by apply fold_grows. Qed.

Lemma walk_only_adds_witness :
  ∃ d', (parseDependencies revisitListing "dev" ["app:1.0.0"] enrichedScenario).1
          !! "d:4.0.0" = Some d'
        ∧ grows (mkDependency "d" "4.0.0" ["prod"] "tgz"
                   (Some (mkChecksum "3da5" "9e10")) [["app:1.0.0"]]) d'.
Proof.
  apply (walk_only_adds revisitListing "dev" ["app:1.0.0"] enrichedScenario "d:4.0.0").
  vm_compute. reflexivity.
Defined.

(** X4: the paths a walk adds to a node are the paths of its visits to
    that node, one for each visit and in the order of the visits: a
    dependency reached through several chains of ancestors, or several
    times through the same one, gets a path for each time. *)
Theorem walk_records_every_visit (data : json) (scope : string) (root : list string)
    (g : gmap string dependency) (k : string) :
  pathsAt (parseDependencies data scope root g).1 k =
  pathsAt g k ++ (vPath <$> filter (fun v => vKey v = k) (visits data scope root)).
Proof. rewrite parseDependencies_visits. apply fold_pathsAt. Qed.

Example revisit_paths :
  pathsAt (parseDependencies revisitListing "dev" ["app:1.0.0"] enrichedScenario).1 "d:4.0.0"
  = [["app:1.0.0"]; ["app:1.0.0"]; ["x:1.0.0"; "app:1.0.0"]].
Proof. by vm_compute. Qed.

(** ** The errors of a walk *)

Lemma eachVisits_head step (errs : string -> list error) entries ending :
  (∀ k, k ∈ entries.*1 -> (step k).2 = head (errs k)) ->
  (eachVisits step entries ending).2
  = head ((entries.*1 ≫= errs) ++ from_option (fun e => [e]) [] ending).
Proof.
  induction entries as [|[k v] rest IH]; intros Hstep.
  - simpl. by destruct ending.
  - cbn [eachVisits fmap list_fmap fst]. rewrite bind_cons.
    pose proof (Hstep k ltac:(left)) as Hk.
    destruct (step k) as [vs [e|]]; simpl in Hk.
    + destruct (errs k); [done|]. simpl in *. congruence.
    + destruct (errs k); [|done]. cbn [app].
      rewrite <- IH by (intros k' Hk'; apply Hstep; by right).
      by destruct (eachVisits step rest ending).
Qed.

Lemma visitsOfEntry_head recurse data scope path k (below : json -> list error) :
  (∀ t, jsonparser.Get data k "dependencies" = Ok t -> hasBytes t = true ->
        (recurse t (entryKey data k :: path)).2 = head (below t)) ->
  (visitsOfEntry recurse data scope path k).2
  = head (failure (jsonparser.Get data k "version") ++
          failure (jsonparser.Get data k "dependencies") ++
          match jsonparser.Get data k "dependencies" with
          | Ok t => if hasBytes t then below t else []
          | Err _ => []
          end).
Proof.
  intros Hrec. unfold visitsOfEntry, failure.
  destruct (jsonparser.Get data k "version") as [ver|err].
  - destruct (jsonparser.Get data k "dependencies") as [t|err'].
    + destruct (hasBytes t) eqn:Hbytes; [|done].
      specialize (Hrec t eq_refl Hbytes).
      by destruct (recurse t (entryKey data k :: path)).
    + by destruct (decide (err' ≠ jsonparser.KeyPathNotFoundError)).
  - destruct (decide (err ≠ jsonparser.KeyPathNotFoundError)); [done|].
    destruct (jsonparser.Get data k "dependencies") as [t|err'].
    + destruct (hasBytes t) eqn:Hbytes; [|done]. by apply Hrec.
    + by destruct (decide (err' ≠ jsonparser.KeyPathNotFoundError)).
Qed.

Lemma visitsFuel_head fuel : ∀ data scope path,
  (depth data < fuel)%nat ->
  (visitsFuel fuel data scope path).2 = head (errorsFuel fuel data).
Proof.
  induction fuel as [|fuel IH]; intros data scope path Hfuel; [lia|].
  cbn [visitsFuel errorsFuel].
  apply eachVisits_head. intros k _.
  apply (visitsOfEntry_head _ data scope path k (errorsFuel fuel)).
  intros t Ht _. pose proof (Get_depth _ _ _ _ Ht). apply IH. lia.
Qed.

(** X5: the error a walk returns is the first error the library returns
    to it, in the order in which the walk asks, where
    [KeyPathNotFoundError] is no error: the walk has no error of its own
    and passes none over. *)
Theorem walk_returns_the_first_library_error (data : json) (scope : string)
    (root : list string) (g : gmap string dependency) :
  (parseDependencies data scope root g).2 = head (errorsIn data).
Proof.
  unfold parseDependencies, errorsIn. rewrite parseDependenciesFuel_visits.
  apply visitsFuel_head. lia.
Qed.

(** The node of the entry is in the graph when the walk stops at its
    dependencies; the entries after it are not reached. *)
Example broken_listing_graph :
  parseDependencies brokenListing "prod" ["app:1.0.0"] ∅
  = ({[ "a:1.0.0" := mkDependency "a" "1.0.0" ["prod"] "" None [["app:1.0.0"]] ]},
     Some jsonparser.MalformedObjectError).
Proof. by vm_compute. Qed.

(** The text of an empty object, in quotes, is walked as an empty object. *)
Example quoted_listing_graph :
  dom (parseDependencies quotedListing "prod" ["app:1.0.0"] ∅).1
  = {[ "a:1.0.0"; "b:2.0.0" ]}
  ∧ (parseDependencies quotedListing "prod" ["app:1.0.0"] ∅).2 = None.
Proof. split; by vm_compute. Qed.

(** ** The listings *)

Lemma prepareDependencies_run w scope st :
  prepareDependencies w scope st =
  (match (jsonparser.ObjectEach
            (RunList w (listArgs (nca st) scope) (executablePath (nca st))).1.1
            (listingCallback scope (BuildInfoModuleId (packageInfo (nca st))))
            (dependencies (nca st))).2 with
   | Some e => Err e
   | None => Ok tt
   end,
   mkMachine
     (with_dependencies
        (jsonparser.ObjectEach
           (RunList w (listArgs (nca st) scope) (executablePath (nca st))).1.1
           (listingCallback scope (BuildInfoModuleId (packageInfo (nca st))))
           (dependencies (nca st))).1 (nca st))
     (trace st ++ EvRunList (listArgs (nca st) scope)
        :: listWarnings
             (RunList w (listArgs (nca st) scope) (executablePath (nca st))).1.2
             (RunList w (listArgs (nca st) scope) (executablePath (nca st))).2)).
Proof.
  unfold prepareDependencies, listArgs, listWarnings, bind at 1, get. unfold bind at 1.
  cbv zeta. unfold bind at 1, emit. cbn [nca trace fst snd].
  destruct (RunList w _ _) as [[data errData] err]. cbn [fst snd].
  fold (listingCallback scope (BuildInfoModuleId (packageInfo (nca st)))).
  unfold bind, emit, ret, fail.
  destruct err as [e|]; destruct (0 <? String.length errData)%nat;
    cbn [nca trace fst snd];
    rewrite <- ?app_assoc; cbn [app];
    unfold listingCallback;
    destruct (jsonparser.ObjectEach data _ _) as [deps [e''|]]; reflexivity.
Qed.

Lemma each_without_dependencies scope moduleId entries ending : ∀ g,
  "dependencies" ∉ entries.*1 ->
  jsonparser.each entries ending (listingCallback scope moduleId) g = (g, ending).
Proof.
  induction entries as [|[k [v under]] rest IH]; intros g Hnot; [done|].
  cbn [jsonparser.each]. unfold listingCallback at 1.
  rewrite decide_False by (intros ->; apply Hnot; left).
  apply IH. intros Hin. apply Hnot. by right.
Qed.

(** X6: the failure of npm ls is only a warning. When the library reports
    no [dependencies] key in what npm ls printed (nothing was printed,
    the text is no object, the object has no such key, or the library
    gives up before it reports that key), the listing returns what
    [ObjectEach] returns on that text, its error or success, and leaves
    the command, its graph included, as it was. *)
Theorem listing_without_dependencies_changes_nothing (w : World) (scope : string)
    (st : machine) :
  "dependencies"
    ∉ keysOf (RunList w (listArgs (nca st) scope) (executablePath (nca st))).1.1 ->
  prepareDependencies w scope st =
  (match endingOf (RunList w (listArgs (nca st) scope) (executablePath (nca st))).1.1 with
   | Some e => Err e
   | None => Ok tt
   end,
   mkMachine (nca st)
     (trace st ++ EvRunList (listArgs (nca st) scope)
        :: listWarnings
             (RunList w (listArgs (nca st) scope) (executablePath (nca st))).1.2
             (RunList w (listArgs (nca st) scope) (executablePath (nca st))).2)).
Proof.
  intros H. rewrite prepareDependencies_run. unfold jsonparser.ObjectEach.
  rewrite each_without_dependencies by done. cbn [fst snd].
  by rewrite with_dependencies_same.
Qed.

Lemma listing_without_dependencies_changes_nothing_witness :
  prepareDependencies silentListWorld "dev" (freshMachine "install") =
  (Err jsonparser.MalformedObjectError,
   mkMachine (NewNpmCommandArgs "install")
     [EvRunList "--all --dev";
      EvWarn "npm list command failed with error: exit status 1";
      EvWarn ("Some errors occurred while collecting dependencies info:" +:+ newline
              +:+ "npm ERR! missing: lodash")]).
Proof.
  apply (listing_without_dependencies_changes_nothing silentListWorld "dev"
           (freshMachine "install")).
  vm_compute. intros H. inversion H.
Defined.

(** The library gives up after the first entry of the dependencies: the
    listing fails, and the node of that entry is in the graph. *)
Example malformed_listing_graph :
  jsonparser.ObjectEach malformedListing (listingCallback "prod" "app:1.0.0") ∅
  = ({[ "a:1.0.0" := mkDependency "a" "1.0.0" ["prod"] "" None [["app:1.0.0"]] ]},
     Some jsonparser.MalformedJsonError).
Proof. by vm_compute. Qed.

Lemma each_listing scope moduleId entries ending : ∀ g,
  ∃ vs, (jsonparser.each entries ending (listingCallback scope moduleId) g).1
        = foldl applyVisit g vs
        ∧ Forall (visitOf scope) vs.
Proof.
  induction entries as [|[k [v under]] rest IH]; intros g; simpl.
  - by exists [].
  - unfold listingCallback at 1. destruct (decide (k = "dependencies")) as [_|_].
    + pose proof (parseDependencies_visits v scope [moduleId] g) as Hg.
      assert (Hvs : Forall (visitOf scope) (visits v scope [moduleId])).
      { eapply Forall_impl; [apply visits_stem|]. by intros x (_ & ? & ?). }
      destruct (parseDependencies v scope [moduleId] g) as [g' [e|]]; simpl in *.
      * by exists (visits v scope [moduleId]).
      * destruct (IH g') as (vs & Hvs' & Hall).
        exists (visits v scope [moduleId] ++ vs). rewrite foldl_app, <- Hg.
        split; [done | by apply Forall_app].
    + apply IH.
Qed.

Lemma prepareDependencies_graph w scope st :
  ∃ vs, dependencies (nca (prepareDependencies w scope st).2)
        = foldl applyVisit (dependencies (nca st)) vs
        ∧ Forall (visitOf scope) vs.
Proof.
  rewrite prepareDependencies_run. cbn [snd nca].
  rewrite dependencies_with. apply each_listing.
Qed.

Lemma setDependenciesList_graph w st :
  ∃ vs, dependencies (nca (setDependenciesList w st).2) = foldl applyVisit ∅ vs
        ∧ Forall (fun v => listed (typeRestrictionOf (nca st)) (vScope v)
                           ∧ vKey v = vName v +:+ ":" +:+ vVersion v) vs.
Proof.
  unfold setDependenciesList, bind at 1, modify. unfold bind at 1, get.
  cbn [nca trace].
  set (st0 := mkMachine (with_dependencies ∅ (nca st)) (trace st)).
  assert (Hr : typeRestrictionOf (with_dependencies ∅ (nca st)) = typeRestrictionOf (nca st))
    by (by destruct st as [[] ?]).
  assert (H0 : dependencies (nca st0) = ∅) by (by destruct st as [[] ?]).
  rewrite Hr.
  assert (Hlift : ∀ scope vs, listed (typeRestrictionOf (nca st)) scope ->
            Forall (visitOf scope) vs ->
            Forall (fun v => listed (typeRestrictionOf (nca st)) (vScope v)
                             ∧ vKey v = vName v +:+ ":" +:+ vVersion v) vs).
  { intros scope vs Hl Hvs. eapply Forall_impl; [exact Hvs|].
    intros v [-> Hk]. done. }
  unfold bind.
  destruct (decide (typeRestrictionOf (nca st) ≠ prodOnly)) as [Hnp|Hp].
  - destruct (prepareDependencies_graph w "dev" st0) as (vs1 & Hg1 & Hvs1).
    rewrite H0 in Hg1.
    assert (Hl1 := Hlift "dev" vs1 (or_introl (conj eq_refl Hnp)) Hvs1).
    destruct (prepareDependencies w "dev" st0) as [[[]|e] st1]; cbn [fst snd] in *;
      [|by exists vs1].
    destruct (decide (typeRestrictionOf (nca st) ≠ devOnly)) as [Hnd|Hd]; [|by exists vs1].
    destruct (prepareDependencies_graph w "prod" st1) as (vs2 & Hg2 & Hvs2).
    exists (vs1 ++ vs2). rewrite foldl_app, <- Hg1. split; [done|].
    apply Forall_app. split; [done|].
    by apply (Hlift "prod" vs2 (or_intror (conj eq_refl Hnd))).
  - cbn [ret].
    assert (Hnd : typeRestrictionOf (nca st) ≠ devOnly).
    { intros Hd. apply Hp. rewrite Hd. discriminate. }
    rewrite decide_True by done.
    destruct (prepareDependencies_graph w "prod" st0) as (vs & Hg & Hvs).
    rewrite H0 in Hg. exists vs. split; [done|].
    by apply (Hlift "prod" vs (or_intror (conj eq_refl Hnd))).
Qed.

Lemma fold_keyed vs : ∀ g,
  keyed g ->
  Forall (fun v => vKey v = vName v +:+ ":" +:+ vVersion v) vs ->
  keyed (foldl applyVisit g vs).
Proof.
  induction vs as [|v vs IH]; intros g Hg Hvs; [done|].
  apply Forall_cons in Hvs as [Hv Hvs]. simpl. apply IH; [|done].
  by apply applyVisit_keyed.
Qed.

Lemma fold_unenriched vs : ∀ (g : gmap string dependency),
  (∀ k d, g !! k = Some d -> fileType d = "" ∧ checksum d = None) ->
  ∀ k d, foldl applyVisit g vs !! k = Some d -> fileType d = "" ∧ checksum d = None.
Proof.
  induction vs as [|v vs IH]; intros g Hg; [done|].
  simpl. apply IH. intros k d Hk. unfold applyVisit in Hk.
  destruct (decide (k = vKey v)) as [->|Hne].
  - rewrite appendDependency_lookup in Hk. injection Hk as <-.
    destruct (g !! vKey v) as [d0|] eqn:Hd0; simpl; [|done].
    exact (Hg _ _ Hd0).
  - rewrite appendDependency_lookup_ne in Hk by done. exact (Hg _ _ Hk).
Qed.

Lemma singleton_of_all_equal (s : string) (l : list string) :
  NoDup l -> l ≠ [] -> (∀ x, x ∈ l -> x = s) -> l = [s].
Proof.
  intros Hnd Hne Hall. destruct l as [|x l]; [done|].
  assert (x = s) as -> by (apply Hall; left).
  destruct l as [|y l]; [done|].
  assert (y = s) as -> by (apply Hall; right; left).
  apply NoDup_cons in Hnd as [Hnot _]. exfalso. apply Hnot. left.
Qed.

(** X7: [setDependenciesList] builds the graph anew. Whatever npm ls
    answers, and also when a listing fails, every node of the graph it
    leaves is filed under name:version, has no checksum and no file type
    yet, and has as scopes one or both of dev and prod, each at most once
    and only those the type restriction lists: under prod-only the scopes
    of every node are [prod], under dev-only they are [dev]. *)
Theorem listed_graph_scopes (w : World) (st : machine) (k : string) (d : dependency) :
  dependencies (nca (setDependenciesList w st).2) !! k = Some d ->
  k = name d +:+ ":" +:+ version d
  ∧ fileType d = "" ∧ checksum d = None
  ∧ NoDup (scopes d) ∧ scopes d ≠ []
  ∧ (∀ s, s ∈ scopes d -> listed (typeRestrictionOf (nca st)) s)
  ∧ (typeRestrictionOf (nca st) = prodOnly -> scopes d = ["prod"])
  ∧ (typeRestrictionOf (nca st) = devOnly -> scopes d = ["dev"]).
Proof.
  intros Hd. destruct (setDependenciesList_graph w st) as (vs & Hg & Hvs).
  rewrite Hg in Hd. clear Hg.
  assert (Hkeys : Forall (fun v => vKey v = vName v +:+ ":" +:+ vVersion v) vs).
  { eapply Forall_impl; [exact Hvs|]. by intros v [_ ?]. }
  assert (Hkeyed : keyed (foldl applyVisit ∅ vs)).
  { apply fold_keyed; [|done]. intros k' d' H'. by rewrite lookup_empty in H'. }
  assert (Hfresh : fileType d = "" ∧ checksum d = None).
  { apply (fold_unenriched vs ∅) with k; [|done].
    intros k' d' H'. by rewrite lookup_empty in H'. }
  assert (Hscopes : scopesAt (foldl applyVisit ∅ vs) k = scopes d)
    by (unfold scopesAt; by rewrite Hd).
  assert (Hnd : NoDup (scopes d)).
  { rewrite <- Hscopes. apply fold_scopes_NoDup. intros k'.
    unfold scopesAt. rewrite lookup_empty. constructor. }
  assert (Hlisted : ∀ s, s ∈ scopes d -> listed (typeRestrictionOf (nca st)) s).
  { intros s Hs. rewrite <- Hscopes in Hs. apply fold_scopes_elem in Hs as [Hs|Hs].
    - unfold scopesAt in Hs. rewrite lookup_empty in Hs. inversion Hs.
    - destruct Hs as (v & Hv & _ & <-). rewrite Forall_forall in Hvs.
      by destruct (Hvs v Hv). }
  assert (Hne : scopes d ≠ []).
  { assert (Hdom : k ∈ dom (foldl applyVisit ∅ vs)) by (apply elem_of_dom; eauto).
    apply fold_dom in Hdom as [Hdom|(v & Hv & Hkey)].
    - rewrite dom_empty in Hdom. by apply not_elem_of_empty in Hdom.
    - assert (Hin : vScope v ∈ scopesAt (foldl applyVisit ∅ vs) k).
      { apply fold_scopes_elem. right. by exists v. }
      rewrite Hscopes in Hin. intros Hnil. rewrite Hnil in Hin. inversion Hin. }
  split; [exact (Hkeyed k d Hd)|]. destruct Hfresh as [Hft Hcs].
  do 5 (split; [done|]). split.
  - intros Hr. apply singleton_of_all_equal; [done | done |].
    intros s Hs. destruct (Hlisted s Hs) as [[_ Hnp]|[-> _]]; [by rewrite Hr in Hnp | done].
  - intros Hr. apply singleton_of_all_equal; [done | done |].
    intros s Hs. destruct (Hlisted s Hs) as [[-> _]|[_ Hnd']]; [done | by rewrite Hr in Hnd'].
Qed.

Lemma listed_graph_scopes_witness :
  "b:2.0.0" = "b" +:+ ":" +:+ "2.0.0"
  ∧ scopes (mkDependency "b" "2.0.0" ["prod"] "" None [["a:1.0.0"; "app:1.0.0"]]) = ["prod"].
Proof.
  pose proof (listed_graph_scopes listingWorld prodOnlyMachine "b:2.0.0"
                (mkDependency "b" "2.0.0" ["prod"] "" None [["a:1.0.0"; "app:1.0.0"]]))
    as H.
  destruct H as (H1 & _ & _ & _ & _ & _ & H2 & _).
  - vm_compute. reflexivity.
  - split; [exact H1 | apply H2; reflexivity].
Defined.

(** ** The text of .npmrc *)

Lemma string_app_nil_r (s : string) : s +:+ "" = s.
Proof.
  induction s as [|c s IH]; [done|].
  change (String c s +:+ "") with (String c (s +:+ "")). by rewrite IH.
Qed.

Lemma string_app_assoc (s t u : string) : (s +:+ t) +:+ u = s +:+ t +:+ u.
Proof.
  induction s as [|c s IH]; [done|].
  change ((String c s +:+ t) +:+ u) with (String c ((s +:+ t) +:+ u)).
  change (String c s +:+ t +:+ u) with (String c (s +:+ t +:+ u)).
  by rewrite IH.
Qed.

Lemma flatten_app l1 l2 : flatten (l1 ++ l2) = flatten l1 +:+ flatten l2.
Proof.
  induction l1 as [|x l1 IH]; simpl; [done|].
  by rewrite IH, string_app_assoc.
Qed.

Lemma Join_flatten (l : list string) : strings.Join l "" = flatten l.
Proof.
  destruct l as [|e rest]; [done|]. simpl.
  revert e. induction rest as [|x rest IH]; intros e; simpl.
  - by rewrite string_app_nil_r.
  - by rewrite IH, string_app_assoc.
Qed.

Lemma with_typeRestrictionOf_same a : with_typeRestrictionOf (typeRestrictionOf a) a = a.
Proof. by destruct a. Qed.

Lemma setTypeRestriction_frame key value a :
  setTypeRestriction key value a =
  with_typeRestrictionOf (typeRestrictionOf (setTypeRestriction key value a)) a.
Proof.
  unfold setTypeRestriction.
  repeat (case_match; try (by destruct a)).
Qed.

Lemma configOption_frame line conf a :
  (configOption line (conf, a)).2 =
  with_typeRestrictionOf (typeRestrictionOf (configOption line (conf, a)).2) a.
Proof.
  unfold configOption.
  repeat (case_match; cbn [snd];
          try (by rewrite with_typeRestrictionOf_same);
          try apply setTypeRestriction_frame).
Qed.

Lemma fold_configOption_frame tokens : ∀ conf a,
  (fold_left (fun acc currOption => configOption currOption acc) tokens (conf, a)).2 =
  with_typeRestrictionOf
    (typeRestrictionOf
       (fold_left (fun acc currOption => configOption currOption acc) tokens (conf, a)).2)
    a.
Proof.
  induction tokens as [|line tokens IH]; intros conf a; cbn [fold_left].
  - cbn [snd]. by rewrite with_typeRestrictionOf_same.
  - pose proof (configOption_frame line conf a) as Hstep.
    destruct (configOption line (conf, a)) as [conf' a']. cbn [snd] in Hstep.
    rewrite IH at 1. rewrite Hstep at 2. by destruct a.
Qed.

Lemma prepareConfigData_frame data st :
  nca (prepareConfigData data st).2 =
  with_typeRestrictionOf (typeRestrictionOf (nca (prepareConfigData data st).2)) (nca st).
Proof.
  unfold prepareConfigData. destruct (bufio.ScanLines data) as [tokens scanErr].
  pose proof (fold_configOption_frame tokens [] (nca st)) as Hframe.
  destruct (fold_left _ tokens ([], nca st)) as [conf a]. cbn [snd] in *.
  by destruct scanErr.
Qed.

(** X8: the translation of the dump records no event and changes nothing
    of the command but its type restriction; when the dump can be scanned
    the text it gives ends with the JSON flag, the registry of Artifactory
    and the authentication, in this order, whatever the dump holds, and
    when the dump cannot be scanned it gives the error of the scanner. *)
Theorem npmrc_ends_with_the_injected_directives (data : string) (st : machine) :
  trace (prepareConfigData data st).2 = trace st
  ∧ nca (prepareConfigData data st).2 =
    with_typeRestrictionOf (typeRestrictionOf (nca (prepareConfigData data st).2)) (nca st)
  ∧ match (bufio.ScanLines data).2 with
    | Some e => (prepareConfigData data st).1 = Err e
    | None => ∃ body, (prepareConfigData data st).1
                      = Ok (body +:+ injectedDirectives (nca st))
    end.
Proof.
  split; [apply prepareConfigData_trace|].
  unfold prepareConfigData. destruct (bufio.ScanLines data) as [tokens scanErr].
  pose proof (fold_configOption_frame tokens [] (nca st)) as Hframe.
  destruct (fold_left _ tokens ([], nca st)) as [conf a]. cbn [snd] in *.
  split; [by destruct scanErr|].
  destruct scanErr as [e|]; cbn [fst]; [done|].
  exists (flatten conf). f_equal. rewrite Join_flatten, !flatten_app.
  unfold injectedDirectives. rewrite Hframe. destruct (nca st). simpl.
  by rewrite !string_app_nil_r, !string_app_assoc.
Qed.

Lemma createTempNpmrc_run w st :
  createTempNpmrc w st =
  match prepareConfigData (configDump w (nca st))
          (mkMachine (nca st) (trace st ++ [EvGetConfigList])) with
  | (Err e, st1) => (Err e, st1)
  | (Ok configData, st1) =>
      let path := npmrcPath w (nca st1) in
      match Stat w path with
      | StatError e => (Err e, mkMachine (nca st1) (trace st1 ++ [EvStat path]))
      | StatNotExist =>
          (ofError (WriteFile w path configData),
           mkMachine (nca st1) (trace st1 ++ [EvStat path; EvWriteFile path configData]))
      | StatFound =>
          match Remove w path with
          | Some e => (Err e, mkMachine (nca st1) (trace st1 ++ [EvStat path; EvRemove path]))
          | None =>
              (ofError (WriteFile w path configData),
               mkMachine (nca st1)
                 (trace st1 ++ [EvStat path; EvRemove path; EvWriteFile path configData]))
          end
      end
  end.
Proof.
  unfold createTempNpmrc, configDump, npmrcPath, removeNpmrcIfExists.
  unfold bind, get, emit, ret, fail. cbn [nca trace].
  destruct (prepareConfigData _ _) as [[configData|e] st1]; [|done].
  cbv zeta. destruct (Stat w _) as [| |e].
  - rewrite callErr_run. cbn [nca trace].
    destruct (Remove w _) as [e|]; [by rewrite <- app_assoc|].
    rewrite callErr_run. cbn [nca trace]. rewrite <- !app_assoc.
    by destruct (WriteFile w _ _).
  - rewrite callErr_run. cbn [nca trace]. rewrite <- !app_assoc.
    by destruct (WriteFile w _ _).
  - done.
Qed.

(** X9: [createTempNpmrc] asks for the dump, translates it, looks for an
    existing .npmrc, removes it if there is one and writes the new one
    last, with the translation as its text. It writes nothing when the dump
    cannot be scanned, when the look-up of .npmrc fails for another reason
    than its absence, or when .npmrc cannot be removed; it removes nothing
    that the look-up did not find. *)
Theorem npmrc_is_written_after_the_removal (w : World) (st : machine) :
  ∃ evs,
    trace (createTempNpmrc w st).2 = trace st ++ EvGetConfigList :: evs ∧
    match (prepareConfigData (configDump w (nca st))
             (mkMachine (nca st) (trace st ++ [EvGetConfigList]))).1 with
    | Err e => (createTempNpmrc w st).1 = Err e ∧ evs = []
    | Ok configData =>
        let path := npmrcPath w (nca st) in
        match Stat w path with
        | StatError e => (createTempNpmrc w st).1 = Err e ∧ evs = [EvStat path]
        | StatNotExist =>
            (createTempNpmrc w st).1 = ofError (WriteFile w path configData)
            ∧ evs = [EvStat path; EvWriteFile path configData]
        | StatFound =>
            match Remove w path with
            | Some e => (createTempNpmrc w st).1 = Err e
                        ∧ evs = [EvStat path; EvRemove path]
            | None =>
                (createTempNpmrc w st).1 = ofError (WriteFile w path configData)
                ∧ evs = [EvStat path; EvRemove path; EvWriteFile path configData]
            end
        end
    end.
Proof.
  rewrite createTempNpmrc_run.
  set (st0 := mkMachine (nca st) (trace st ++ [EvGetConfigList])).
  pose proof (prepareConfigData_trace (configDump w (nca st)) st0) as Htr.
  pose proof (prepareConfigData_frame (configDump w (nca st)) st0) as Hframe.
  destruct (prepareConfigData _ st0) as [[configData|e] st1]; cbn [fst snd] in *.
  2:{ exists []. by rewrite Htr. }
  assert (Hpath : npmrcPath w (nca st1) = npmrcPath w (nca st)).
  { unfold npmrcPath. rewrite Hframe. unfold st0. cbn [nca]. by destruct (nca st). }
  cbv zeta. rewrite Hpath, Htr. unfold st0. cbn [trace].
  destruct (Stat w _) as [| |e]; [destruct (Remove w _) as [e|]| |];
    cbn [fst snd trace]; eexists; (split; [by rewrite <- app_assoc | done]).
Qed.

Example locked_npmrc_is_not_overwritten :
  (createTempNpmrc lockedNpmrcWorld argsPrepared).1
  = Err "remove .npmrc: permission denied"
  ∧ drop (length (trace argsPrepared)) (trace (createTempNpmrc lockedNpmrcWorld argsPrepared).2)
    = [EvGetConfigList; EvStat "/project/.npmrc"; EvRemove "/project/.npmrc"].
Proof. split; by vm_compute. Qed.

(** ** The arguments of npm *)

Lemma filterFlags_filter (args : list string) :
  filterFlags args = filter (fun arg => isFlag arg = false) args.
Proof.
  induction args as [|a args IH]; [done|].
  cbn [filterFlags]. rewrite filter_cons.
  destruct (strings.HasPrefix a "-") eqn:Ha; simpl.
  - rewrite decide_False by (unfold isFlag; by rewrite Ha). exact IH.
  - rewrite decide_True by (unfold isFlag; by rewrite Ha). by rewrite IH.
Qed.

(** X10: the arguments [filterFlags] keeps are those that do not start
    with "-", all of them, as many times and in the order in which they
    were given; to filter what was filtered changes nothing, and to filter
    two lists one after the other is to filter each. *)
Theorem filterFlags_keeps_the_non_flags (args more : list string) :
  Forall (fun arg => isFlag arg = false) (filterFlags args)
  ∧ (∀ arg, arg ∈ filterFlags args ↔ arg ∈ args ∧ isFlag arg = false)
  ∧ filterFlags args `sublist_of` args
  ∧ filterFlags (filterFlags args) = filterFlags args
  ∧ filterFlags (args ++ more) = filterFlags args ++ filterFlags more
  ∧ (Forall (fun arg => isFlag arg = false) args -> filterFlags args = args).
Proof.
  rewrite !filterFlags_filter. split; [|split; [|split; [|split; [|split]]]].
  - apply Forall_forall. intros arg Harg. by apply list_elem_of_filter in Harg as [? _].
  - intros arg. rewrite list_elem_of_filter. tauto.
  - apply sublist_filter.
  - by rewrite list_filter_filter, (list_filter_iff _ (fun arg => isFlag arg = false));
      [|intros ?; tauto].
  - by rewrite filter_app.
  - intros Hall. induction Hall as [|a l Ha _ IH]; [done|].
    by rewrite filter_cons, decide_True, IH.
Qed.

Lemma filterFlags_keeps_the_non_flags_witness :
  filterFlags ["lodash"; "express"] = ["lodash"; "express"].
Proof.
  apply (filterFlags_keeps_the_non_flags ["lodash"; "express"] []).
  repeat constructor.
Defined.

Lemma filterFlags_flags (args : list string) :
  Forall (fun arg => isFlag arg = true) args -> filterFlags args = [].
Proof.
  induction 1 as [|a l Ha _ IH]; [done|].
  cbn [filterFlags]. unfold isFlag in Ha. by rewrite Ha.
Qed.

Lemma runInstallOrCi_flags w st :
  filterFlags (npmArgs (nca st)) = [] ->
  runInstallOrCi w st =
  (ofError (RunCmd w (mkNpmConfig (executablePath (nca st)) [command (nca st)] [])),
   mkMachine (nca st)
     (trace st ++ [EvRunCmd (mkNpmConfig (executablePath (nca st)) [command (nca st)] [])])).
Proof.
  intros Hf. unfold runInstallOrCi, bind at 1, get. unfold bind at 1. rewrite Hf.
  rewrite andb_false_r. unfold bind, ret. rewrite callErr_run. cbn [nca trace].
  by destruct (RunCmd w _).
Qed.

(** X11: when every argument of npm is a flag, npm is run with the
    command alone, no warning is logged and the build info is kept: once
    npm succeeded and .npmrc was restored, the command goes on to list the
    dependencies, to look their checksums up and to save the manifest. *)
Theorem build_info_is_kept_with_flags_only (w : World) (st st1 st2 : machine) :
  preparePrerequisites w (repo (nca st)) st = (Ok tt, st1) ->
  createTempNpmrc w st1 = (Ok tt, st2) ->
  collectBuildInfo (nca st2) = true ->
  Forall (fun arg => isFlag arg = true) (npmArgs (nca st2)) ->
  RunCmd w (mkNpmConfig (executablePath (nca st2)) [command (nca st2)] []) = None ->
  restoreNpmrcFunc (nca st2) = None ->
  run w st =
  (do _ <- setDependenciesList w;
   do _ <- collectDependenciesChecksums w;
   saveDependenciesData w)
    (mkMachine (nca st2)
       (trace st2 ++ [EvRunCmd (mkNpmConfig (executablePath (nca st2)) [command (nca st2)] []);
                      EvRestoreNpmrc])).
Proof.
  intros Hprep Hcreate Hcollect Hflags Hcmd Hrestore.
  apply filterFlags_flags in Hflags.
  unfold run, bind at 1, get. unfold bind at 1. rewrite Hprep.
  unfold bind at 1, orReturn at 1. rewrite Hcreate.
  unfold bind at 1, orReturn at 1. rewrite (runInstallOrCi_flags w st2 Hflags), Hcmd.
  cbn [ofError]. unfold bind at 1. rewrite callRestoreNpmrcFunc_run. cbn [nca trace].
  rewrite Hrestore. unfold bind at 1. cbn [nca]. rewrite Hcollect. cbn [negb].
  by rewrite <- app_assoc.
Qed.

Lemma build_info_is_kept_with_flags_only_witness :
  run listingWorld flagsMachine =
  (do _ <- setDependenciesList listingWorld;
   do _ <- collectDependenciesChecksums listingWorld;
   saveDependenciesData listingWorld)
    (mkMachine (nca flagsConfigured)
       (trace flagsConfigured
          ++ [EvRunCmd (mkNpmConfig (executablePath (nca flagsConfigured))
                          [command (nca flagsConfigured)] []);
              EvRestoreNpmrc])).
Proof.
  apply (build_info_is_kept_with_flags_only listingWorld flagsMachine
           flagsPrepared flagsConfigured).
  - vm_compute. reflexivity.
  - vm_compute. reflexivity.
  - vm_compute. reflexivity.
  - repeat constructor.
  - reflexivity.
  - vm_compute. reflexivity.
Defined.

Example flags_only_manifest :
  (run listingWorld flagsMachine).1 = Ok tt
  ∧ List.filter (fun ev => match ev with EvPrintMissingDependencies _ => true | _ => false end)
      (trace (run listingWorld flagsMachine).2)
    = [EvPrintMissingDependencies
         [buildinfo.mkDependency "a:1.0.0" "" ["dev"; "prod"] None
            [["app:1.0.0"]; ["app:1.0.0"]];
          buildinfo.mkDependency "b:2.0.0" "" ["dev"; "prod"] None
            [["a:1.0.0"; "app:1.0.0"]; ["a:1.0.0"; "app:1.0.0"]]]].
Proof. split; by vm_compute. Qed.

(** ** The enrichment and the rest of the graph *)

Lemma collectDependenciesChecksums_graph w st :
  nca (collectDependenciesChecksums w st).2 =
    with_dependencies (dependencies (nca (collectDependenciesChecksums w st).2)) (nca st)
  ∧ (dependencies (nca (collectDependenciesChecksums w st).2) = dependencies (nca st)
     ∨ dependencies (nca (collectDependenciesChecksums w st).2) =
       foldl (enrichAt w) (dependencies (nca st)) (completionOrder w (nca st))).
Proof.
  destruct (CreateServiceManager w) as [e|] eqn:Hsm.
  { unfold collectDependenciesChecksums, bind. rewrite callErr_run, Hsm. cbn [snd nca].
    split; [by rewrite with_dependencies_same | by left]. }
  destruct (GetDependenciesFromLatestBuild w (BuildName (buildConfiguration (nca st))))
    as [e|] eqn:Hprev.
  { unfold collectDependenciesChecksums, bind, get. rewrite callErr_run, Hsm.
    cbn [nca trace]. rewrite callErr_run, Hprev. cbn [snd nca].
    split; [by rewrite with_dependencies_same | by left]. }
  rewrite (collectDependenciesChecksums_run w st Hsm Hprev). cbn [snd nca].
  rewrite dependencies_with. split; [done | by right].
Qed.

(** X12: the enrichment adds no node and removes none, and of a node it
    leaves the name, the version, the scopes and the paths as they were;
    a node is either left untouched or given the checksum and the file
    type its lookup found. This holds whatever the order of the tasks and
    also when the pass fails. Nothing else of the command is changed. *)
Theorem enrichment_touches_checksums_only (w : World) (st : machine) (k : string) :
  nca (collectDependenciesChecksums w st).2 =
    with_dependencies (dependencies (nca (collectDependenciesChecksums w st).2)) (nca st)
  ∧ match dependencies (nca st) !! k with
    | None => dependencies (nca (collectDependenciesChecksums w st).2) !! k = None
    | Some d =>
        ∃ d', dependencies (nca (collectDependenciesChecksums w st).2) !! k = Some d'
              ∧ name d' = name d ∧ version d' = version d
              ∧ scopes d' = scopes d ∧ pathToRoot d' = pathToRoot d
              ∧ (d' = d
                 ∨ ∃ c t, GetDependencyInfo w (name d) (version d) = (Some c, t, None)
                          ∧ checksum d' = Some c ∧ fileType d' = t)
    end.
Proof.
  destruct (collectDependenciesChecksums_graph w st) as [Hframe [Hsame|Hfold]];
    (split; [exact Hframe|]).
  - rewrite Hsame. destruct (dependencies (nca st) !! k) as [d|]; [|done].
    exists d. repeat split; by left.
  - rewrite Hfold, fold_enrichAt_lookup.
    destruct (decide (k ∈ _)) as [_|_].
    + destruct (dependencies (nca st) !! k) as [d|]; [|done]. simpl.
      exists (enrichNode w d). split; [done|]. unfold enrichNode.
      destruct (GetDependencyInfo w (name d) (version d)) as [[[c|] t] [e|]];
        repeat split; try (by left).
      right. by exists c, t.
    + destruct (dependencies (nca st) !! k) as [d|]; [|done].
      exists d. repeat split; by left.
Qed.

Lemma fold_enrichAt_all w (g : gmap string dependency) order :
  order ≡ₚ keys g -> foldl (enrichAt w) g order = enrichNode w <$> g.
Proof.
  intros Horder. apply map_eq. intros k. rewrite fold_enrichAt_lookup, lookup_fmap.
  destruct (decide (k ∈ order)) as [_|Hnin]; [done|].
  destruct (g !! k) as [d|] eqn:Hd; [|done].
  exfalso. apply Hnin. rewrite Horder. apply keys_dom. eauto.
Qed.

Lemma no_task_error w (g : gmap string dependency) order :
  order ≡ₚ keys g ->
  head (errorsOf w g order) = None ↔
  ∀ k d, g !! k = Some d -> (GetDependencyInfo w (name d) (version d)).2 = None.
Proof.
  intros Horder. split.
  - intros Hnone k d Hd.
    destruct (GetDependencyInfo w (name d) (version d)).2 as [e|] eqn:He; [|done].
    assert (Hin : e ∈ errorsOf w g order).
    { apply list_elem_of_omap. exists k. split.
      - rewrite Horder. apply keys_dom. eauto.
      - unfold taskError. by rewrite Hd. }
    destruct (errorsOf w g order); [inversion Hin | discriminate].
  - intros Hnone. destruct (errorsOf w g order) as [|e errs] eqn:Herrs; [done|].
    assert (Hin : e ∈ errorsOf w g order) by (rewrite Herrs; left).
    apply list_elem_of_omap in Hin as (k & Hk & He).
    unfold taskError in He. rewrite Horder in Hk. apply keys_dom in Hk as [d Hd].
    rewrite Hd in He. rewrite (Hnone k d Hd) in He. discriminate.
Qed.

(** X13: the enrichment is idempotent. When the service manager and the
    previous build are there, and the range over a graph yields each of
    its keys once, a second pass over the graph the first pass left
    changes nothing in it, and succeeds exactly when the first did. *)
Theorem enrichment_is_idempotent (w : World) (st : machine) :
  CreateServiceManager w = None ->
  GetDependenciesFromLatestBuild w (BuildName (buildConfiguration (nca st))) = None ->
  rangeOrder w (dependencies (nca st)) ≡ₚ keys (dependencies (nca st)) ->
  rangeOrder w (enrichNode w <$> dependencies (nca st))
    ≡ₚ keys (enrichNode w <$> dependencies (nca st)) ->
  dependencies (nca (collectDependenciesChecksums w (collectDependenciesChecksums w st).2).2)
  = dependencies (nca (collectDependenciesChecksums w st).2)
  ∧ ((collectDependenciesChecksums w (collectDependenciesChecksums w st).2).1 = Ok tt
     ↔ (collectDependenciesChecksums w st).1 = Ok tt).
Proof.
  intros Hsm Hprev Hrange Hrange'.
  assert (Horder : completionOrder w (nca st) ≡ₚ keys (dependencies (nca st)))
    by (by rewrite completionOrder_Permutation).
  rewrite (collectDependenciesChecksums_run w st Hsm Hprev).
  set (g := dependencies (nca st)) in *. cbn [fst snd].
  rewrite (fold_enrichAt_all w g _ Horder).
  set (st1 := mkMachine (with_dependencies (enrichNode w <$> g) (nca st)) _).
  assert (Hg1 : dependencies (nca st1) = enrichNode w <$> g)
    by (unfold st1; cbn [nca]; apply dependencies_with).
  assert (Horder' : completionOrder w (nca st1) ≡ₚ keys (enrichNode w <$> g))
    by (by rewrite completionOrder_Permutation, Hg1).
  assert (Hprev1 : GetDependenciesFromLatestBuild w
                     (BuildName (buildConfiguration (nca st1))) = None).
  { unfold st1. cbn [nca]. unfold g. by destruct (nca st). }
  rewrite (collectDependenciesChecksums_run w st1 Hsm Hprev1). cbn [fst snd nca].
  rewrite !dependencies_with, Hg1. rewrite (fold_enrichAt_all w _ _ Horder').
  split.
  - apply map_eq. intros k. rewrite !lookup_fmap.
    destruct (g !! k) as [d|]; simpl; [|done]. by rewrite enrichNode_idempotent.
  - assert (Hiff : ∀ (h : gmap string dependency) order, order ≡ₚ keys h ->
               (match head (errorsOf w h order) with
                | Some e => Err e
                | None => Ok tt
                end = Ok tt)
               ↔ ∀ k d, h !! k = Some d ->
                        (GetDependencyInfo w (name d) (version d)).2 = None).
    { intros h order Ho. rewrite <- (no_task_error w h order Ho).
      destruct (head (errorsOf w h order)); split; intros; done. }
    rewrite (Hiff _ _ Horder'), (Hiff _ _ Horder). split.
    + intros H k d Hd.
      specialize (H k (enrichNode w d)). rewrite lookup_fmap, Hd in H.
      destruct (enrichNode_identity w d) as [Hn Hv]. rewrite Hn, Hv in H. by apply H.
    + intros H k d1 Hd1. rewrite lookup_fmap in Hd1.
      destruct (g !! k) as [d|] eqn:Hd; [|discriminate]. injection Hd1 as <-.
      destruct (enrichNode_identity w d) as [-> ->]. by apply (H k d).
Qed.

Lemma enrichment_is_idempotent_witness :
  dependencies
    (nca (collectDependenciesChecksums flakyWorld
            (collectDependenciesChecksums flakyWorld parsedMachine).2).2)
  = dependencies (nca (collectDependenciesChecksums flakyWorld parsedMachine).2).
Proof.
  apply (enrichment_is_idempotent flakyWorld parsedMachine).
  - reflexivity.
  - reflexivity.
  - reflexivity.
  - reflexivity.
Defined.

(** * Properties of the download of the extractors

    ** The text after the last slash *)

Lemma string_length_app (a b : string) :
  String.length (a +:+ b) = (String.length a + String.length b)%nat.
Proof. induction a as [|c a IH]; simpl; [done | by rewrite IH]. Qed.

Lemma lastIndexFrom_app (a b : string) sep : ∀ i found,
  strings_more.lastIndexFrom i (a +:+ b) sep found =
  strings_more.lastIndexFrom (i + String.length a) b sep
    (strings_more.lastIndexFrom i a sep found).
Proof.
  induction a as [|c a IH]; intros i found; simpl.
  - by rewrite Nat.add_0_r.
  - rewrite IH. by rewrite Nat.add_succ_r.
Qed.

Lemma lastIndexFrom_found (s : string) sep : ∀ i found,
  (0 ≤ found)%Z -> (0 ≤ strings_more.lastIndexFrom i s sep found)%Z.
Proof.
  induction s as [|c s IH]; intros i found Hf; simpl; [done|].
  apply IH. destruct (decide (c = sep)); lia.
Qed.

Lemma lastIndexFrom_absent (s : string) sep : ∀ i,
  strings_more.lastIndexFrom i s sep (-1) = (-1)%Z ->
  ∀ j found, strings_more.lastIndexFrom j s sep found = found.
Proof.
  induction s as [|c s IH]; intros i Habs j found; simpl in *; [done|].
  destruct (decide (c = sep)) as [->|Hne].
  - pose proof (lastIndexFrom_found s sep (S i) (Z.of_nat i)) as H. lia.
  - by apply (IH (S i)).
Qed.

Lemma upto_app (a b : string) : strings_more.upto (String.length a) (a +:+ b) = a.
Proof.
  unfold strings_more.upto. induction a as [|c a IH]; simpl; [by destruct b|].
  by rewrite IH.
Qed.

Lemma substring_all (b : string) : String.substring 0 (String.length b) b = b.
Proof. induction b as [|c b IH]; simpl; [done | by rewrite IH]. Qed.

Lemma from_app (a b : string) : strings_more.from (String.length a) (a +:+ b) = b.
Proof.
  unfold strings_more.from. rewrite string_length_app.
  replace (String.length a + String.length b - String.length a)%nat
    with (String.length b) by lia.
  induction a as [|c a IH]; simpl; [apply substring_all | exact IH].
Qed.

(** X14: [JFROG_CLI_EXTRACTORS_REMOTE] is read as a server ID and a
    repository name around its last slash: for a value made of a server
    ID, a slash and a name without a slash, the configuration of that
    server ID is asked for and the path is that of the download in the
    repository of that name; a value without a slash is refused without
    the configuration being asked for. *)
Theorem extractors_remote_is_split_at_the_last_slash (h : Host)
    (serverId repoName downloadPath : string) :
  strings_more.LastIndex repoName "/" = (-1)%Z ->
  getExtractorsRemoteDetails h (serverId +:+ "/" +:+ repoName) downloadPath =
    (match GetSpecificConfig h serverId with
     | Ok serverDetails => Ok (serverDetails, pathJoin h repoName downloadPath)
     | Err e => Err e
     end,
     [CallGetSpecificConfig serverId])
  ∧ getExtractorsRemoteDetails h repoName downloadPath =
    (Err (badExtractorsRemote repoName), []).
Proof.
  intros Habs. split.
  - unfold getExtractorsRemoteDetails.
    assert (Hidx : strings_more.LastIndex (serverId +:+ "/" +:+ repoName) "/"
                   = Z.of_nat (String.length serverId)).
    { unfold strings_more.LastIndex. rewrite lastIndexFrom_app.
      change ("/" +:+ repoName) with (String "/" repoName).
      cbn [strings_more.lastIndexFrom]. rewrite decide_True by done.
      by rewrite (lastIndexFrom_absent repoName "/" 0 Habs). }
    rewrite Hidx. rewrite decide_False by lia. cbv zeta.
    rewrite Nat2Z.id, upto_app.
    replace (serverId +:+ "/" +:+ repoName) with ((serverId +:+ "/") +:+ repoName)
      by apply string_app_assoc.
    replace (String.length serverId + 1)%nat with (String.length (serverId +:+ "/"))
      by (rewrite string_length_app; simpl; lia).
    by rewrite from_app.
  - unfold getExtractorsRemoteDetails. by rewrite Habs, decide_True.
Qed.

Lemma extractors_remote_is_split_at_the_last_slash_witness :
  getExtractorsRemoteDetails (exampleHost (extractorsRemoteOnly "team/eu/art-1/libs") 200)
    ("team/eu/art-1" +:+ "/" +:+ "libs") "org/jfrog/extractor.jar"
  = (Ok (mkServerDetails "https://team/eu/art-1/artifactory/" false,
         "libs/org/jfrog/extractor.jar"),
     [CallGetSpecificConfig "team/eu/art-1"]).
Proof.
  apply (extractors_remote_is_split_at_the_last_slash
           (exampleHost (extractorsRemoteOnly "team/eu/art-1/libs") 200)
           "team/eu/art-1" "libs" "org/jfrog/extractor.jar").
  reflexivity.
Defined.

(** ** The remote the extractors are downloaded from *)

(** X15: the deprecated [JFROG_CLI_JCENTER_REMOTE_SERVER] comes first:
    when it is set, [JFROG_CLI_EXTRACTORS_REMOTE] is not looked at, the
    deprecation is warned of, the configuration of that server is asked
    for and the JCenter version of the extractor is chosen; when it is not
    set the other version is chosen and nothing is warned of; when neither
    variable is set the download is from oss.jfrog.org and no
    configuration is asked for. *)
Theorem jcenter_remote_comes_first (h : Host) (downloadPath ojoVersion jCenterVersion : string) :
  (Getenv h JCenterRemoteServerEnv ≠ "" ->
     GetExtractorsRemoteDetails h downloadPath =
       (match GetSpecificConfig h (Getenv h JCenterRemoteServerEnv) with
        | Ok serverDetails =>
            Ok (serverDetails,
                pathJoin h (if decide (Getenv h JCenterRemoteRepoEnv = "")
                            then "jcenter" else Getenv h JCenterRemoteRepoEnv)
                  downloadPath)
        | Err e => Err e
        end,
        [CallWarnDeprecated; CallGetSpecificConfig (Getenv h JCenterRemoteServerEnv)])
     ∧ GetExtractorVersion h ojoVersion jCenterVersion = jCenterVersion)
  ∧ (Getenv h JCenterRemoteServerEnv = "" ->
     GetExtractorVersion h ojoVersion jCenterVersion = ojoVersion
     ∧ (CallWarnDeprecated ∉ snd (GetExtractorsRemoteDetails h downloadPath))
     ∧ (Getenv h ExtractorsRemoteEnv = "" ->
        GetExtractorsRemoteDetails h downloadPath =
          (Ok (mkServerDetails "https://oss.jfrog.org/artifactory/" false,
               pathJoin h "oss-release-local" downloadPath),
           []))).
Proof.
  unfold GetExtractorsRemoteDetails, GetExtractorVersion, getJcenterRemoteDetails.
  split.
  - intros Hset. cbv zeta.
    by rewrite !(decide_True (P := Getenv h JCenterRemoteServerEnv ≠ "")) by done.
  - intros Hunset.
    rewrite !(decide_False (P := Getenv h JCenterRemoteServerEnv ≠ ""))
      by (intros Hne; by apply Hne).
    split; [done|]. split.
    + cbv zeta. destruct (decide (Getenv h ExtractorsRemoteEnv ≠ "")) as [_|_].
      * unfold getExtractorsRemoteDetails. cbv zeta.
        destruct (decide (_ = _)); cbn [snd]; intros Hin.
        -- inversion Hin.
        -- apply list_elem_of_singleton in Hin. discriminate.
      * cbn [snd]. intros Hin. inversion Hin.
    + intros Hunset'. cbv zeta.
      by rewrite decide_False by (intros Hne; by apply Hne).
Qed.

Lemma jcenter_remote_comes_first_witness :
  GetExtractorsRemoteDetails (exampleHost (fun _ => "") 200) "org/jfrog/extractor.jar"
  = (Ok (mkServerDetails "https://oss.jfrog.org/artifactory/" false,
         "oss-release-local/org/jfrog/extractor.jar"),
     []).
Proof.
  apply (proj2 (jcenter_remote_comes_first (exampleHost (fun _ => "") 200)
                  "org/jfrog/extractor.jar" "2.1" "2.0")).
  - reflexivity.
  - reflexivity.
Defined.

(** ** The download *)

Lemma downloadExtractor_calls h artDetails downloadPath targetPath details :
  CallDownloadFile details ∈ (downloadExtractor h artDetails downloadPath targetPath).2 ->
  DownloadPath details = ArtifactoryUrl artDetails +:+ downloadPath
  ∧ (downloadExtractor h artDetails downloadPath targetPath).1 =
    match DownloadFile h details with
    | Err e => Some e
    | Ok resp =>
        if decide (StatusCode resp ≠ StatusOK)
        then Some (Status resp +:+ " received when attempting to download "
                   +:+ DownloadPath details)
        else None
    end.
Proof.
  unfold downloadExtractor.
  destruct (GetFileAndDirFromPath h targetPath) as [filename localDir].
  destruct (CreateArtAuthConfigOf h artDetails) as [e|]; cbn [fst snd].
  { intros Hin. apply list_elem_of_singleton in Hin. discriminate. }
  destruct (GetJfrogCertsDir h) as [certsPath|e]; cbn [fst snd].
  2:{ intros Hin. repeat (apply elem_of_cons in Hin as [Hin|Hin]; [discriminate|]).
      inversion Hin. }
  destruct (BuildClient h artDetails certsPath) as [e|]; cbn [fst snd].
  { intros Hin. repeat (apply elem_of_cons in Hin as [Hin|Hin]; [discriminate|]).
    inversion Hin. }
  intros Hin. repeat (apply elem_of_cons in Hin as [Hin|Hin]; [try discriminate|]).
  - injection Hin as ->. done.
  - inversion Hin.
Qed.

(** X16: the extractor is downloaded only when it is needed and can be:
    a download is made only if the look-up of the target succeeded and
    did not find it and the remote was resolved; the file is then asked
    for at the URL of that server followed by the remote path; and the
    error returned is that of the download, or, for a response whose
    status is not 200, one that holds the status and the URL. When the
    target is there nothing else is called and no error is returned. *)
Theorem extractor_is_downloaded_only_when_needed (h : Host)
    (downloadPath targetPath : string) :
  (∀ details,
     CallDownloadFile details ∈ (DownloadExtractorIfNeeded h downloadPath targetPath).2 ->
     IsFileExists h targetPath = Ok false
     ∧ (∃ artDetails remotePath,
          (GetExtractorsRemoteDetails h downloadPath).1 = Ok (artDetails, remotePath)
          ∧ DownloadPath details = ArtifactoryUrl artDetails +:+ remotePath)
     ∧ (DownloadExtractorIfNeeded h downloadPath targetPath).1 =
       match DownloadFile h details with
       | Err e => Some e
       | Ok resp =>
           if decide (StatusCode resp ≠ StatusOK)
           then Some (Status resp +:+ " received when attempting to download "
                      +:+ DownloadPath details)
           else None
       end)
  ∧ (IsFileExists h targetPath = Ok true ->
     DownloadExtractorIfNeeded h downloadPath targetPath
     = (None, [CallIsFileExists targetPath]))
  ∧ (∀ e, IsFileExists h targetPath = Err e ->
     DownloadExtractorIfNeeded h downloadPath targetPath
     = (Some e, [CallIsFileExists targetPath])).
Proof.
  unfold DownloadExtractorIfNeeded.
  split; [|split; [by intros -> | by intros e ->]].
  intros details Hin.
  destruct (IsFileExists h targetPath) as [[|]|e]; cbn [snd] in Hin.
  { apply list_elem_of_singleton in Hin. discriminate. }
  2:{ apply list_elem_of_singleton in Hin. discriminate. }
  split; [done|].
  assert (Hremote : ∀ c, c ∈ (GetExtractorsRemoteDetails h downloadPath).2 ->
                         isDownload c = false).
  { intros c. unfold GetExtractorsRemoteDetails, getJcenterRemoteDetails,
      getExtractorsRemoteDetails.
    repeat (destruct (decide _); cbn [snd]); intros Hc;
      repeat (apply elem_of_cons in Hc as [->|Hc]; [done|]); inversion Hc. }
  destruct (GetExtractorsRemoteDetails h downloadPath) as [[[artDetails remotePath]|e] calls];
    cbn [fst snd] in *.
  - pose proof (downloadExtractor_calls h artDetails remotePath targetPath details) as Hdl.
    destruct (downloadExtractor h artDetails remotePath targetPath) as [err calls'].
    cbn [fst snd] in *.
    apply elem_of_cons in Hin as [Hin|Hin]; [discriminate|].
    apply elem_of_app in Hin as [Hin|Hin]; [by apply Hremote in Hin|].
    destruct (Hdl Hin) as [Hpath Herr]. split; [|done].
    by exists artDetails, remotePath.
  - apply elem_of_cons in Hin as [Hin|Hin]; [discriminate|]. by apply Hremote in Hin.
Qed.

Lemma extractor_is_downloaded_only_when_needed_witness :
  (DownloadExtractorIfNeeded (exampleHost (fun _ => "") 404)
     "org/jfrog/extractor.jar" "/home/.jfrog/dependencies/extractor.jar").1
  = Some ("status received when attempting to download "
          +:+ "https://oss.jfrog.org/artifactory/oss-release-local/org/jfrog/extractor.jar").
Proof.
  pose proof (proj1 (extractor_is_downloaded_only_when_needed
                       (exampleHost (fun _ => "") 404)
                       "org/jfrog/extractor.jar" "/home/.jfrog/dependencies/extractor.jar")
                (mkDownloadFileDetails "extractor.jar"
                   "https://oss.jfrog.org/artifactory/oss-release-local/org/jfrog/extractor.jar"
                   "/home/.jfrog/dependencies" "extractor.jar")) as H.
  destruct H as (_ & _ & H).
  - vm_compute. do 4 right. left.
  - rewrite H. reflexivity.
Defined.
